(** * go-mines: the Minesweeper board engine (package [msboard])

    A shallow embedding of [msboard/Board.go] and the properties of its
    board operations: construction, mine placement, proximity scores,
    clicks and the reveal propagation, flags, rendering, and the parsing
    of console input in [msgame/Game.go]. *)

From Stdlib Require Import ZArith Lia Ascii.
From stdpp Require Import base tactics option list strings gmap pretty.

Local Open Scope Z_scope.

(** ** Machine integers

    Go's [int] is a 64-bit two's complement integer on the platforms the
    program targets; arithmetic wraps around silently. *)

Definition wrap (x : Z) : Z := (x + 2 ^ 63) mod 2 ^ 64 - 2 ^ 63.

Definition intAdd (x y : Z) : Z := wrap (x + y).
Definition intSub (x y : Z) : Z := wrap (x - y).
Definition intMul (x y : Z) : Z := wrap (x * y).

Definition minInt : Z := - 2 ^ 63.
Definition maxInt : Z := 2 ^ 63 - 1.

(** ** Outcomes

    A Go function either returns, or the runtime panics (index out of
    range, nil dereference, negative [make] length).  [OutOfFuel] is the
    embedding's own: recursion and unbounded loops are cut by a fuel
    argument. *)

Inductive outcome (A : Type) : Type :=
  | Done (a : A)
  | Panic
  | OutOfFuel.
Arguments Done {A} a.
Arguments Panic {A}.
Arguments OutOfFuel {A}.

#[global] Instance outcome_ret : MRet outcome := λ A a, Done a.
#[global] Instance outcome_bind : MBind outcome := λ A B f m,
  match m with
  | Done a => f a
  | Panic => Panic
  | OutOfFuel => OutOfFuel
  end.

(** [for _, x := range l { s = f(s, x) }], where the body may panic. *)
Fixpoint forM {A S : Type} (f : S → A → outcome S) (l : list A) (s : S)
  : outcome S :=
  match l with
  | [] => Done s
  | x :: l' => s' ← f s x; forM f l' s'
  end.

(** ** Data model *)

(** [Location]: zero-based cell location, {0,0} is upper left. *)
Record Location : Type := NewLocation { row : Z; col : Z }.

#[global] Instance Location_eq_dec : EqDecision Location.
Proof. solve_decision. Defined.

(** [cell]: state of a single cell of the board. *)
Record cell : Type := mkCell {
  location : Location;
  hasMine : bool;
  score : Z;
  flagged : bool;
  revealed : bool
}.

(** [Board]: the embedded [boardSaveState] fields come first. *)
Record Board : Type := mkBoard {
  initialized : bool;
  difficulty : string;
  rows : Z;
  cols : Z;
  mines : list Location;
  explosionOccured : bool;
  cells : list (list cell);
  safeRemaining : Z;
  mineCount : Z
}.

(** Field assignments. *)
Definition set_hasMine (v : bool) (c : cell) : cell :=
  mkCell (location c) v (score c) (flagged c) (revealed c).
Definition set_score (v : Z) (c : cell) : cell :=
  mkCell (location c) (hasMine c) v (flagged c) (revealed c).
Definition set_flagged (v : bool) (c : cell) : cell :=
  mkCell (location c) (hasMine c) (score c) v (revealed c).
Definition set_revealed (v : bool) (c : cell) : cell :=
  mkCell (location c) (hasMine c) (score c) (flagged c) v.

Definition set_cells (v : list (list cell)) (b : Board) : Board :=
  mkBoard (initialized b) (difficulty b) (rows b) (cols b) (mines b)
          (explosionOccured b) v (safeRemaining b) (mineCount b).
Definition set_initialized (v : bool) (b : Board) : Board :=
  mkBoard v (difficulty b) (rows b) (cols b) (mines b)
          (explosionOccured b) (cells b) (safeRemaining b) (mineCount b).
Definition set_explosionOccured (v : bool) (b : Board) : Board :=
  mkBoard (initialized b) (difficulty b) (rows b) (cols b) (mines b)
          v (cells b) (safeRemaining b) (mineCount b).
Definition set_safeRemaining (v : Z) (b : Board) : Board :=
  mkBoard (initialized b) (difficulty b) (rows b) (cols b) (mines b)
          (explosionOccured b) (cells b) v (mineCount b).
Definition set_mines (v : list Location) (b : Board) : Board :=
  mkBoard (initialized b) (difficulty b) (rows b) (cols b) v
          (explosionOccured b) (cells b) (safeRemaining b) (mineCount b).

(** ** The cell store

    [cells] is a [[][]*cell]: every slot of the grid holds a pointer to a
    cell of its own ([new(cell)] in [Initialize]), and slots are never
    re-pointed.  A non-nil [*cell] is therefore identified with the slot
    [(r, c)] that holds it, and the grid doubles as the heap of cells;
    [nil] is [None]. *)

Definition ptr : Type := nat * nat.

Definition slot (cs : list (list cell)) (p : ptr) : option cell :=
  cs !! p.1 ≫= λ line, line !! p.2.

(** Reading a field through a pointer. *)
Definition load (b : Board) (p : ptr) : outcome cell :=
  match slot (cells b) p with
  | Some c => Done c
  | None => Panic
  end.

(** Writing a field through a pointer. *)
Definition poke (f : cell → cell) (b : Board) (p : ptr) : outcome Board :=
  match slot (cells b) p with
  | Some _ => Done (set_cells (alter (alter f p.2) p.1 (cells b)) b)
  | None => Panic
  end.

Definition slotOf (l : Location) : ptr := (Z.to_nat (row l), Z.to_nat (col l)).
Definition locOf (p : ptr) : Location :=
  NewLocation (Z.of_nat p.1) (Z.of_nat p.2).

(** ** Board methods *)

Record boardparams : Type := mkParams {
  bp_difficulty : string;
  bp_rows : Z;
  bp_cols : Z;
  bp_mineCount : Z
}.

Definition boardDefinitionsDict : gmap string boardparams :=
  <["easy" := mkParams "easy" 9 9 10]>
    (<["medium" := mkParams "medium" 16 16 30]>
       (<["hard" := mkParams "hard" 30 16 72]> ∅)).

(** [NewBoard]: a new, uninitialized board, or [nil]. *)
Definition NewBoard (difficulty : string) : option Board :=
  match boardDefinitionsDict !! difficulty with
  | None => None
  | Some params =>
      Some (mkBoard false difficulty (bp_rows params) (bp_cols params) []
                    false [] 0 (bp_mineCount params))
  end.

(** [getCell]: bounds check against [rows] and [cols], then
    [b.cells[row][col]], which panics when the grid is shorter. *)
Definition getCell (b : Board) (selected : Location) : outcome (option ptr) :=
  if bool_decide (row selected < 0 ∨ row selected >= rows b
                  ∨ col selected < 0 ∨ col selected >= cols b)
  then Done None
  else
    let p := slotOf selected in
    match slot (cells b) p with
    | Some _ => Done (Some p)
    | None => Panic
    end.

(** [ValidLocation]. *)
Definition ValidLocation (b : Board) (l : Location) : bool :=
  bool_decide (row l >= 0 ∧ row l < rows b ∧ col l >= 0 ∧ col l < cols b).

(** The values taken by the counter of
    [for n := x - 1; n <= x + 1; n++].  The loop is entered only after
    [getCell] has accepted the centre, so [0 <= x < rows] (or [cols]) and
    neither bound wraps around. *)
Definition around (x : Z) : list Z := [intSub x 1; x; intAdd x 1].

(** [getNeighborCells]: pointers to the valid neighbours of [loc], in
    row-major order; [nil] ([None]) when [loc] itself is not on the board. *)
Definition getNeighborCells (b : Board) (loc : Location)
  : outcome (option (list ptr)) :=
  center ← getCell b loc;
  match center with
  | None => Done None
  | Some _ =>
      retval ←
        forM (λ retval nrow,
          forM (λ retval ncol,
            let neighborloc := NewLocation nrow ncol in
            if decide (loc = neighborloc) then Done retval
            else
              neighbor ← getCell b neighborloc;
              match neighbor with
              | None => Done retval
              | Some n => Done (retval ++ [n])
              end)
            (around (col loc)) retval)
          (around (row loc)) [];
      Done (Some retval)
  end.

(** [range] over a slice that may be nil. *)
Definition rangeOf {A : Type} (s : option (list A)) : list A := default [] s.

(** The slots visited by
    [for row := range b.cells { for col := range b.cells[row] { .. } }].
    The loop bodies below write cell fields only and never change the shape
    of the grid, so the slots are those of the grid at loop entry. *)
Definition gridSlots (cs : list (list cell)) : list ptr :=
  r ← seq 0 (length cs);
  c ← seq 0 (length (default [] (cs !! r)));
  [(r, c)].

(** [make([][]*cell, rows)] and, row by row, [make([]*cell, cols)] filled
    with fresh cells that know their location.  [make] panics on a negative
    length. *)
Definition newCell (r c : nat) : cell :=
  mkCell (NewLocation (Z.of_nat r) (Z.of_nat c)) false 0 false false.

Definition makeCells (b : Board) : outcome (list (list cell)) :=
  if bool_decide (rows b < 0) then Panic
  else if bool_decide (0 < rows b ∧ cols b < 0) then Panic
  else Done ((λ r, newCell r <$> seq 0 (Z.to_nat (cols b)))
               <$> seq 0 (Z.to_nat (rows b))).

(** State of the placement loops of [Initialize]: the board, the local
    [minesToPlace], and how many numbers have been drawn from the global
    random source so far. *)
Record placing : Type := mkPlacing {
  pl_board : Board;
  pl_minesToPlace : Z;
  pl_drawn : nat
}.

Section Placement.
(** [draws k] is the value of the [k]-th call of [rand.Intn(100)]. *)
Variable draws : nat → Z.
Variable safespot : Location.

(** Body of the two nested [range] loops, at slot [(row, col)]. *)
Definition placeAt (st : placing) (p : ptr) : outcome placing :=
  let b := pl_board st in
  if bool_decide (pl_minesToPlace st = 0) then Done st
  else
    let currloc := locOf p in
    if decide (currloc = safespot) then Done st
    else
      let mineshot := draws (pl_drawn st) in
      let drawn := S (pl_drawn st) in
      if bool_decide (mineshot < 2) then
        currcell ← getCell b currloc;
        match currcell with
        | None => Panic
        | Some q =>
            cl ← load b q;
            if hasMine cl then Done (mkPlacing b (pl_minesToPlace st) drawn)
            else
              b ← poke (set_hasMine true) b p;
              let b := set_mines (mines b ++ [currloc]) b in
              let b := set_safeRemaining (intSub (safeRemaining b) 1) b in
              Done (mkPlacing b (intSub (pl_minesToPlace st) 1) drawn)
        end
      else Done (mkPlacing b (pl_minesToPlace st) drawn).

(** [for minesToPlace > 0 { .. one scan of the grid .. }]; one unit of
    fuel per scan. *)
Fixpoint placeMines (fuel : nat) (st : placing) : outcome placing :=
  if bool_decide (pl_minesToPlace st > 0) then
    match fuel with
    | O => OutOfFuel
    | S fuel' =>
        st' ← forM placeAt (gridSlots (cells (pl_board st))) st;
        placeMines fuel' st'
    end
  else Done st.
End Placement.

(** Body of the loops of [initializeScores], at slot [(row, col)]. *)
Definition scoreAt (b : Board) (p : ptr) : outcome Board :=
  let currloc := locOf p in
  currcell ← getCell b currloc;
  neighbors ← getNeighborCells b currloc;
  cellScore ←
    forM (λ cellScore neighbor,
            n ← load b neighbor;
            Done (if hasMine n then intAdd cellScore 1 else cellScore))
         (rangeOf neighbors) 0;
  match currcell with
  | None => Panic
  | Some q => poke (set_score cellScore) b q
  end.

Definition initializeScores (b : Board) : outcome Board :=
  forM scoreAt (gridSlots (cells b)) b.

(** [Initialize]: fresh cells, random mine placement away from [safespot],
    scores.  The [error] it returns is always [nil]. *)
Definition Initialize (fuel : nat) (draws : nat → Z) (b : Board)
    (safespot : Location) : outcome Board :=
  cs ← makeCells b;
  let b := set_cells cs b in
  let b := set_safeRemaining (intMul (rows b) (cols b)) b in
  st ← placeMines draws safespot fuel (mkPlacing b (mineCount b) 0);
  b ← initializeScores (pl_board st);
  Done (set_initialized true b).

Definition Initialized (b : Board) : bool := initialized b.

(** [SafeRemaining]. *)
Definition SafeRemaining (b : Board) : Z :=
  if negb (initialized b) then 0 else safeRemaining b.

(** [RevealAll]: the flag tells whether the returned [error] is nil. *)
Definition RevealAll (b : Board) : outcome (Board * bool) :=
  if negb (initialized b) then Done (b, false)
  else
    b ← forM (poke (set_revealed true)) (gridSlots (cells b)) b;
    Done (b, true).

(** One iteration of the loop of [PropagateReveals]; [recurse] is the
    recursive call. *)
Definition revealNeighbor (recurse : Board → option ptr → outcome Board)
    (b : Board) (n : ptr) : outcome Board :=
  nc ← load b n;
  if revealed nc then Done b
  else
    b ← poke (set_revealed true) b n;
    if bool_decide (score nc = 0) then recurse b (Some n) else Done b.

(** [PropagateReveals]; one unit of fuel per nested call. *)
Fixpoint PropagateReveals (fuel : nat) (b : Board) (c : option ptr)
  : outcome Board :=
  match c with
  | None => Done b
  | Some p =>
      match fuel with
      | O => OutOfFuel
      | S fuel' =>
          cl ← load b p;
          neighbors ← getNeighborCells b (location cl);
          forM (revealNeighbor (PropagateReveals fuel')) (rangeOf neighbors) b
      end
  end.

(** [Click]. *)
Definition Click (fuel : nat) (b : Board) (l : Location) : outcome Board :=
  c ← getCell b l;
  match c with
  | None => Done b
  | Some p =>
      cl ← load b p;
      if flagged cl then Done b
      else if revealed cl then Done b
      else
        b ← poke (set_revealed true) b p;
        if hasMine cl then Done (set_explosionOccured true b)
        else if bool_decide (score cl = 0) then PropagateReveals fuel b (Some p)
        else Done b
  end.

(** [MineHit]. *)
Definition MineHit (b : Board) : bool := explosionOccured b.

(** [ToggleFlag]. *)
Definition ToggleFlag (b : Board) (l : Location) : outcome Board :=
  c ← getCell b l;
  match c with
  | None => Done b
  | Some p =>
      cl ← load b p;
      if revealed cl then Done b
      else poke (set_flagged (negb (flagged cl))) b p
  end.

(** ** Rendering

    A [rune] is modelled by an [ascii] character: every rune the program
    produces is an ASCII one, and [string(r)] is then the one-character
    string.  An [io.Writer] is modelled by the text written to it so far;
    the program ignores what [fmt.Fprintln] returns. *)

(** [HasMine]. *)
Definition HasMine (b : Board) (c : option ptr) : outcome bool :=
  match c with
  | None => Done false
  | Some p => cl ← load b p; Done (hasMine cl)
  end.

Definition scoreRunes : list ascii :=
  ["_"; "1"; "2"; "3"; "4"; "5"; "6"; "7"; "8"]%char.

(** [Render]: [scoreRunes[c.score]] panics when the score is not an index
    of the array. *)
Definition Render (b : Board) (c : option ptr) : outcome ascii :=
  match c with
  | None => Done "~"%char
  | Some p =>
      cl ← load b p;
      if negb (revealed cl) then Done "."%char
      else if flagged cl then Done "+"%char
      else if hasMine cl then Done "*"%char
      else if bool_decide (score cl < 0) then Panic
      else match scoreRunes !! Z.to_nat (score cl) with
           | Some r => Done r
           | None => Panic
           end
  end.

(** [fmt.Fprintln(cout, s)]. *)
Definition Fprintln (cout s : string) : string :=
  cout +:+ s +:+ String "010"%char "".

(** [fmt.Sprintf("%2d", n)]: the decimal digits of [n], with spaces in
    front up to a width of 2. *)
Definition Sprintf2d (n : Z) : string :=
  let s := pretty n in
  if bool_decide (String.length s < 2)%nat then " " +:+ s else s.

(** [ConsoleRender]: the text written to [cout], and whether the [error]
    returned is nil. *)
Definition ConsoleRender (b : Board) (cout : string) : outcome (string * bool) :=
  if negb (initialized b) then Done (cout, false)
  else
    let headingLine :=
      if decide (difficulty b = "easy")
      then "    A  B  C  D  E  F  G  H  I"
      else if decide (difficulty b = "medium" ∨ difficulty b = "hard")
      then "    A  B  C  D  E  F  G  H  I  J  K  L  M  N  O  P"
      else "" in
    let cout := Fprintln cout headingLine in
    cout ←
      forM (λ cout row,
              let nextLine := Sprintf2d (intAdd (Z.of_nat row) 1) +:+ "  " in
              nextLine ←
                forM (λ nextLine col,
                        let nextLine :=
                          if bool_decide (col ≠ 0%nat) then nextLine +:+ "  "
                          else nextLine in
                        r ← Render b (Some (row, col));
                        Done (nextLine +:+ String r ""))
                     (seq 0 (length (default [] (cells b !! row)))) nextLine;
              Done (Fprintln cout nextLine))
           (seq 0 (length (cells b))) cout;
    Done (cout, true).

(** ** Console input ([msgame/Game.go])

    A Go string is a string of bytes.  The functions of Go's library used
    on the input ([strings.Trim], [strings.ToLower], [unicode.IsDigit],
    [strconv.Atoi], the conversion to runes) are modelled on ASCII text,
    where a rune is a byte; the properties below are about ASCII
    input.  A [*bufio.Scanner] is modelled by the lines it has still to
    deliver: [in.Scan()] fails on the empty list, and otherwise
    [in.Text()] is the head. *)

Definition rune (a : ascii) : Z := Z.of_nat (nat_of_ascii a).

(** The cutset [" \n"] of [strings.Trim]. *)
Definition inCutset (a : ascii) : bool :=
  bool_decide (a = " "%char ∨ a = "010"%char).

Fixpoint TrimLeft (s : string) : string :=
  match s with
  | String a s' => if inCutset a then TrimLeft s' else s
  | EmptyString => EmptyString
  end.

Definition Trim (s : string) : string :=
  String.rev (TrimLeft (String.rev (TrimLeft s))).

Definition toLower (a : ascii) : ascii :=
  if bool_decide (rune "A" ≤ rune a ≤ rune "Z")
  then ascii_of_nat (nat_of_ascii a + 32)
  else a.

Fixpoint ToLower (s : string) : string :=
  match s with
  | String a s' => String (toLower a) (ToLower s')
  | EmptyString => EmptyString
  end.

Definition IsDigit (a : ascii) : bool :=
  bool_decide (rune "0" ≤ rune a ≤ rune "9").

(** The value of a string of decimal digits, if it is one. *)
Fixpoint digitsValue (acc : Z) (s : string) : option Z :=
  match s with
  | EmptyString => Some acc
  | String a s' =>
      if IsDigit a then digitsValue (10 * acc + (rune a - rune "0")) s'
      else None
  end.

(** [strconv.Atoi]: an optional sign and at least one digit; [None] is
    an error, for bad syntax or for a value outside the [int] range. *)
Definition Atoi (s : string) : option Z :=
  let '(neg, body) :=
    match s with
    | String "+" s' => (false, s')
    | String "-" s' => (true, s')
    | _ => (false, s)
    end in
  match body with
  | EmptyString => None
  | _ =>
      v ← digitsValue 0 body;
      let v := if neg : bool then - v else v in
      if bool_decide (minInt ≤ v ≤ maxInt) then Some v else None
  end.

(** [readInput]: the line read, or [None] for the error at the end of
    the input, and the lines left. *)
Definition readInput (input : list string) : option string * list string :=
  match input with
  | [] => (None, [])
  | text :: rest => (Some (ToLower (Trim text)), rest)
  end.

(** The loop of [readNextMove] over the runes of the line. *)
Fixpoint gather (digits : string) (letters : list ascii) (runes : string)
  : string * list ascii :=
  match runes with
  | EmptyString => (digits, letters)
  | String r runes' =>
      if IsDigit r then gather (digits +:+ String r "") letters runes'
      else gather digits (letters ++ [r]) runes'
  end.

(** [readNextMove]: the command, the location, whether the [error] is
    nil, and the lines left. *)
Definition readNextMove (input : list string)
  : string * Location * bool * list string :=
  match readInput input with
  | (None, rest) => ("", NewLocation (-1) (-1), false, rest)
  | (Some inLine, rest) =>
      let '(digits, letters) := gather "" [] inLine in
      let '(userRow, ok) :=
        match Atoi digits with
        | Some v => (v, true)
        | None => (-1, false)
        end in
      let userRow := intSub userRow 1 in
      let userCol :=
        match letters with
        | [] => -1
        | r :: _ => intSub (rune r) (rune "a")
        end in
      ("s", NewLocation userRow userCol, ok, rest)
  end.

(** [readOneCharacter]: [inLine[0:1]] panics on the empty string. *)
Definition readOneCharacter (input : list string)
  : outcome (option string * list string) :=
  match readInput input with
  | (None, rest) => Done (None, rest)
  | (Some inLine, rest) =>
      match inLine with
      | EmptyString => Panic
      | String a _ => Done (Some (String a ""), rest)
      end
  end.

(** ** The older copy of the board ([Board.go], package [gomines])

    The repository still carries the file the package [msboard] grew out
    of.  Its [NewBoard] is the same function over a smaller [Board] and
    another table. *)

Module Legacy.

Record cell : Type := mkCell {
  hasMine : bool;
  score : Z;
  flagged : bool;
  revealed : bool
}.

Record Board : Type := mkBoard {
  initialized : bool;
  rows : Z;
  cols : Z;
  mines : list Location;
  cells : list (list cell);
  safeRemaining : Z;
  mineCount : Z
}.

Definition boardDefinitionsDict : gmap string boardparams :=
  <["easy" := mkParams "easy" 9 9 6]>
    (<["medium" := mkParams "medium" 16 16 18]>
       (<["hard" := mkParams "hard" 30 16 36]> ∅)).

Definition NewBoard (difficulty : string) : option Board :=
  match boardDefinitionsDict !! difficulty with
  | None => None
  | Some params =>
      Some (mkBoard false (bp_rows params) (bp_cols params) [] [] 0
                    (bp_mineCount params))
  end.

End Legacy.

(** * Specification

    The vocabulary of the properties: well-formed grids, neighbourhoods,
    counts, the order of boards under reveals, the zero-score region of a
    cell, and the boards the program can reach. *)

(** Number of cells of the grid that satisfy [P]. *)
Definition countCells (P : cell → bool) (cs : list (list cell)) : nat :=
  length (filter (λ c, Is_true (P c)) (concat cs)).

Definition indicator (v : bool) : nat := if v then 1%nat else 0%nat.

Definition onBoard (b : Board) (l : Location) : Prop :=
  0 ≤ row l < rows b ∧ 0 ≤ col l < cols b.

#[global] Instance onBoard_dec (b : Board) (l : Location) :
  Decision (onBoard b l).
Proof. unfold onBoard. apply _. Defined.

(** The cell at a location of the board, if there is one. *)
Definition cellAt (b : Board) (l : Location) : option cell :=
  if decide (onBoard b l) then slot (cells b) (slotOf l) else None.

(** The grid [Initialize] builds: [rows] lines of [cols] cells, each cell
    knowing where it is. *)
Record grid_ok (b : Board) : Prop := mkGridOk {
  grid_rows : 0 ≤ rows b ≤ 2 ^ 31;
  grid_cols : 0 ≤ cols b ≤ 2 ^ 31;
  grid_length : length (cells b) = Z.to_nat (rows b);
  grid_lines : ∀ r line,
    cells b !! r = Some line → length line = Z.to_nat (cols b);
  grid_locs : ∀ p c, slot (cells b) p = Some c → location c = locOf p
}.

(** The eight positions around [l]: row ± 1, column ± 1, [l] itself left
    out. *)
Definition neighborLocs (l : Location) : list Location :=
  [ NewLocation (row l - 1) (col l - 1);
    NewLocation (row l - 1) (col l);
    NewLocation (row l - 1) (col l + 1);
    NewLocation (row l) (col l - 1);
    NewLocation (row l) (col l + 1);
    NewLocation (row l + 1) (col l - 1);
    NewLocation (row l + 1) (col l);
    NewLocation (row l + 1) (col l + 1) ].

(** The cells [getNeighborCells] returns. *)
Definition neighborSlots (b : Board) (l : Location) : list ptr :=
  slotOf <$> filter (onBoard b) (neighborLocs l).

(** Two distinct locations are adjacent when they differ by at most one in
    each coordinate (the 8-connected Moore neighbourhood). *)
Definition adjacent (l1 l2 : Location) : Prop :=
  l1 ≠ l2 ∧ -1 ≤ row l2 - row l1 ≤ 1 ∧ -1 ≤ col l2 - col l1 ≤ 1.

(** Number of cells of the grid that hold a mine. *)
Definition minesOn (b : Board) : Z := Z.of_nat (countCells hasMine (cells b)).

(** What the placement loops maintain: the grid stays well formed, the
    mines on the grid and the mines still to place add up to [mineCount],
    [safeRemaining] counts the mine-free cells, and no mine sits on
    [safespot]. *)
Record place_inv (b0 : Board) (safespot : Location) (st : placing) : Prop :=
  mkPlaceInv {
  pi_grid : grid_ok (pl_board st);
  pi_rows : rows (pl_board st) = rows b0;
  pi_cols : cols (pl_board st) = cols b0;
  pi_mineCount : mineCount (pl_board st) = mineCount b0;
  pi_left : 0 ≤ pl_minesToPlace st;
  pi_placed : minesOn (pl_board st) + pl_minesToPlace st = mineCount b0;
  pi_safe :
    safeRemaining (pl_board st) + minesOn (pl_board st) = rows b0 * cols b0;
  pi_cells : ∀ p c, slot (cells (pl_board st)) p = Some c →
    score c = 0 ∧ flagged c = false ∧ revealed c = false
    ∧ (locOf p = safespot → hasMine c = false)
}.

(** State of one scan under a source that always hits, once the slots
    [done] have been visited from a grid without mines and [m0] mines to
    place. *)
Definition hit_scan (b0 : Board) (safespot : Location) (m0 : Z)
    (done : list ptr) (st : placing) : Prop :=
  place_inv b0 safespot st
  ∧ (∀ p c, p ∉ done → slot (cells (pl_board st)) p = Some c →
            hasMine c = false)
  ∧ pl_minesToPlace st
    = Z.max 0 (m0 - Z.of_nat (length (filter (λ p, locOf p ≠ safespot) done))).

(** Whether the position [l] is a cell of the board that holds a mine;
    positions outside the grid hold none. *)
Definition mineAt (b : Board) (l : Location) : bool :=
  match cellAt b l with
  | Some c => hasMine c
  | None => false
  end.

(** Number of cells among the eight positions around [l] that hold a
    mine. *)
Definition mooreMines (b : Board) (l : Location) : Z :=
  Z.of_nat (length (filter (λ nl, Is_true (mineAt b nl)) (neighborLocs l))).

(** State of the scoring loop once the slots [done] have been scored: the
    grid differs from the grid [b] at loop entry in scores only, and the
    slots scored hold the number of mines around them. *)
Record scoring (b : Board) (done : list ptr) (b' : Board) : Prop := mkScoring {
  sc_grid : grid_ok b';
  sc_fields : set_cells [] b' = set_cells [] b;
  sc_mines : minesOn b' = minesOn b;
  sc_cells : ∀ p c, slot (cells b) p = Some c →
    ∃ c', slot (cells b') p = Some c' ∧ c' = set_score (score c') c
          ∧ (p ∈ done → score c' = mooreMines b (locOf p))
}.

(** Dimensions and mine counts that keep every computation of
    [Initialize] far from the ends of the [int] range; the three presets
    are well inside. *)
Definition params_ok (b : Board) : Prop :=
  0 ≤ rows b ≤ 2 ^ 31 ∧ 0 ≤ cols b ≤ 2 ^ 31 ∧ 0 ≤ mineCount b ≤ 2 ^ 31.

(** The preset table of the specification: name, rows, columns, mines. *)
Definition presetTable (name : string) : option (Z * Z * Z) :=
  if decide (name = "easy") then Some (9, 9, 10)
  else if decide (name = "medium") then Some (16, 16, 30)
  else if decide (name = "hard") then Some (30, 16, 72)
  else None.

(** The board [NewBoard] allocates for a preset: nothing but the
    parameters is set. *)
Definition blankBoard (name : string) (preset : Z * Z * Z) : Board :=
  mkBoard false name preset.1.1 preset.1.2 [] false [] 0 preset.2.

(** [c.revealed = true] through the pointer [p]. *)
Definition reveal (b : Board) (p : ptr) : Board :=
  set_cells (alter (alter (set_revealed true) p.2) p.1 (cells b)) b.

Definition revealedAt (b : Board) (p : ptr) : bool :=
  match slot (cells b) p with
  | Some c => revealed c
  | None => false
  end.

(** Number of cells not yet revealed. *)
Definition unrevealed (b : Board) : nat :=
  countCells (λ c, negb (revealed c)) (cells b).

(** [c'] is [c] after zero or more reveals: nothing but [revealed] may
    differ, and [revealed] is never cleared. *)
Definition cell_le (c c' : cell) : Prop :=
  c' = set_revealed (revealed c') c ∧ (revealed c = true → revealed c' = true).

(** [b'] is [b] after zero or more reveals. *)
Record board_le (b b' : Board) : Prop := mkBoardLe {
  le_fields : set_cells [] b' = set_cells [] b;
  le_cells : Forall2 (Forall2 cell_le) (cells b) (cells b')
}.

(** [PropagateRevealsT] is [PropagateReveals] with a ghost log: next to
    the board it returns the cells on which a nested call
    [b.PropagateReveals(n)] was made, in the order the calls were
    entered. *)
Definition revealNeighborT
    (recurse : Board → option ptr → outcome (Board * list ptr))
    (st : Board * list ptr) (n : ptr) : outcome (Board * list ptr) :=
  nc ← load st.1 n;
  if revealed nc then Done st
  else
    b ← poke (set_revealed true) st.1 n;
    if bool_decide (score nc = 0) then
      r ← recurse b (Some n);
      Done (r.1, st.2 ++ n :: r.2)
    else Done (b, st.2).

Fixpoint PropagateRevealsT (fuel : nat) (b : Board) (c : option ptr)
  : outcome (Board * list ptr) :=
  match c with
  | None => Done (b, [])
  | Some p =>
      match fuel with
      | O => OutOfFuel
      | S fuel' =>
          cl ← load b p;
          neighbors ← getNeighborCells b (location cl);
          forM (revealNeighborT (PropagateRevealsT fuel')) (rangeOf neighbors)
               (b, [])
      end
  end.

(** What one run of the propagation, from board [b] to board [b'] with
    nested calls on [tr], guarantees. *)
Record propagated (b b' : Board) (tr : list ptr) : Prop := mkPropagated {
  pr_le : board_le b b';
  pr_nodup : NoDup tr;
  pr_fresh : ∀ q, q ∈ tr → revealedAt b q = false ∧ revealedAt b' q = true;
  pr_count : (unrevealed b' + length tr ≤ unrevealed b)%nat
}.

(** The run of the loop of [PropagateReveals] over the neighbours [ns],
    from board [b] to board [b']: a neighbour already revealed is skipped,
    one with a non-zero score is revealed, and one with score 0 is revealed
    and its own neighbours are visited by the nested call. *)
Inductive visits : Board → list ptr → Board → Prop :=
  | visits_nil b : visits b [] b
  | visits_skip b n nc ns b' :
      slot (cells b) n = Some nc → revealed nc = true →
      visits b ns b' → visits b (n :: ns) b'
  | visits_leaf b n nc ns b' :
      slot (cells b) n = Some nc → revealed nc = false → score nc ≠ 0 →
      visits (reveal b n) ns b' → visits b (n :: ns) b'
  | visits_rec b n nc ns b2 b' :
      slot (cells b) n = Some nc → revealed nc = false → score nc = 0 →
      visits (reveal b n) (neighborSlots b (locOf n)) b2 →
      visits b2 ns b' → visits b (n :: ns) b'.

Definition zeroAt (b : Board) (l : Location) : Prop :=
  ∃ c, cellAt b l = Some c ∧ score c = 0.

(** The connected zero-score region that contains [l0]: the zero-score
    cells linked to [l0] by a chain of adjacent zero-score cells. *)
Inductive region (b : Board) (l0 : Location) : Location → Prop :=
  | region_start : zeroAt b l0 → region b l0 l0
  | region_step l l' :
      region b l0 l → adjacent l l' → zeroAt b l' → region b l0 l'.

(** The immediate border of the region: the cells with a non-zero score
    next to a cell of the region. *)
Definition border (b : Board) (l0 l : Location) : Prop :=
  (∃ c, cellAt b l = Some c ∧ score c ≠ 0)
  ∧ ∃ z, region b l0 z ∧ adjacent z l.

Definition flooded (b : Board) (l0 l : Location) : Prop :=
  region b l0 l ∨ border b l0 l.

(** All the neighbours of [x] are revealed. *)
Definition closedAt (b : Board) (x : ptr) : Prop :=
  ∀ q, q ∈ neighborSlots b (locOf x) → revealedAt b q = true.

(** Every score is the number of mines around the cell. *)
Definition scores_ok (b : Board) : Prop :=
  ∀ l c, cellAt b l = Some c → score c = mooreMines b l.

(** Every revealed mine-free cell of score 0 has all its neighbours
    revealed: the propagation has run to its end from each of them. *)
Definition closed (b : Board) : Prop :=
  ∀ x cx, slot (cells b) x = Some cx →
          revealed cx = true → score cx = 0 → hasMine cx = false →
          closedAt b x.

Record board_inv (b : Board) : Prop := mkInv {
  inv_params : params_ok b;
  inv_blank : initialized b = false → cells b = [];
  inv_grid : initialized b = true → grid_ok b;
  inv_scores : initialized b = true → scores_ok b;
  inv_closed : initialized b = true → closed b
}.

(** The boards reached from [NewBoard] through the exported methods. *)
Inductive reachable : Board → Prop :=
  | reach_NewBoard name b :
      NewBoard name = Some b → reachable b
  | reach_Initialize b fuel draws safespot b' :
      reachable b → Initialize fuel draws b safespot = Done b' → reachable b'
  | reach_Click b fuel l b' :
      reachable b → Click fuel b l = Done b' → reachable b'
  | reach_ToggleFlag b l b' :
      reachable b → ToggleFlag b l = Done b' → reachable b'
  | reach_RevealAll b r :
      reachable b → RevealAll b = Done r → reachable r.1.

#[global] Instance outcome_fmap : FMap outcome := λ A B f m,
  match m with
  | Done a => Done (f a)
  | Panic => Panic
  | OutOfFuel => OutOfFuel
  end.

(** The board [b] with the flags replaced: the cell at location [l] is
    flagged exactly when [φ l] says so. *)
Definition reflagCell (φ : Location → bool) (c : cell) : cell :=
  set_flagged (φ (location c)) c.

Definition reflag (φ : Location → bool) (b : Board) : Board :=
  set_cells ((λ line : list cell, reflagCell φ <$> line) <$> cells b) b.

Definition easyBoard : Board := blankBoard "easy" (9, 9, 10).

Definition boardOr (d : Board) (r : outcome Board) : Board :=
  match r with
  | Done b => b
  | _ => d
  end.

Definition cellOr (o : option cell) : cell := default (newCell 0 0) o.

(** A random source that hits ([< 2]) on every seventh draw: ten mines,
    none next to another, in one scan. *)
Definition sparseDraws (k : nat) : Z :=
  if bool_decide (k `mod` 7 = 0)%nat then 1 else 50.

Definition sparseBoard : Board :=
  boardOr easyBoard (Initialize 1 sparseDraws easyBoard (NewLocation 4 4)).

(** A random source that always hits: the ten mines fill the first row
    and start the second. *)
Definition denseBoard : Board :=
  boardOr easyBoard (Initialize 1 (λ _, 0) easyBoard (NewLocation 4 4)).

(** [sparseBoard] with a flag on the zero-score cell (8,7). *)
Definition flaggedBoard : Board :=
  boardOr sparseBoard (ToggleFlag sparseBoard (NewLocation 8 7)).

(** [sparseBoard] with a flag on (0,1), next to the mine at (0,0). *)
Definition flaggedBorderBoard : Board :=
  boardOr sparseBoard (ToggleFlag sparseBoard (NewLocation 0 1)).

(** What the placement loops of [Initialize] do to the rest of the board:
    [difficulty], [explosionOccured] and [initialized] are not touched, and
    [mines] grows by the locations of the mines placed, each once. *)
Record place_log (b0 : Board) (st : placing) : Prop := mkPlaceLog {
  pg_difficulty : difficulty (pl_board st) = difficulty b0;
  pg_explosion : explosionOccured (pl_board st) = explosionOccured b0;
  pg_initialized : initialized (pl_board st) = initialized b0;
  pg_mines : ∃ new,
    mines (pl_board st) = mines b0 ++ new ∧ NoDup new
    ∧ Z.of_nat (length new) + pl_minesToPlace st = mineCount b0
    ∧ ∀ l, l ∈ new ↔ mineAt (pl_board st) l = true
}.

(** One call of a method that may change the board. *)
Inductive step : Board → Board → Prop :=
  | step_Initialize b fuel draws safespot b' :
      Initialize fuel draws b safespot = Done b' → step b b'
  | step_Click b fuel l b' :
      Click fuel b l = Done b' → step b b'
  | step_ToggleFlag b l b' :
      ToggleFlag b l = Done b' → step b b'
  | step_RevealAll b r :
      RevealAll b = Done r → step b r.1.

(** [sparseBoard] after a click on its zero-score corner (8,8). *)
Definition floodedBoard : Board :=
  boardOr sparseBoard (Click 100 sparseBoard (NewLocation 8 8)).

(** [sparseBoard] after a click on the mine at (0,0). *)
Definition explodedBoard : Board :=
  boardOr sparseBoard (Click 0 sparseBoard (NewLocation 0 0)).

(** [explodedBoard] initialized again, with (0,0) as the safe location. *)
Definition replayedBoard : Board :=
  boardOr sparseBoard (Initialize 1 (λ _, 0) explodedBoard (NewLocation 0 0)).

(** [floodedBoard] after [RevealAll]. *)
Definition revealedBoard : Board :=
  boardOr sparseBoard (fst <$> RevealAll floodedBoard).

(** The rune [Render] gives for a cell whose score is an index of
    [scoreRunes]. *)
Definition glyph (c : cell) : ascii :=
  if negb (revealed c) then "."%char
  else if flagged c then "+"%char
  else if hasMine c then "*"%char
  else default "?"%char (scoreRunes !! Z.to_nat (score c)).

(** The runes of a row, two spaces between neighbours. *)
Fixpoint joinRunes (rs : list ascii) : string :=
  match rs with
  | [] => ""
  | r :: rs' =>
      String r (match rs' with [] => "" | _ :: _ => "  " +:+ joinRunes rs' end)
  end.

(** The line of the row with index [k]. *)
Definition rowLine (k : nat) (line : list cell) : string :=
  Sprintf2d (Z.of_nat k + 1) +:+ "  " +:+ joinRunes (glyph <$> line).

(** The lines of the rows [k], [k + 1], ... *)
Fixpoint rowLines (k : nat) (lines : list (list cell)) : list string :=
  match lines with
  | [] => []
  | line :: rest => rowLine k line :: rowLines (S k) rest
  end.

(** A text made of lines, each ended by a newline. *)
Fixpoint unlines (lines : list string) : string :=
  match lines with
  | [] => ""
  | line :: rest => line +:+ String "010"%char "" +:+ unlines rest
  end.

(** The letters of the first [n] columns: A, B, C, ... *)
Definition columnLetters (n : nat) : list ascii :=
  (λ k, ascii_of_nat (65 + k)) <$> seq 0 n.

(** The heading line for [n] columns. *)
Definition headingFor (n : nat) : string :=
  "    " +:+ joinRunes (columnLetters n).

(** The characters of a string. *)
Fixpoint chars (s : string) : list ascii :=
  match s with
  | EmptyString => []
  | String a s' => a :: chars s'
  end.

(** A line of spaces and newlines only. *)
Definition blank (s : string) : Prop :=
  Forall (λ a, a = " "%char ∨ a = "010"%char) (chars s).

(** A click at [l] acts on the cell [c]: it is the cell at [l], neither
    flagged nor revealed. *)
Definition clickable (b : Board) (l : Location) (c : cell) : Prop :=
  cellAt b l = Some c ∧ flagged c = false ∧ revealed c = false.

(** The cells a click at [l] reveals: the cell at [l] when the click acts
    on it, and with it the flooded cells when it holds no mine and has
    score 0. *)
Definition touched (b : Board) (l l' : Location) : Prop :=
  ∃ c, clickable b l c
       ∧ (l' = l ∨ (hasMine c = false ∧ score c = 0 ∧ flooded b l l')).

(** [sparseBoard] after a click on (0,1), a cell of score 1. *)
Definition numberedBoard : Board :=
  boardOr sparseBoard (Click 0 sparseBoard (NewLocation 0 1)).

(** The clicks on (8,8) and on (0,1), in the two orders. *)
Definition floodedNumberedBoard : Board :=
  boardOr sparseBoard (Click 0 floodedBoard (NewLocation 0 1)).

Definition numberedFloodedBoard : Board :=
  boardOr sparseBoard (Click 100 numberedBoard (NewLocation 8 8)).

(** * Properties *)

(** ** Integers and outcomes *)

Lemma wrap_small (x : Z) : minInt ≤ x ≤ maxInt → wrap x = x.
Proof.
  unfold wrap, minInt, maxInt. intros Hx.
  rewrite Z.mod_small by lia. lia.
Qed.

Lemma bind_Done {A B : Type} (m : outcome A) (f : A → outcome B) (y : B) :
  m ≫= f = Done y ↔ ∃ x, m = Done x ∧ f x = Done y.
Proof.
  destruct m as [x| |]; simpl; split; try (intros [x' [? ?]]); try done.
  - eauto.
  - by simplify_eq.
Qed.

(** Inversion of a computation that returned. *)
Ltac inv_done :=
  repeat match goal with
  | H : Done _ = Done _ |- _ => injection H as H; try subst
  | H : Panic = Done _ |- _ => discriminate H
  | H : OutOfFuel = Done _ |- _ => discriminate H
  | H : mret _ = Done _ |- _ => injection H as H; try subst
  | H : _ ≫= _ = Done _ |- _ =>
      let x := fresh "x" in let Hx := fresh "Hx" in
      apply bind_Done in H as (x & Hx & H)
  end.

(** Loop invariant over the prefix of elements already processed. *)
Lemma forM_invariant {A S : Type} (f : S → A → outcome S)
    (I : list A → S → Prop) (l : list A) (s : S) :
  I [] s →
  (∀ done x todo s1 s2,
      l = done ++ x :: todo → I done s1 → f s1 x = Done s2 →
      I (done ++ [x]) s2) →
  ∀ s', forM f l s = Done s' → I l s'.
Proof.
  intros Hinit Hstep.
  cut (∀ todo done s1, l = done ++ todo → I done s1 →
         ∀ s', forM f todo s1 = Done s' → I l s').
  { intros Hgen s' Hrun. by eapply (Hgen l []). }
  induction todo as [|x todo IH]; intros done s1 Hl Hinv s' Hrun; simpl in Hrun.
  - inv_done. by rewrite app_nil_r.
  - inv_done. eapply (IH (done ++ [x])); [by rewrite <- app_assoc| |exact Hrun].
    eauto.
Qed.

(** A loop whose body always returns, returns. *)
Lemma forM_total {A S : Type} (f : S → A → outcome S) (I : S → Prop)
    (l : list A) (s : S) :
  I s →
  (∀ x s1, x ∈ l → I s1 → ∃ s2, f s1 x = Done s2 ∧ I s2) →
  ∃ s', forM f l s = Done s' ∧ I s'.
Proof.
  revert s; induction l as [|x l IH]; intros s Hs Hstep; simpl; [eauto|].
  destruct (Hstep x s) as (s2 & -> & Hs2); [left|done|]. simpl.
  apply IH; [done|]. intros y s1 Hy. apply Hstep. by right.
Qed.

(** ** The grid as a store *)

Lemma slot_alter_eq (f : cell → cell) (cs : list (list cell)) (p : ptr) :
  slot (alter (alter f p.2) p.1 cs) p = f <$> slot cs p.
Proof.
  unfold slot. rewrite list_lookup_alter_eq.
  destruct (cs !! p.1) as [line|]; simpl; [|done].
  by rewrite list_lookup_alter_eq.
Qed.

Lemma slot_alter_ne (f : cell → cell) (cs : list (list cell)) (p q : ptr) :
  p ≠ q → slot (alter (alter f p.2) p.1 cs) q = slot cs q.
Proof.
  intros Hne. unfold slot.
  destruct (decide (p.1 = q.1)) as [E|E].
  - rewrite <- E, list_lookup_alter_eq.
    destruct (cs !! p.1) as [line|]; simpl; [|done].
    rewrite list_lookup_alter_ne; [done|].
    intros E2. apply Hne. destruct p, q; simpl in *; congruence.
  - by rewrite list_lookup_alter_ne.
Qed.

Lemma slot_alter (f : cell → cell) (cs : list (list cell)) (p q : ptr) :
  slot (alter (alter f p.2) p.1 cs) q
  = if decide (p = q) then f <$> slot cs q else slot cs q.
Proof.
  destruct (decide (p = q)) as [->|Hne];
    [apply slot_alter_eq|by apply slot_alter_ne].
Qed.

Lemma load_Done (b : Board) (p : ptr) (c : cell) :
  load b p = Done c ↔ slot (cells b) p = Some c.
Proof. unfold load. destruct (slot (cells b) p); naive_solver. Qed.

Lemma poke_Done (f : cell → cell) (b b' : Board) (p : ptr) :
  poke f b p = Done b' ↔
  is_Some (slot (cells b) p)
  ∧ b' = set_cells (alter (alter f p.2) p.1 (cells b)) b.
Proof.
  unfold poke. destruct (slot (cells b) p) as [c|]; split.
  - intros H; inv_done. eauto.
  - by intros [_ ->].
  - done.
  - by intros [[? ?] _].
Qed.

Lemma count_alter_line (P : cell → bool) (f : cell → cell) (l : list cell)
    (i : nat) (c : cell) :
  l !! i = Some c →
  (length (filter (λ c, Is_true (P c)) (alter f i l)) + indicator (P c)
   = length (filter (λ c, Is_true (P c)) l) + indicator (P (f c)))%nat.
Proof.
  revert i; induction l as [|x l IH]; intros [|i] Hi; simplify_eq/=.
  - rewrite !filter_cons.
    destruct (P c), (P (f c)); simpl;
      repeat case_decide; simpl; try done; lia.
  - rewrite !filter_cons. specialize (IH _ Hi).
    case_decide; simpl; lia.
Qed.

Lemma countCells_alter (P : cell → bool) (f : cell → cell)
    (cs : list (list cell)) (p : ptr) (c : cell) :
  slot cs p = Some c →
  (countCells P (alter (alter f p.2) p.1 cs) + indicator (P c)
   = countCells P cs + indicator (P (f c)))%nat.
Proof.
  destruct p as [r k]. unfold slot, countCells; simpl.
  revert r; induction cs as [|line cs IH]; intros [|r] Hr; simplify_eq/=.
  - rewrite !filter_app, !length_app.
    pose proof (count_alter_line P f line k c Hr). lia.
  - rewrite !filter_app, !length_app. specialize (IH _ Hr). lia.
Qed.

(** ** Well-formed grids *)

Lemma ValidLocation_onBoard (b : Board) (l : Location) :
  ValidLocation b l = true ↔ onBoard b l.
Proof.
  unfold ValidLocation, onBoard. rewrite bool_decide_eq_true. lia.
Qed.

Lemma slotOf_locOf (p : ptr) : slotOf (locOf p) = p.
Proof. destruct p; unfold slotOf, locOf; simpl. by rewrite !Nat2Z.id. Qed.

Lemma locOf_slotOf (l : Location) :
  0 ≤ row l → 0 ≤ col l → locOf (slotOf l) = l.
Proof.
  destruct l as [r c]; unfold slotOf, locOf; simpl; intros.
  by rewrite !Z2Nat.id.
Qed.

Lemma grid_slot_is_Some (b : Board) (p : ptr) :
  grid_ok b →
  is_Some (slot (cells b) p) ↔ Z.of_nat p.1 < rows b ∧ Z.of_nat p.2 < cols b.
Proof.
  intros Hg. unfold slot. split.
  - intros [c Hc]. destruct (cells b !! p.1) as [line|] eqn:Hline; [|done].
    simpl in Hc. apply lookup_lt_Some in Hc.
    rewrite (grid_lines b Hg _ _ Hline) in Hc.
    apply lookup_lt_Some in Hline. rewrite (grid_length b Hg) in Hline.
    destruct Hg. lia.
  - intros [Hr Hc].
    destruct (lookup_lt_is_Some_2 (cells b) p.1) as [line Hline].
    { rewrite (grid_length b Hg). destruct Hg. lia. }
    rewrite Hline. simpl. apply lookup_lt_is_Some_2.
    rewrite (grid_lines b Hg _ _ Hline). destruct Hg. lia.
Qed.

Lemma grid_slot_onBoard (b : Board) (p : ptr) :
  grid_ok b → is_Some (slot (cells b) p) ↔ onBoard b (locOf p).
Proof.
  intros Hg. rewrite grid_slot_is_Some by done.
  unfold onBoard, locOf; simpl. lia.
Qed.

Lemma cellAt_is_Some (b : Board) (l : Location) :
  grid_ok b → is_Some (cellAt b l) ↔ onBoard b l.
Proof.
  intros Hg. unfold cellAt. destruct (decide (onBoard b l)) as [Hl|Hl].
  - split; [done|intros _]. apply grid_slot_onBoard; [done|].
    destruct Hl as [? ?]. by rewrite locOf_slotOf by lia.
  - split; [by intros [? ?]|done].
Qed.

Lemma cellAt_slot (b : Board) (l : Location) (c : cell) :
  cellAt b l = Some c → slot (cells b) (slotOf l) = Some c ∧ onBoard b l.
Proof. unfold cellAt. by case_decide. Qed.

Lemma cellAt_locOf (b : Board) (p : ptr) :
  grid_ok b → cellAt b (locOf p) = slot (cells b) p.
Proof.
  intros Hg. unfold cellAt. rewrite slotOf_locOf. case_decide as Hp; [done|].
  destruct (slot (cells b) p) as [c|] eqn:Hc; [|done].
  exfalso. apply Hp, grid_slot_onBoard; eauto.
Qed.

Lemma getCell_ok (b : Board) (l : Location) :
  grid_ok b →
  getCell b l = Done (if decide (onBoard b l) then Some (slotOf l) else None).
Proof.
  intros Hg. unfold getCell.
  destruct (decide (onBoard b l)) as [Hl|Hl].
  - rewrite bool_decide_eq_false_2 by (unfold onBoard in Hl; lia).
    destruct (proj2 (cellAt_is_Some b l Hg) Hl) as [c Hc].
    apply cellAt_slot in Hc as [-> _]. done.
  - rewrite bool_decide_eq_true_2; [done|]. unfold onBoard in Hl. lia.
Qed.

Lemma bind_Done_l {A B : Type} (x : A) (f : A → outcome B) :
  Done x ≫= f = f x.
Proof. done. Qed.

(** One iteration of the inner loop of [getNeighborCells], away from the
    centre. *)
Lemma neighbor_step (b : Board) (l nl : Location) (retval : list ptr) :
  grid_ok b → l ≠ nl →
  (if decide (l = nl) then Done retval
   else neighbor ← getCell b nl;
        match neighbor with
        | None => Done retval
        | Some n => Done (retval ++ [n])
        end)
  = Done (retval ++ (slotOf <$> filter (onBoard b) [nl])).
Proof.
  intros Hg Hne. rewrite decide_False by done.
  rewrite getCell_ok by done. rewrite filter_cons, filter_nil.
  destruct (decide (onBoard b nl)); simpl; [done|by rewrite app_nil_r].
Qed.

Lemma neighbor_step_centre (b : Board) (l : Location) (retval : list ptr) :
  (if decide (l = l) then Done retval
   else neighbor ← getCell b l;
        match neighbor with
        | None => Done retval
        | Some n => Done (retval ++ [n])
        end)
  = Done retval.
Proof. by rewrite decide_True. Qed.

Lemma filter_fmap_split {A B : Type} (f : A → B) (P : A → Prop)
    `{∀ x, Decision (P x)} (x y : A) (l : list A) :
  f <$> filter P (x :: y :: l)
  = (f <$> filter P [x]) ++ (f <$> filter P (y :: l)).
Proof.
  change (x :: y :: l) with ([x] ++ y :: l). by rewrite filter_app, fmap_app.
Qed.

Lemma getNeighborCells_ok (b : Board) (l : Location) :
  grid_ok b → onBoard b l →
  getNeighborCells b l = Done (Some (neighborSlots b l)).
Proof.
  intros Hg Hl. unfold getNeighborCells, neighborSlots, neighborLocs, around.
  rewrite getCell_ok by done. rewrite decide_True by done.
  rewrite bind_Done_l.
  assert (Hb : 0 ≤ row l < 2 ^ 31 ∧ 0 ≤ col l < 2 ^ 31).
  { destruct Hg, Hl. lia. }
  unfold intSub, intAdd.
  rewrite !wrap_small by (unfold minInt, maxInt; lia).
  destruct l as [r c]; cbn [row col] in *.
  cbn [forM].
  repeat first
    [ rewrite neighbor_step_centre
    | rewrite neighbor_step by (done || (intros ?; simplify_eq; lia))
    | rewrite bind_Done_l ].
  rewrite !filter_fmap_split. rewrite app_nil_l, <- !app_assoc. done.
Qed.

(** ** Neighbourhoods *)

Lemma elem_of_neighborLocs (l nl : Location) :
  nl ∈ neighborLocs l ↔ adjacent l nl.
Proof.
  destruct l as [r c], nl as [r' c']. unfold neighborLocs, adjacent; simpl.
  rewrite !elem_of_cons, elem_of_nil. split.
  - intros H. destruct_or!; simplify_eq;
      (split; [intros ?; simplify_eq; lia|lia]).
  - intros (Hne & Hr & Hc).
    assert (r' = r - 1 ∨ r' = r ∨ r' = r + 1) as Hr' by lia.
    assert (c' = c - 1 ∨ c' = c ∨ c' = c + 1) as Hc' by lia.
    destruct_or!; subst; try done; auto 10.
Qed.

Lemma elem_of_neighborSlots (b : Board) (l : Location) (q : ptr) :
  q ∈ neighborSlots b l ↔ onBoard b (locOf q) ∧ adjacent l (locOf q).
Proof.
  unfold neighborSlots. rewrite list_elem_of_fmap. split.
  - intros (nl & -> & Hnl). apply list_elem_of_filter in Hnl as [Hon Hadj].
    apply elem_of_neighborLocs in Hadj.
    destruct Hon as [? ?]. by rewrite locOf_slotOf by lia.
  - intros [Hon Hadj]. exists (locOf q). rewrite slotOf_locOf. split; [done|].
    apply list_elem_of_filter. by rewrite elem_of_neighborLocs.
Qed.

Lemma neighborSlots_frame (b b' : Board) (l : Location) :
  rows b' = rows b → cols b' = cols b →
  neighborSlots b' l = neighborSlots b l.
Proof.
  intros Hr Hc. unfold neighborSlots. f_equal.
  apply list_filter_iff. intros nl. unfold onBoard. by rewrite Hr, Hc.
Qed.

Lemma length_neighborSlots (b : Board) (l : Location) :
  (length (neighborSlots b l) ≤ 8)%nat.
Proof.
  unfold neighborSlots. rewrite length_fmap.
  etrans; [apply length_filter|done].
Qed.

(** ** The slots a grid scan visits *)

Lemma elem_of_gridSlots (cs : list (list cell)) (p : ptr) :
  p ∈ gridSlots cs ↔ is_Some (slot cs p).
Proof.
  unfold gridSlots, slot. rewrite list_elem_of_bind. split.
  - intros (r & Hp & Hr). apply list_elem_of_bind in Hp as (c & Hp & Hc).
    apply list_elem_of_singleton in Hp as ->. simpl.
    apply elem_of_seq in Hr, Hc.
    destruct (lookup_lt_is_Some_2 cs r) as [line Hline]; [lia|].
    rewrite Hline in Hc |- *. simpl in *. apply lookup_lt_is_Some_2. lia.
  - intros [c Hc]. destruct p as [r k]; simpl in *.
    destruct (cs !! r) as [line|] eqn:Hline; [|done]. simpl in Hc.
    exists r. split.
    + apply list_elem_of_bind. exists k. split; [by apply list_elem_of_singleton|].
      rewrite Hline. simpl. apply elem_of_seq.
      apply lookup_lt_Some in Hc. lia.
    + apply elem_of_seq. apply lookup_lt_Some in Hline. lia.
Qed.

Lemma NoDup_gridSlots (cs : list (list cell)) : NoDup (gridSlots cs).
Proof.
  unfold gridSlots. apply NoDup_bind; [| |apply NoDup_seq].
  - intros r1 r2 p _ _ H1 H2.
    apply list_elem_of_bind in H1 as (c1 & H1 & _).
    apply list_elem_of_bind in H2 as (c2 & H2 & _).
    apply list_elem_of_singleton in H1, H2. congruence.
  - intros r _. apply NoDup_bind; [| |apply NoDup_seq].
    + intros c1 c2 p _ _ H1 H2.
      apply list_elem_of_singleton in H1, H2. congruence.
    + intros c _. apply NoDup_singleton.
Qed.

(** ** Fresh grids *)

Lemma slot_fresh (nr nc : nat) (p : ptr) :
  slot ((λ r, newCell r <$> seq 0 nc) <$> seq 0 nr) p
  = if decide (p.1 < nr ∧ p.2 < nc)%nat then Some (newCell p.1 p.2) else None.
Proof.
  unfold slot. rewrite list_lookup_fmap.
  destruct (decide (p.1 < nr)%nat) as [Hr|Hr].
  - rewrite lookup_seq_lt by done. simpl. rewrite list_lookup_fmap.
    destruct (decide (p.2 < nc)%nat) as [Hc|Hc].
    + rewrite lookup_seq_lt by done. simpl. by rewrite decide_True.
    + rewrite lookup_seq_ge by lia. simpl. rewrite decide_False; [done|lia].
  - rewrite lookup_seq_ge by lia. simpl. rewrite decide_False; [done|lia].
Qed.

Lemma makeCells_ok (b : Board) :
  0 ≤ rows b ≤ 2 ^ 31 → 0 ≤ cols b ≤ 2 ^ 31 →
  ∃ cs, makeCells b = Done cs
        ∧ grid_ok (set_cells cs b)
        ∧ ∀ p c, slot cs p = Some c → c = newCell p.1 p.2.
Proof.
  intros Hr Hc. unfold makeCells.
  rewrite bool_decide_eq_false_2 by lia.
  rewrite bool_decide_eq_false_2 by lia.
  eexists; split; [done|]. split.
  - constructor; simpl; try done.
    + by rewrite length_fmap, length_seq.
    + intros r line Hline. rewrite list_lookup_fmap in Hline.
      destruct (seq 0 (Z.to_nat (rows b)) !! r); simplify_eq/=.
      by rewrite length_fmap, length_seq.
    + intros p c Hp. rewrite slot_fresh in Hp. by case_decide; simplify_eq.
  - intros p c Hp. rewrite slot_fresh in Hp. by case_decide; simplify_eq.
Qed.

Lemma grid_ok_ext (b b' : Board) :
  rows b' = rows b → cols b' = cols b → cells b' = cells b →
  grid_ok b → grid_ok b'.
Proof.
  intros Hr Hc Hcs [? ? ? ? ?]. constructor; rewrite ?Hr, ?Hc, ?Hcs; done.
Qed.

Lemma grid_ok_alter (f : cell → cell) (b : Board) (p : ptr) :
  (∀ c, location (f c) = location c) →
  grid_ok b → grid_ok (set_cells (alter (alter f p.2) p.1 (cells b)) b).
Proof.
  intros Hf Hg. constructor; simpl; try apply Hg.
  - rewrite length_alter. apply Hg.
  - intros r line Hline. rewrite list_lookup_alter in Hline.
    case_decide; subst.
    + destruct (cells b !! p.1) as [line0|] eqn:H0; simplify_eq/=.
      rewrite length_alter. by eapply grid_lines.
    + by eapply grid_lines.
  - intros q c Hq. rewrite slot_alter in Hq. case_decide; subst.
    + destruct (slot (cells b) q) as [c0|] eqn:H0; simplify_eq/=.
      rewrite Hf. by eapply grid_locs.
    + by eapply grid_locs.
Qed.

(** ** Mine placement *)

Section PlacementProofs.
Variable draws : nat → Z.
Variable safespot : Location.
Variable b0 : Board.
Hypothesis Hmines : 0 ≤ mineCount b0 ≤ 2 ^ 31.

Lemma placeAt_inv (st st' : placing) (p : ptr) :
  place_inv b0 safespot st →
  is_Some (slot (cells (pl_board st)) p) →
  placeAt draws safespot st p = Done st' →
  place_inv b0 safespot st'.
Proof.
  intros Hinv [cl Hcl] Hrun. unfold placeAt in Hrun.
  case_bool_decide as Hleft; [by inv_done|].
  case_decide as Hsafe; [by inv_done|].
  case_bool_decide as Hshot;
    [|inv_done; destruct Hinv; by constructor].
  pose proof (pi_grid _ _ _ Hinv) as Hg.
  rewrite getCell_ok in Hrun by done.
  rewrite decide_True in Hrun
    by (apply grid_slot_onBoard; [done|by eexists]).
  rewrite bind_Done_l, slotOf_locOf in Hrun.
  apply bind_Done in Hrun as (cl' & Hload & Hrun).
  apply load_Done in Hload. rewrite Hcl in Hload. simplify_eq.
  destruct (hasMine cl') eqn:Hmine;
    [inv_done; destruct Hinv; by constructor|].
  apply bind_Done in Hrun as (b1 & Hpoke & Hrun).
  apply poke_Done in Hpoke as [_ ->]. inv_done.
  assert (Hcount : minesOn
    (set_cells (alter (alter (set_hasMine true) p.2) p.1
                      (cells (pl_board st))) (pl_board st))
    = minesOn (pl_board st) + 1).
  { unfold minesOn; simpl.
    pose proof (countCells_alter hasMine (set_hasMine true) _ p cl' Hcl)
      as Hc.
    rewrite Hmine in Hc. simpl in Hc. lia. }
  destruct Hinv as [Hg' Hr Hc Hm Hl Hp Hs Hcs].
  pose proof (Hcs _ _ Hcl) as (Hsc & Hfl & Hrv & _).
  assert (0 ≤ minesOn (pl_board st)) by (unfold minesOn; lia).
  assert (Hsr : minInt ≤ safeRemaining (pl_board st) - 1 ≤ maxInt).
  { assert (0 ≤ rows b0 * cols b0 ≤ 2 ^ 31 * 2 ^ 31).
    { destruct Hg'. rewrite <- Hr, <- Hc. nia. }
    unfold minInt, maxInt. lia. }
  unfold intSub. rewrite !wrap_small by (unfold minInt, maxInt in *; lia).
  constructor; simpl.
  - eapply grid_ok_ext;
      [| | |by apply (grid_ok_alter (set_hasMine true) (pl_board st) p)];
      done.
  - done.
  - done.
  - done.
  - lia.
  - unfold minesOn in *. simpl in *. lia.
  - unfold minesOn in *. simpl in *. lia.
  - intros q c Hq. rewrite slot_alter in Hq. case_decide; subst.
    + rewrite Hcl in Hq. simplify_eq/=. done.
    + by apply Hcs.
Qed.

Lemma place_scan_inv (st st' : placing) :
  place_inv b0 safespot st →
  forM (placeAt draws safespot) (gridSlots (cells (pl_board st))) st
    = Done st' →
  place_inv b0 safespot st'.
Proof.
  intros Hinv Hrun.
  apply (forM_invariant _ (λ _ s, place_inv b0 safespot s) _ _ Hinv)
    in Hrun; [done|].
  intros done p todo s1 s2 Hl Hs1 Hstep.
  eapply placeAt_inv; [exact Hs1| |exact Hstep].
  assert (p ∈ gridSlots (cells (pl_board st))) as Hp.
  { rewrite Hl. apply elem_of_app. right. by left. }
  apply elem_of_gridSlots in Hp.
  apply grid_slot_is_Some; [by destruct Hs1|].
  apply grid_slot_is_Some in Hp; [|by destruct Hinv].
  destruct Hs1, Hinv. congruence.
Qed.

Lemma placeMines_inv (fuel : nat) (st st' : placing) :
  place_inv b0 safespot st →
  placeMines draws safespot fuel st = Done st' →
  place_inv b0 safespot st' ∧ pl_minesToPlace st' = 0.
Proof.
  revert st; induction fuel as [|fuel IH]; intros st Hinv Hrun; simpl in Hrun.
  - case_bool_decide; [done|]. inv_done. split; [done|].
    destruct Hinv. lia.
  - case_bool_decide.
    + inv_done. eapply IH; [|done]. by eapply place_scan_inv.
    + inv_done. split; [done|]. destruct Hinv. lia.
Qed.
End PlacementProofs.

(** ** Scores *)

Lemma mooreMines_bounds (b : Board) (l : Location) : 0 ≤ mooreMines b l ≤ 8.
Proof.
  unfold mooreMines.
  pose proof (length_filter (λ nl, Is_true (mineAt b nl)) (neighborLocs l)) as H.
  simpl in H. lia.
Qed.

Lemma mooreMines_ext (b b' : Board) (l : Location) :
  (∀ nl, mineAt b' nl = mineAt b nl) → mooreMines b' l = mooreMines b l.
Proof.
  intros H. unfold mooreMines. do 2 f_equal.
  apply list_filter_iff. intros nl. by rewrite H.
Qed.

Lemma count_loop (b : Board) (locs : list Location) (acc : Z) :
  grid_ok b → 0 ≤ acc → acc + Z.of_nat (length locs) ≤ maxInt →
  forM (λ cellScore neighbor,
          n ← load b neighbor;
          Done (if hasMine n then intAdd cellScore 1 else cellScore))
       (slotOf <$> filter (onBoard b) locs) acc
  = Done (acc + Z.of_nat (length (filter (λ nl, Is_true (mineAt b nl)) locs))).
Proof.
  intros Hg. revert acc; induction locs as [|nl locs IH]; intros acc H0 Hmax.
  - simpl. f_equal. lia.
  - rewrite !filter_cons. simpl in Hmax.
    destruct (decide (onBoard b nl)) as [Hon|Hoff].
    + destruct (proj2 (cellAt_is_Some b nl Hg) Hon) as [c Hc].
      pose proof Hc as Hc'. apply cellAt_slot in Hc' as [Hslot _].
      rewrite fmap_cons. cbn [forM].
      rewrite (proj2 (load_Done b (slotOf nl) c) Hslot), !bind_Done_l.
      assert (mineAt b nl = hasMine c) as Hm by (unfold mineAt; by rewrite Hc).
      destruct (mineAt b nl), (hasMine c); try done; simpl.
      * unfold intAdd. rewrite wrap_small by (unfold minInt, maxInt in *; lia).
        rewrite IH by lia. f_equal. lia.
      * rewrite IH by lia. done.
    + assert (mineAt b nl = false) as Hm.
      { unfold mineAt, cellAt. by rewrite decide_False. }
      destruct (mineAt b nl); [done|]. simpl. apply IH; lia.
Qed.

Lemma scoreAt_ok (b : Board) (p : ptr) :
  grid_ok b → is_Some (slot (cells b) p) →
  scoreAt b p
  = Done (set_cells
            (alter (alter (set_score (mooreMines b (locOf p))) p.2) p.1
                   (cells b)) b).
Proof.
  intros Hg Hp. unfold scoreAt.
  assert (onBoard b (locOf p)) as Hon by by apply grid_slot_onBoard.
  rewrite getCell_ok, decide_True by done. rewrite bind_Done_l.
  rewrite getNeighborCells_ok by done. rewrite bind_Done_l.
  unfold rangeOf, neighborSlots; simpl default.
  rewrite count_loop; [|done|done|simpl; unfold maxInt; lia].
  rewrite bind_Done_l, slotOf_locOf. unfold poke.
  destruct Hp as [c ->]. by rewrite Z.add_0_l.
Qed.

Lemma fields_rows (b b' : Board) :
  set_cells [] b' = set_cells [] b → rows b' = rows b ∧ cols b' = cols b.
Proof. intros H. split; [apply (f_equal rows) in H|apply (f_equal cols) in H]; done. Qed.

Lemma scoring_mineAt (b b' : Board) (done : list ptr) (l : Location) :
  grid_ok b → scoring b done b' → mineAt b' l = mineAt b l.
Proof.
  intros Hg [Hg' Hf _ Hcs]. apply fields_rows in Hf as [Hr Hc].
  unfold mineAt, cellAt.
  destruct (decide (onBoard b l)) as [Hon|Hoff].
  - rewrite decide_True by (unfold onBoard in *; by rewrite Hr, Hc).
    destruct (proj2 (cellAt_is_Some b l Hg) Hon) as [c Hcell].
    apply cellAt_slot in Hcell as [Hslot _]. rewrite Hslot.
    destruct (Hcs _ _ Hslot) as (c' & -> & -> & _). done.
  - rewrite decide_False by (unfold onBoard in *; by rewrite Hr, Hc). done.
Qed.

Lemma initializeScores_ok (b b' : Board) :
  grid_ok b → initializeScores b = Done b' →
  scoring b (gridSlots (cells b)) b'.
Proof.
  intros Hg Hrun. unfold initializeScores in Hrun.
  apply (forM_invariant _ (scoring b)) in Hrun; [done| |].
  { constructor; [done|done|done|]. intros p c Hp. exists c.
    split_and!; [done|by destruct c|]. by intros ?%elem_of_nil. }
  clear b' Hrun. intros done x todo b1 b2 Hl Hinv Hstep.
  assert (is_Some (slot (cells b) x)) as [cx Hx].
  { apply elem_of_gridSlots. rewrite Hl. set_solver. }
  pose proof Hinv as [Hg1 Hf Hmines Hcs].
  destruct (Hcs _ _ Hx) as (cx' & Hx' & Hcx' & _).
  rewrite scoreAt_ok in Hstep by (done || by eexists).
  inv_done.
  rewrite (mooreMines_ext b b1)
    by (intros nl; by eapply scoring_mineAt).
  constructor.
  - by apply (grid_ok_alter _ b1 x).
  - done.
  - rewrite <- Hmines. unfold minesOn; simpl.
    pose proof (countCells_alter hasMine (set_score (mooreMines b (locOf x)))
                  _ x cx' Hx') as Hcount.
    simpl in Hcount. lia.
  - intros p c Hp. simpl. rewrite slot_alter.
    destruct (Hcs _ _ Hp) as (c' & Hp' & Hc' & Hdone).
    case_decide as Hpx; subst.
    + rewrite Hp'. simpl. eexists; split; [done|]. simpl.
      split; [|done]. rewrite Hc'. by destruct c.
    + eexists; split; [done|]. split; [done|].
      intros [?|?%list_elem_of_singleton]%elem_of_app; [auto|done].
Qed.

Lemma elem_of_concat_slot (cs : list (list cell)) (c : cell) :
  c ∈ concat cs ↔ ∃ p, slot cs p = Some c.
Proof.
  rewrite list_elem_of_In, in_concat. split.
  - intros (line & Hline%list_elem_of_In & Hc%list_elem_of_In).
    apply list_elem_of_lookup in Hc as [k Hk].
    apply list_elem_of_lookup in Hline as [r Hr].
    exists (r, k). unfold slot; simpl. by rewrite Hr.
  - intros [[r k] Hp]. unfold slot in Hp; simpl in Hp.
    destruct (cs !! r) as [line|] eqn:Hr; simplify_eq/=.
    exists line. split; apply list_elem_of_In, list_elem_of_lookup; eauto.
Qed.

Lemma countCells_none (P : cell → bool) (cs : list (list cell)) :
  (∀ p c, slot cs p = Some c → P c = false) → countCells P cs = 0%nat.
Proof.
  intros H. unfold countCells. apply length_zero_iff_nil, elem_of_nil_inv.
  intros c [Hc Hin]%list_elem_of_filter.
  apply elem_of_concat_slot in Hin as [p Hp].
  rewrite (H _ _ Hp) in Hc. done.
Qed.

(** ** Initialize *)

Lemma Initialize_spec (fuel : nat) (draws : nat → Z) (b b' : Board)
    (safespot : Location) :
  params_ok b →
  Initialize fuel draws b safespot = Done b' →
  grid_ok b'
  ∧ rows b' = rows b ∧ cols b' = cols b ∧ mineCount b' = mineCount b
  ∧ initialized b' = true
  ∧ minesOn b' = mineCount b
  ∧ safeRemaining b' = rows b * cols b - mineCount b
  ∧ ∀ p c, slot (cells b') p = Some c →
      score c = mooreMines b' (locOf p)
      ∧ flagged c = false ∧ revealed c = false
      ∧ (locOf p = safespot → hasMine c = false).
Proof.
  intros (Hr & Hc & Hm) Hrun. unfold Initialize in Hrun.
  destruct (makeCells_ok b Hr Hc) as (cs & Hcs & Hg0 & Hfresh).
  rewrite Hcs, bind_Done_l in Hrun.
  apply bind_Done in Hrun as (st & Hplace & Hrun).
  apply bind_Done in Hrun as (b2 & Hscore & Hrun). inv_done.
  assert (Hinv0 : place_inv b safespot
            (mkPlacing (set_safeRemaining (intMul (rows b) (cols b))
                          (set_cells cs b)) (mineCount b) 0)).
  { assert (minesOn (set_cells cs b) = 0) as Hzero.
    { unfold minesOn; simpl. rewrite countCells_none; [done|].
      intros p c Hp. by rewrite (Hfresh _ _ Hp). }
    unfold minesOn in Hzero; simpl in Hzero.
    constructor; simpl; try done.
    - by eapply grid_ok_ext; [| | |exact Hg0].
    - lia.
    - unfold minesOn; simpl. lia.
    - unfold minesOn, intMul; simpl.
      rewrite wrap_small by (unfold minInt, maxInt; nia). lia.
    - intros p c Hp. by rewrite (Hfresh _ _ Hp). }
  simpl in Hplace.
  apply (placeMines_inv draws safespot b Hm) in Hplace as [Hinv Hleft];
    [|exact Hinv0].
  destruct Hinv as [Hg1 Hr1 Hc1 Hm1 _ Hplaced Hsafe Hcells].
  apply initializeScores_ok in Hscore as Hsc; [|done].
  pose proof Hsc as [Hg2 Hf2 Hmines2 Hcs2].
  pose proof (fields_rows _ _ Hf2) as [Hr2 Hc2].
  split_and!.
  - by eapply grid_ok_ext; [| | |exact Hg2].
  - simpl. congruence.
  - simpl. congruence.
  - simpl. apply (f_equal mineCount) in Hf2. simpl in Hf2. congruence.
  - done.
  - unfold minesOn in *. simpl. lia.
  - simpl. apply (f_equal safeRemaining) in Hf2. simpl in Hf2.
    unfold minesOn in *. lia.
  - intros p c' Hp. simpl in Hp.
    assert (is_Some (slot (cells (pl_board st)) p)) as [c Hc0].
    { apply grid_slot_is_Some; [done|].
      rewrite <- Hr2, <- Hc2. apply grid_slot_is_Some; [done|by eexists]. }
    destruct (Hcs2 _ _ Hc0) as (c2 & Hp2 & Hc2' & Hscore2).
    rewrite Hp in Hp2. simplify_eq.
    destruct (Hcells _ _ Hc0) as (_ & Hfl & Hrv & Hsafe').
    split_and!.
    + rewrite Hscore2 by (apply elem_of_gridSlots; by eexists).
      symmetry. etrans; [|apply (mooreMines_ext (pl_board st) b2)].
      * by apply mooreMines_ext.
      * intros nl. by eapply scoring_mineAt.
    + by rewrite Hc2'.
    + by rewrite Hc2'.
    + intros Hs. rewrite Hc2'. simpl. auto.
Qed.

(** ** Whether the placement finishes

    The number of scans depends on the random source alone.  With a source
    that never hits, the loop [for minesToPlace > 0] never ends; with a
    source that always hits, one scan places every mine as soon as the
    grid has a cell to spare for the safe location. *)

Lemma placeAt_no_hit (draws : nat → Z) (safespot : Location) :
  (∀ k, 2 ≤ draws k) →
  ∀ p b m k, ∃ k',
    placeAt draws safespot (mkPlacing b m k) p = Done (mkPlacing b m k').
Proof.
  intros Hmiss p b m k. unfold placeAt.
  cbn [pl_board pl_minesToPlace pl_drawn].
  case_bool_decide; [by eexists|]. case_decide; [by eexists|].
  rewrite bool_decide_eq_false_2 by (specialize (Hmiss k); lia).
  by eexists.
Qed.

Lemma scan_no_hit (draws : nat → Z) (safespot : Location) :
  (∀ k, 2 ≤ draws k) →
  ∀ ps b m k, ∃ k',
    forM (placeAt draws safespot) ps (mkPlacing b m k)
    = Done (mkPlacing b m k').
Proof.
  intros Hmiss. induction ps as [|p ps IH]; intros b m k; [by exists k|].
  cbn [forM].
  destruct (placeAt_no_hit draws safespot Hmiss p b m k) as [k1 ->].
  rewrite bind_Done_l. apply IH.
Qed.

Lemma placeMines_no_hit (draws : nat → Z) (safespot : Location) :
  (∀ k, 2 ≤ draws k) →
  ∀ fuel b m k, 0 < m →
    placeMines draws safespot fuel (mkPlacing b m k) = OutOfFuel.
Proof.
  intros Hmiss. induction fuel as [|fuel IH]; intros b m k Hm; simpl.
  - by rewrite bool_decide_eq_true_2 by lia.
  - rewrite bool_decide_eq_true_2 by lia.
    destruct (scan_no_hit draws safespot Hmiss (gridSlots (cells b)) b m k)
      as [k' ->].
    rewrite bind_Done_l. by apply IH.
Qed.

Lemma length_bind_const {A B : Type} (f : A → list B) (l : list A) (k : nat) :
  (∀ x, x ∈ l → length (f x) = k) → length (l ≫= f) = (length l * k)%nat.
Proof.
  induction l as [|x l IH]; intros Hf; [done|].
  rewrite bind_cons, length_app, Hf by left. simpl.
  rewrite IH; [done|]. intros y Hy. apply Hf. by right.
Qed.

Lemma length_gridSlots (b : Board) :
  grid_ok b →
  length (gridSlots (cells b)) = (Z.to_nat (rows b) * Z.to_nat (cols b))%nat.
Proof.
  intros Hg. unfold gridSlots.
  rewrite (length_bind_const _ _ (Z.to_nat (cols b))).
  - by rewrite length_seq, (grid_length b Hg).
  - intros r Hr%elem_of_seq.
    destruct (lookup_lt_is_Some_2 (cells b) r) as [line Hline]; [lia|].
    rewrite Hline. simpl.
    rewrite (length_bind_const _ _ 1%nat) by done.
    rewrite length_seq, (grid_lines b Hg _ _ Hline). lia.
Qed.

Lemma length_filter_ne {A B : Type} `{EqDecision B} (f : A → B) (a : B)
    (l : list A) :
  (∀ x y, f x = f y → x = y) → NoDup l →
  (length l ≤ length (filter (λ x, f x ≠ a) l) + 1)%nat.
Proof.
  intros Hinj. induction 1 as [|x l Hx Hnd IH]; [simpl; lia|].
  rewrite filter_cons. case_decide as Hfx; simpl; [lia|].
  assert (filter (λ x, f x ≠ a) l = l) as ->; [|lia].
  assert (f x = a) as Hxa by (destruct (decide (f x = a)); [done|by elim Hfx]).
  clear IH Hnd Hfx. induction l as [|y l IH]; [done|].
  rewrite filter_cons. rewrite decide_True.
  - f_equal. apply IH. intros Hin. apply Hx. by right.
  - intros Hya. apply Hx. rewrite (Hinj x y) by congruence. by left.
Qed.

Lemma locOf_inj (p q : ptr) : locOf p = locOf q → p = q.
Proof.
  destruct p, q. unfold locOf; simpl. intros [= ? ?]. f_equal; lia.
Qed.

Lemma placeAt_eq (draws : nat → Z) (safespot : Location) (st : placing)
    (p : ptr) (cl : cell) :
  grid_ok (pl_board st) → slot (cells (pl_board st)) p = Some cl →
  placeAt draws safespot st p
  = if bool_decide (pl_minesToPlace st = 0) then Done st
    else if decide (locOf p = safespot) then Done st
    else if bool_decide (draws (pl_drawn st) < 2) then
      if hasMine cl
      then Done (mkPlacing (pl_board st) (pl_minesToPlace st)
                           (S (pl_drawn st)))
      else
        let b := set_cells (alter (alter (set_hasMine true) p.2) p.1
                                  (cells (pl_board st))) (pl_board st) in
        let b := set_mines (mines b ++ [locOf p]) b in
        let b := set_safeRemaining (intSub (safeRemaining b) 1) b in
        Done (mkPlacing b (intSub (pl_minesToPlace st) 1) (S (pl_drawn st)))
    else Done (mkPlacing (pl_board st) (pl_minesToPlace st)
                         (S (pl_drawn st))).
Proof.
  intros Hg Hcl. unfold placeAt.
  case_bool_decide; [done|]. case_decide; [done|].
  case_bool_decide; [|done].
  rewrite getCell_ok by done.
  rewrite decide_True by (apply grid_slot_onBoard; [done|by eexists]).
  rewrite bind_Done_l, slotOf_locOf.
  rewrite (proj2 (load_Done _ _ _) Hcl), bind_Done_l.
  destruct (hasMine cl); [done|]. unfold poke. by rewrite Hcl.
Qed.

Lemma placeAt_all_hit (draws : nat → Z) (safespot : Location) (b0 : Board)
    (m0 : Z) (p : ptr) (done : list ptr) (st : placing) :
  0 ≤ mineCount b0 ≤ 2 ^ 31 → (∀ k, draws k < 2) →
  p ∉ done → is_Some (slot (cells (pl_board st)) p) →
  hit_scan b0 safespot m0 done st →
  ∃ st1, placeAt draws safespot st p = Done st1
         ∧ hit_scan b0 safespot m0 (done ++ [p]) st1.
Proof.
  intros Hmines Hhit Hp [cl Hcl] (Hinv & Hfree & Hleft).
  assert (∀ q, q ∉ done ++ [p] → q ∉ done) as Hsub.
  { intros q Hq Hin. apply Hq. apply elem_of_app. by left. }
  assert (∃ st1, placeAt draws safespot st p = Done st1) as [st1 Hstep].
  { rewrite (placeAt_eq _ _ _ _ cl) by (done || apply Hinv).
    case_bool_decide; [by eexists|]. case_decide; [by eexists|].
    case_bool_decide; [|by eexists]. destruct (hasMine cl); by eexists. }
  exists st1. split; [done|].
  pose proof (placeAt_inv draws safespot b0 Hmines st st1 p Hinv
                ltac:(by eexists) Hstep) as Hinv1.
  rewrite (placeAt_eq _ _ _ _ cl) in Hstep by (done || apply Hinv).
  unfold hit_scan.
  rewrite filter_app, length_app, filter_cons, filter_nil.
  case_bool_decide as Hzero.
  { inv_done. split_and!; [done|by eauto|].
    rewrite Hleft in Hzero |- *. case_decide; simpl; lia. }
  case_decide as Hsafe.
  { inv_done. split_and!; [done|by eauto|].
    rewrite decide_False by (by intros ?). simpl.
    rewrite Hleft. f_equal. lia. }
  rewrite bool_decide_eq_true_2 in Hstep by apply Hhit.
  rewrite (Hfree p cl Hp Hcl) in Hstep. cbn zeta in Hstep. inv_done.
  split_and!; [done| |].
  - intros q c Hq. cbn [pl_board cells set_cells set_mines set_safeRemaining].
    rewrite slot_alter_ne; [by eauto|].
    intros ->. apply Hq. apply elem_of_app. right. by left.
  - cbn [pl_minesToPlace]. rewrite decide_True by done. simpl.
    assert (0 ≤ pl_minesToPlace st ≤ 2 ^ 31) as Hb.
    { pose proof (pi_left _ _ _ Hinv). pose proof (pi_placed _ _ _ Hinv).
      unfold minesOn in *. lia. }
    unfold intSub. rewrite wrap_small by (unfold minInt, maxInt; lia).
    lia.
Qed.

Lemma scan_all_hit (draws : nat → Z) (safespot : Location) (b0 : Board)
    (m0 : Z) :
  0 ≤ mineCount b0 ≤ 2 ^ 31 → (∀ k, draws k < 2) →
  ∀ todo done st,
    NoDup (done ++ todo) →
    (∀ p, p ∈ todo → is_Some (slot (cells (pl_board st)) p)) →
    hit_scan b0 safespot m0 done st →
    ∃ st', forM (placeAt draws safespot) todo st = Done st'
           ∧ hit_scan b0 safespot m0 (done ++ todo) st'.
Proof.
  intros Hmines Hhit.
  induction todo as [|p todo IH]; intros done st Hnd Hvalid Hst.
  { exists st. by rewrite app_nil_r. }
  assert (NoDup ((done ++ [p]) ++ todo)) as Hnd'
    by by rewrite <- app_assoc.
  assert (p ∉ done) as Hp.
  { apply NoDup_app in Hnd as (_ & Hdisj & _). intros Hin.
    apply (Hdisj p Hin). by left. }
  destruct (placeAt_all_hit draws safespot b0 m0 p done st)
    as (st1 & Hstep & Hst1); [done|done|done|apply Hvalid; by left|done|].
  destruct (IH (done ++ [p]) st1) as (st' & Hrest & Hst'); [done| |done|].
  { intros q Hq. destruct Hst1 as (Hinv1 & _). destruct Hst as (Hinv & _).
    apply grid_slot_is_Some; [apply Hinv1|].
    rewrite (pi_rows _ _ _ Hinv1), (pi_cols _ _ _ Hinv1).
    rewrite <- (pi_rows _ _ _ Hinv), <- (pi_cols _ _ _ Hinv).
    apply grid_slot_is_Some; [apply Hinv|]. apply Hvalid. by right. }
  exists st'. cbn [forM]. rewrite Hstep, bind_Done_l.
  split; [done|]. by rewrite <- app_assoc in Hst'.
Qed.

Lemma initializeScores_total (b : Board) :
  grid_ok b → ∃ b', initializeScores b = Done b'.
Proof.
  intros Hg. unfold initializeScores.
  destruct (forM_total scoreAt
              (λ b1, grid_ok b1 ∧ rows b1 = rows b ∧ cols b1 = cols b)
              (gridSlots (cells b)) b) as (b' & Hrun & _); [done| |by eauto].
  intros p b1 Hp%elem_of_gridSlots (Hg1 & Hr & Hc).
  assert (is_Some (slot (cells b1) p)) as Hp1.
  { apply grid_slot_is_Some; [done|]. rewrite Hr, Hc.
    by apply grid_slot_is_Some. }
  rewrite scoreAt_ok by done. eexists. split; [done|].
  split; [|done]. by apply (grid_ok_alter _ b1 p).
Qed.

Lemma Initialize_all_hit (draws : nat → Z) (b : Board) (safespot : Location) :
  params_ok b → 0 < mineCount b < rows b * cols b → (∀ k, draws k < 2) →
  ∃ b', Initialize 1 draws b safespot = Done b'.
Proof.
  intros (Hr & Hc & Hm) Hroom Hhit. unfold Initialize.
  destruct (makeCells_ok b Hr Hc) as (cs & -> & Hg0 & Hfresh).
  rewrite bind_Done_l. set (b1 := set_safeRemaining _ _).
  assert (grid_ok b1) as Hg1 by by eapply grid_ok_ext; [| | |exact Hg0].
  assert (hit_scan b safespot (mineCount b) [] (mkPlacing b1 (mineCount b) 0))
    as Hstart.
  { assert (countCells hasMine cs = 0%nat) as Hzero.
    { apply countCells_none. intros p c Hp. by rewrite (Hfresh _ _ Hp). }
    split_and!.
    - constructor; simpl; try done.
      + lia.
      + unfold minesOn; simpl. lia.
      + unfold minesOn, intMul; simpl.
        rewrite wrap_small by (unfold minInt, maxInt; nia). lia.
      + intros p c Hp. by rewrite (Hfresh _ _ Hp).
    - intros p c _ Hp. simpl in Hp. by rewrite (Hfresh _ _ Hp).
    - simpl. lia. }
  destruct (scan_all_hit draws safespot b (mineCount b) Hm Hhit
              (gridSlots (cells b1)) [] (mkPlacing b1 (mineCount b) 0))
    as (st & Hscan & Hinv & _ & Hleft); [apply NoDup_gridSlots| |done|].
  { intros p Hp. by apply elem_of_gridSlots. }
  simpl in Hleft.
  assert (pl_minesToPlace st = 0) as Hdone.
  { pose proof (length_filter_ne locOf safespot (gridSlots (cells b1))
                  locOf_inj (NoDup_gridSlots _)) as Hlen.
    rewrite (length_gridSlots b1 Hg1) in Hlen.
    assert (rows b1 = rows b ∧ cols b1 = cols b) as [Hr1 Hc1] by done.
    rewrite Hr1, Hc1 in Hlen.
    assert (Z.of_nat (Z.to_nat (rows b) * Z.to_nat (cols b))
            = rows b * cols b) as Hprod by lia.
    change (cells b1) with cs in Hlen. lia. }
  cbn [placeMines pl_minesToPlace pl_board].
  change (mineCount b1) with (mineCount b).
  rewrite bool_decide_eq_true_2 by lia.
  rewrite Hscan, bind_Done_l.
  rewrite bool_decide_eq_false_2 by lia. rewrite bind_Done_l.
  destruct (initializeScores_total (pl_board st)) as [b2 ->];
    [apply Hinv|].
  rewrite bind_Done_l. by eexists.
Qed.

(** ** Construction *)

(** C8. [NewBoard] returns a board exactly for the names "easy", "medium"
    and "hard", with the dimensions and mine counts of the preset table
    (9x9 with 10 mines, 16x16 with 30, 30x16 with 72), and returns no
    board for any other name. *)
Theorem NewBoard_presets (name : string) :
  NewBoard name = blankBoard name <$> presetTable name.
Proof.
  unfold NewBoard, presetTable, boardDefinitionsDict.
  destruct (decide (name = "easy")) as [->|He]; [done|].
  rewrite lookup_insert_ne by done.
  destruct (decide (name = "medium")) as [->|Hm]; [done|].
  rewrite lookup_insert_ne by done.
  destruct (decide (name = "hard")) as [->|Hh]; [done|].
  rewrite lookup_insert_ne by done.
  by rewrite lookup_empty.
Qed.

(** The older [NewBoard] accepts the same three names and gives the same
    dimensions, with 6, 18 and 36 mines. *)
Lemma legacy_NewBoard_presets (name : string) :
  (λ b, (Legacy.rows b, Legacy.cols b)) <$> Legacy.NewBoard name
  = (λ preset : Z * Z * Z, preset.1) <$> presetTable name
  ∧ Legacy.mineCount <$> Legacy.NewBoard name
    = if decide (name = "easy") then Some 6
      else if decide (name = "medium") then Some 18
      else if decide (name = "hard") then Some 36
      else None.
Proof.
  unfold Legacy.NewBoard, presetTable, Legacy.boardDefinitionsDict.
  destruct (decide (name = "easy")) as [->|He]; [done|].
  rewrite lookup_insert_ne by done.
  destruct (decide (name = "medium")) as [->|Hm]; [done|].
  rewrite lookup_insert_ne by done.
  destruct (decide (name = "hard")) as [->|Hh]; [done|].
  rewrite lookup_insert_ne by done.
  by rewrite lookup_empty.
Qed.

(** The three boards [NewBoard] can return. *)
Lemma NewBoard_cases (name : string) (b : Board) :
  NewBoard name = Some b →
  b = blankBoard "easy" (9, 9, 10)
  ∨ b = blankBoard "medium" (16, 16, 30)
  ∨ b = blankBoard "hard" (30, 16, 72).
Proof.
  unfold NewBoard, boardDefinitionsDict.
  destruct (decide (name = "easy")) as [->|He].
  { intros [= <-]. by left. }
  rewrite lookup_insert_ne by done.
  destruct (decide (name = "medium")) as [->|Hm].
  { intros [= <-]. right. by left. }
  rewrite lookup_insert_ne by done.
  destruct (decide (name = "hard")) as [->|Hh].
  { intros [= <-]. right. by right. }
  rewrite lookup_insert_ne by done.
  by rewrite lookup_empty.
Qed.

Lemma NewBoard_Some (name : string) (b : Board) :
  NewBoard name = Some b →
  initialized b = false ∧ cells b = []
  ∧ 0 < rows b ≤ 30 ∧ 0 < cols b ≤ 16
  ∧ 0 < mineCount b ≤ 72 ∧ mineCount b < rows b * cols b.
Proof.
  intros [->|[->| ->]]%NewBoard_cases; cbv; intuition congruence.
Qed.

Lemma NewBoard_params (name : string) (b : Board) :
  NewBoard name = Some b → params_ok b.
Proof.
  intros H%NewBoard_Some. unfold params_ok.
  change (2 ^ 31) with 2147483648. lia.
Qed.

(** ** Mines and scores after [Initialize] *)

(** On the three presets, [Initialize] returns after one scan when the
    random source always hits, and never returns when it never hits. *)
Lemma Initialize_returns (name : string) (b0 : Board) (safe : Location)
    (draws : nat → Z) :
  NewBoard name = Some b0 → (∀ k, draws k < 2) →
  ∃ b, Initialize 1 draws b0 safe = Done b.
Proof.
  intros Hnew Hhit. apply Initialize_all_hit; [by eapply NewBoard_params| |done].
  apply NewBoard_Some in Hnew. lia.
Qed.

Lemma Initialize_spins (name : string) (b0 : Board) (safe : Location)
    (draws : nat → Z) (fuel : nat) :
  NewBoard name = Some b0 → (∀ k, 2 ≤ draws k) →
  Initialize fuel draws b0 safe = OutOfFuel.
Proof.
  intros Hnew Hmiss. pose proof (NewBoard_params _ _ Hnew) as (Hr & Hc & _).
  apply NewBoard_Some in Hnew as (_ & _ & _ & _ & Hm & _).
  unfold Initialize. destruct (makeCells_ok b0 Hr Hc) as (cs & -> & _).
  rewrite bind_Done_l. simpl.
  rewrite placeMines_no_hit by (done || lia). done.
Qed.


Lemma cellAt_slot_loc (b : Board) (l : Location) (c : cell) :
  cellAt b l = Some c →
  slot (cells b) (slotOf l) = Some c ∧ locOf (slotOf l) = l.
Proof.
  intros [Hs [? ?]]%cellAt_slot. split; [done|]. apply locOf_slotOf; lia.
Qed.

(** C3. After [Initialize(safe)] returns on a board built by [NewBoard],
    for a [safe] location of the grid: exactly [mineCount] cells hold a
    mine, the cell at [safe] holds none, and [SafeRemaining()] is
    [rows*cols - mineCount]. *)
Theorem Initialize_mines (name : string) (b0 b : Board) (safe : Location)
    (fuel : nat) (draws : nat → Z) :
  NewBoard name = Some b0 →
  ValidLocation b0 safe = true →
  Initialize fuel draws b0 safe = Done b →
  minesOn b = mineCount b0
  ∧ (∃ c, cellAt b safe = Some c ∧ hasMine c = false)
  ∧ SafeRemaining b = rows b0 * cols b0 - mineCount b0.
Proof.
  intros Hnew Hsafe Hinit.
  apply Initialize_spec in Hinit
    as (Hg & Hr & Hc & _ & Hi & Hm & Hs & Hcells);
    [|by eapply NewBoard_params].
  split_and!; [done| |unfold SafeRemaining; by rewrite Hi].
  apply ValidLocation_onBoard in Hsafe.
  assert (onBoard b safe) as Hon by (unfold onBoard in *; by rewrite Hr, Hc).
  destruct (proj2 (cellAt_is_Some b safe Hg) Hon) as [c Hcell].
  exists c. split; [done|].
  apply cellAt_slot_loc in Hcell as [Hslot Hloc].
  by apply (Hcells _ _ Hslot).
Qed.

(** C4. After [Initialize], the score of every cell of the grid is the
    number of cells among its eight neighbours (row ± 1, column ± 1,
    itself and positions outside the grid left out) that hold a mine. *)
Theorem Initialize_scores (name : string) (b0 b : Board) (safe : Location)
    (fuel : nat) (draws : nat → Z) :
  NewBoard name = Some b0 →
  Initialize fuel draws b0 safe = Done b →
  ∀ l c, cellAt b l = Some c → score c = mooreMines b l.
Proof.
  intros Hnew Hinit l c Hcell.
  apply Initialize_spec in Hinit as (_ & _ & _ & _ & _ & _ & _ & Hcells);
    [|by eapply NewBoard_params].
  apply cellAt_slot_loc in Hcell as [Hslot Hloc].
  destruct (Hcells _ _ Hslot) as [Hsc _]. by rewrite Hloc in Hsc.
Qed.

Lemma mooreMines_zero (b : Board) (l : Location) :
  mooreMines b l = 0 ↔ ∀ nl, adjacent l nl → mineAt b nl = false.
Proof.
  unfold mooreMines. split.
  - intros H nl Hadj. destruct (mineAt b nl) eqn:Hm; [|done]. exfalso.
    assert (nl ∈ filter (λ nl, Is_true (mineAt b nl)) (neighborLocs l)) as Hin.
    { apply list_elem_of_filter. rewrite Hm, elem_of_neighborLocs. done. }
    destruct (filter _ (neighborLocs l)); [by apply elem_of_nil in Hin|].
    simpl in H. lia.
  - intros H. rewrite (elem_of_nil_inv (filter _ _)); [done|].
    intros nl [Hm Hin]%list_elem_of_filter.
    apply elem_of_neighborLocs in Hin. rewrite (H _ Hin) in Hm. done.
Qed.

(** C5, as amended. After [Initialize], a cell that holds a mine is
    scored like any other cell: its score is the number of its neighbours
    that hold a mine, the cell itself not counted, and it is 0 exactly
    when no neighbour holds a mine. *)
Theorem Initialize_mine_scores (name : string) (b0 b : Board)
    (safe : Location) (fuel : nat) (draws : nat → Z) (l : Location)
    (c : cell) :
  NewBoard name = Some b0 →
  Initialize fuel draws b0 safe = Done b →
  cellAt b l = Some c → hasMine c = true →
  score c = mooreMines b l
  ∧ (score c = 0 ↔ ∀ nl, adjacent l nl → mineAt b nl = false).
Proof.
  intros Hnew Hinit Hcell _.
  apply Initialize_spec in Hinit as (_ & _ & _ & _ & _ & _ & _ & Hcells);
    [|by eapply NewBoard_params].
  apply cellAt_slot_loc in Hcell as [Hslot Hloc].
  destruct (Hcells _ _ Hslot) as [Hsc _]. rewrite Hloc in Hsc.
  split; [done|]. rewrite Hsc. apply mooreMines_zero.
Qed.

(** ** Reveals *)

Lemma cell_le_refl (c : cell) : cell_le c c.
Proof. split; [by destruct c|done]. Qed.

Lemma cell_le_trans (c1 c2 c3 : cell) :
  cell_le c1 c2 → cell_le c2 c3 → cell_le c1 c3.
Proof.
  intros [H1 H1'] [H2 H2']. split; [|auto].
  rewrite H2, H1. done.
Qed.

Lemma board_le_refl (b : Board) : board_le b b.
Proof.
  split; [done|]. apply Forall2_same_length_lookup. split; [done|].
  intros r l1 l2 H1 H2. simplify_eq.
  apply Forall2_same_length_lookup. split; [done|].
  intros k c1 c2 ? ?. simplify_eq. apply cell_le_refl.
Qed.

Lemma board_le_trans (b1 b2 b3 : Board) :
  board_le b1 b2 → board_le b2 b3 → board_le b1 b3.
Proof.
  intros [Hf1 Hc1] [Hf2 Hc2]. split; [congruence|].
  eapply Forall2_trans; [|exact Hc1|exact Hc2].
  intros l1 l2 l3 H12 H23. eapply Forall2_trans; [|exact H12|exact H23].
  apply cell_le_trans.
Qed.

Lemma board_le_slot (b b' : Board) (p : ptr) (c : cell) :
  board_le b b' → slot (cells b) p = Some c →
  ∃ c', slot (cells b') p = Some c' ∧ cell_le c c'.
Proof.
  intros [_ Hcs]. unfold slot. intros Hp.
  destruct (cells b !! p.1) as [line|] eqn:Hline; simplify_eq/=.
  destruct (Forall2_lookup_l _ _ _ _ _ Hcs Hline) as (line' & -> & Hl).
  simpl. by eapply Forall2_lookup_l.
Qed.

Lemma board_le_slot_r (b b' : Board) (p : ptr) (c' : cell) :
  board_le b b' → slot (cells b') p = Some c' →
  ∃ c, slot (cells b) p = Some c ∧ cell_le c c'.
Proof.
  intros [_ Hcs]. unfold slot. intros Hp.
  destruct (cells b' !! p.1) as [line'|] eqn:Hline; simplify_eq/=.
  destruct (Forall2_lookup_r _ _ _ _ _ Hcs Hline) as (line & -> & Hl).
  simpl. by eapply Forall2_lookup_r.
Qed.

Lemma board_le_rows (b b' : Board) :
  board_le b b' → rows b' = rows b ∧ cols b' = cols b.
Proof. intros [Hf _]. by apply fields_rows. Qed.

Lemma board_le_grid (b b' : Board) : grid_ok b → board_le b b' → grid_ok b'.
Proof.
  intros Hg Hle. pose proof (board_le_rows _ _ Hle) as [Hr Hc].
  pose proof Hle as [_ Hcs]. constructor.
  - rewrite Hr. apply Hg.
  - rewrite Hc. apply Hg.
  - rewrite Hr, <- (Forall2_length _ _ _ Hcs). apply Hg.
  - intros r line' Hline.
    destruct (Forall2_lookup_r _ _ _ _ _ Hcs Hline) as (line & Hl & Hll).
    rewrite Hc, <- (Forall2_length _ _ _ Hll). by eapply grid_lines.
  - intros p c' Hp.
    destruct (board_le_slot_r b b' p c' Hle Hp) as (c & Hp0 & [-> _]).
    simpl. by eapply grid_locs.
Qed.

Lemma board_le_is_Some (b b' : Board) (p : ptr) :
  board_le b b' → is_Some (slot (cells b) p) → is_Some (slot (cells b') p).
Proof.
  intros Hle [c Hc]. destruct (board_le_slot _ _ _ _ Hle Hc) as (c' & ? & _).
  by eexists.
Qed.

Lemma board_le_revealedAt (b b' : Board) (p : ptr) :
  board_le b b' → revealedAt b p = true → revealedAt b' p = true.
Proof.
  intros Hle. unfold revealedAt.
  destruct (slot (cells b) p) as [c|] eqn:Hc; [|done].
  destruct (board_le_slot _ _ _ _ Hle Hc) as (c' & -> & [_ Hrev]). done.
Qed.

Lemma board_le_unrevealedAt (b b' : Board) (p : ptr) :
  board_le b b' → revealedAt b' p = false → revealedAt b p = false.
Proof.
  intros Hle H. destruct (revealedAt b p) eqn:E; [|done].
  by rewrite (board_le_revealedAt _ _ _ Hle E) in H.
Qed.

Lemma count_le_line (l l' : list cell) :
  Forall2 cell_le l l' →
  (length (filter (λ c, Is_true (negb (revealed c))) l')
   ≤ length (filter (λ c, Is_true (negb (revealed c))) l))%nat.
Proof.
  induction 1 as [|c c' l l' [_ Hc] _ IH]; [done|].
  rewrite !filter_cons.
  destruct (revealed c) eqn:E.
  - rewrite Hc by done. simpl. done.
  - simpl. destruct (revealed c'); simpl; lia.
Qed.

Lemma board_le_unrevealed (b b' : Board) :
  board_le b b' → (unrevealed b' ≤ unrevealed b)%nat.
Proof.
  intros [_ Hcs]. unfold unrevealed, countCells.
  induction Hcs as [|l l' cs cs' Hl _ IH]; [done|].
  simpl. rewrite !filter_app, !length_app.
  pose proof (count_le_line _ _ Hl). lia.
Qed.

Lemma board_le_reveal (b : Board) (p : ptr) : board_le b (reveal b p).
Proof.
  split; [done|]. unfold reveal; simpl.
  apply Forall2_same_length_lookup. split; [by rewrite length_alter|].
  intros r l l' Hl Hl'. rewrite list_lookup_alter in Hl'.
  case_decide; subst.
  - rewrite Hl in Hl'. simplify_eq/=.
    apply Forall2_same_length_lookup. split; [by rewrite length_alter|].
    intros k c c' Hc Hc'. rewrite list_lookup_alter in Hc'.
    case_decide; subst.
    + rewrite Hc in Hc'. simplify_eq/=. split; [by destruct c|done].
    + simplify_eq. apply cell_le_refl.
  - simplify_eq. apply Forall2_same_length_lookup. split; [done|].
    intros k c c' ? ?. simplify_eq. apply cell_le_refl.
Qed.

Lemma revealedAt_reveal (b : Board) (p q : ptr) :
  is_Some (slot (cells b) p) →
  revealedAt (reveal b p) q = if decide (p = q) then true else revealedAt b q.
Proof.
  intros [c Hc]. unfold revealedAt, reveal; simpl. rewrite slot_alter.
  case_decide; subst; [by rewrite Hc|done].
Qed.

Lemma unrevealed_reveal (b : Board) (p : ptr) (c : cell) :
  slot (cells b) p = Some c → revealed c = false →
  (unrevealed (reveal b p) + 1 = unrevealed b)%nat.
Proof.
  intros Hc Hrev. unfold unrevealed, reveal; simpl.
  pose proof (countCells_alter (λ c, negb (revealed c)) (set_revealed true)
                (cells b) p c Hc) as H.
  simpl in H. rewrite Hrev in H. simpl in H. lia.
Qed.

(** ** The propagation and its log *)

(** Erasing the log gives back [PropagateReveals]. *)
Lemma PropagateRevealsT_erase (fuel : nat) (b : Board) (c : option ptr) :
  PropagateReveals fuel b c = (r ← PropagateRevealsT fuel b c; Done r.1).
Proof.
  revert b c; induction fuel as [|fuel IH]; intros b [p|]; simpl; try done.
  destruct (load b p) as [cl| |]; simpl; try done.
  destruct (getNeighborCells b (location cl)) as [ns| |]; simpl; try done.
  generalize (@nil ptr) as tr. generalize (rangeOf ns) as l. clear ns.
  intros l; revert b; induction l as [|n l IHl]; intros b tr; [done|].
  cbn [forM].
  assert (Hstep :
    revealNeighbor (PropagateReveals fuel) b n
    = (r ← revealNeighborT (PropagateRevealsT fuel) (b, tr) n; Done r.1)).
  { unfold revealNeighbor, revealNeighborT. cbn [fst snd].
    destruct (load b n) as [nc| |]; simpl; try done.
    destruct (revealed nc); simpl; [done|].
    destruct (poke (set_revealed true) b n) as [b1| |]; simpl; try done.
    case_bool_decide; simpl; [|done].
    rewrite IH.
    by destruct (PropagateRevealsT fuel b1 (Some n)) as [[b2 tr2]| |]. }
  rewrite Hstep.
  destruct (revealNeighborT (PropagateRevealsT fuel) (b, tr) n)
    as [[b1 tr1]| |]; simpl; done.
Qed.

Lemma PropagateReveals_unfold (fuel : nat) (b : Board) (p : ptr) :
  grid_ok b → is_Some (slot (cells b) p) →
  PropagateReveals (S fuel) b (Some p)
  = forM (revealNeighbor (PropagateReveals fuel))
         (neighborSlots b (locOf p)) b.
Proof.
  intros Hg [c Hc]. simpl.
  rewrite (proj2 (load_Done b p c) Hc), bind_Done_l.
  rewrite (grid_locs b Hg _ _ Hc).
  rewrite getNeighborCells_ok, bind_Done_l; [done|done|].
  apply grid_slot_onBoard; [done|by eexists].
Qed.

Lemma PropagateRevealsT_unfold (fuel : nat) (b : Board) (p : ptr) :
  grid_ok b → is_Some (slot (cells b) p) →
  PropagateRevealsT (S fuel) b (Some p)
  = forM (revealNeighborT (PropagateRevealsT fuel))
         (neighborSlots b (locOf p)) (b, []).
Proof.
  intros Hg [c Hc]. simpl.
  rewrite (proj2 (load_Done b p c) Hc), bind_Done_l.
  rewrite (grid_locs b Hg _ _ Hc).
  rewrite getNeighborCells_ok, bind_Done_l; [done|done|].
  apply grid_slot_onBoard; [done|by eexists].
Qed.

Lemma revealNeighbor_eq (recurse : Board → option ptr → outcome Board)
    (b : Board) (n : ptr) (nc : cell) :
  slot (cells b) n = Some nc →
  revealNeighbor recurse b n
  = if revealed nc then Done b
    else if bool_decide (score nc = 0) then recurse (reveal b n) (Some n)
    else Done (reveal b n).
Proof.
  intros Hn. unfold revealNeighbor, poke.
  rewrite (proj2 (load_Done b n nc) Hn), bind_Done_l. by rewrite Hn.
Qed.

Lemma revealNeighborT_eq
    (recurse : Board → option ptr → outcome (Board * list ptr))
    (b : Board) (tr : list ptr) (n : ptr) (nc : cell) :
  slot (cells b) n = Some nc →
  revealNeighborT recurse (b, tr) n
  = if revealed nc then Done (b, tr)
    else if bool_decide (score nc = 0)
         then r ← recurse (reveal b n) (Some n); Done (r.1, tr ++ n :: r.2)
    else Done (reveal b n, tr).
Proof.
  intros Hn. unfold revealNeighborT, poke. simpl.
  rewrite (proj2 (load_Done b n nc) Hn), bind_Done_l. by rewrite Hn.
Qed.

Lemma neighborSlots_valid (b : Board) (l : Location) (q : ptr) :
  grid_ok b → q ∈ neighborSlots b l → is_Some (slot (cells b) q).
Proof.
  intros Hg [Hon _]%elem_of_neighborSlots. by apply grid_slot_onBoard.
Qed.

(** ** Termination of the propagation *)

Lemma propagated_nil (b : Board) : propagated b b [].
Proof.
  constructor; [apply board_le_refl|constructor| |simpl; lia].
  by intros q ?%elem_of_nil.
Qed.

(** A reveal of [n] followed by the nested call on [n]. *)
Lemma propagated_enter (b b' : Board) (n : ptr) (nc : cell) (tr : list ptr) :
  slot (cells b) n = Some nc → revealed nc = false →
  propagated (reveal b n) b' tr →
  propagated b b' (n :: tr).
Proof.
  intros Hn Hrev [Hle Hnd Hfresh Hcount].
  pose proof (board_le_reveal b n) as Hle0.
  assert (revealedAt (reveal b n) n = true) as Hrn.
  { rewrite revealedAt_reveal by by eexists. by rewrite decide_True. }
  pose proof (unrevealed_reveal b n nc Hn Hrev) as Hcnt.
  constructor.
  - by eapply board_le_trans.
  - constructor; [|done]. intros Hin.
    destruct (Hfresh n Hin) as [H1 _]. congruence.
  - intros q [->|Hq]%elem_of_cons.
    + split; [unfold revealedAt; by rewrite Hn|].
      by eapply board_le_revealedAt.
    + destruct (Hfresh q Hq) as [H1 H2]. split; [|done].
      by eapply board_le_unrevealedAt.
  - simpl. lia.
Qed.

(** A reveal of [n] with no nested call. *)
Lemma propagated_leaf (b : Board) (n : ptr) (nc : cell) :
  slot (cells b) n = Some nc → revealed nc = false →
  propagated b (reveal b n) [].
Proof.
  intros Hn Hrev. pose proof (unrevealed_reveal b n nc Hn Hrev) as Hcnt.
  constructor; [apply board_le_reveal|constructor| |simpl; lia].
  by intros q ?%elem_of_nil.
Qed.

(** Two runs in sequence. *)
Lemma propagated_seq (b1 b2 b3 : Board) (tr1 tr2 : list ptr) :
  propagated b1 b2 tr1 → propagated b2 b3 tr2 →
  propagated b1 b3 (tr1 ++ tr2).
Proof.
  intros [Hle1 Hnd1 Hf1 Hc1] [Hle2 Hnd2 Hf2 Hc2]. constructor.
  - by eapply board_le_trans.
  - apply NoDup_app. split_and!; [done| |done].
    intros q Hq1 Hq2. destruct (Hf1 q Hq1) as [_ H1].
    destruct (Hf2 q Hq2) as [H2 _]. congruence.
  - intros q [Hq|Hq]%elem_of_app.
    + destruct (Hf1 q Hq). split; [done|by eapply board_le_revealedAt].
    + destruct (Hf2 q Hq). split; [by eapply board_le_unrevealedAt|done].
  - rewrite length_app. lia.
Qed.

Lemma propagate_loop (fuel : nat) :
  (∀ b p, grid_ok b → is_Some (slot (cells b) p) →
          (unrevealed b < fuel)%nat →
          ∃ b' tr, PropagateRevealsT fuel b (Some p) = Done (b', tr)
                   ∧ propagated b b' tr) →
  ∀ ns b tr0,
    Forall (λ n, is_Some (slot (cells b) n)) ns →
    grid_ok b → (unrevealed b ≤ fuel)%nat →
    ∃ b' tr,
      forM (revealNeighborT (PropagateRevealsT fuel)) ns (b, tr0)
        = Done (b', tr0 ++ tr)
      ∧ propagated b b' tr.
Proof.
  intros IH. induction ns as [|n ns IHns]; intros b tr0 Hns Hg Hcnt.
  { exists b, []. rewrite app_nil_r. split; [done|apply propagated_nil]. }
  apply Forall_cons in Hns as [[nc Hn] Hns]. cbn [forM].
  rewrite (revealNeighborT_eq _ _ _ _ _ Hn).
  destruct (revealed nc) eqn:Hrev.
  { rewrite bind_Done_l. by apply IHns. }
  pose proof (board_le_reveal b n) as Hle.
  pose proof (unrevealed_reveal b n nc Hn Hrev) as Hone.
  pose proof (board_le_grid _ _ Hg Hle) as Hg2.
  assert (∀ b2, board_le b b2 →
            Forall (λ n, is_Some (slot (cells b2) n)) ns) as Hns'.
  { intros b2 Hle2. eapply Forall_impl; [exact Hns|].
    intros q. by apply board_le_is_Some. }
  case_bool_decide.
  - destruct (IH (reveal b n) n) as (b3 & tr3 & Hrun & Hpr);
      [done|by eapply board_le_is_Some; [|eexists]|lia|].
    rewrite Hrun, !bind_Done_l. cbn [fst snd].
    pose proof (propagated_enter _ _ _ _ _ Hn Hrev Hpr) as Hpr1.
    destruct (IHns b3 (tr0 ++ n :: tr3)) as (b' & tr' & Hrest & Hpr2).
    + apply Hns', Hpr1.
    + eapply board_le_grid; [exact Hg|apply Hpr1].
    + pose proof (pr_count _ _ _ Hpr1). lia.
    + exists b', ((n :: tr3) ++ tr'). split.
      * rewrite Hrest. by rewrite <- app_assoc.
      * by eapply propagated_seq.
  - rewrite bind_Done_l.
    pose proof (propagated_leaf _ _ _ Hn Hrev) as Hpr1.
    destruct (IHns (reveal b n) tr0) as (b' & tr' & Hrest & Hpr2);
      [by apply Hns'|done|lia|].
    exists b', tr'. split; [done|].
    by apply (propagated_seq b (reveal b n) b' [] tr').
Qed.

Lemma PropagateRevealsT_total (fuel : nat) (b : Board) (p : ptr) :
  grid_ok b → is_Some (slot (cells b) p) → (unrevealed b < fuel)%nat →
  ∃ b' tr, PropagateRevealsT fuel b (Some p) = Done (b', tr)
           ∧ propagated b b' tr.
Proof.
  revert b p; induction fuel as [|fuel IH]; intros b p Hg Hp Hfuel; [lia|].
  rewrite PropagateRevealsT_unfold by done.
  destruct (propagate_loop fuel IH (neighborSlots b (locOf p)) b [])
    as (b' & tr & Hrun & Hpr); [|done|lia|by eauto].
  apply Forall_forall. intros q. by apply neighborSlots_valid.
Qed.

Lemma PropagateReveals_total (fuel : nat) (b : Board) (p : ptr) :
  grid_ok b → is_Some (slot (cells b) p) → (unrevealed b < fuel)%nat →
  ∃ b', PropagateReveals fuel b (Some p) = Done b' ∧ board_le b b'.
Proof.
  intros Hg Hp Hfuel.
  destruct (PropagateRevealsT_total fuel b p Hg Hp Hfuel)
    as (b' & tr & Hrun & Hpr).
  exists b'. rewrite PropagateRevealsT_erase, Hrun. split; [done|apply Hpr].
Qed.

(** ** What the propagation reveals *)

Lemma visits_le (b b' : Board) (ns : list ptr) :
  visits b ns b' → board_le b b'.
Proof.
  induction 1 as [b|b n nc ns b' _ _ _ IH|b n nc ns b' _ _ _ _ IH
                 |b n nc ns b2 b' _ _ _ _ IH1 _ IH2].
  - apply board_le_refl.
  - done.
  - eapply board_le_trans; [apply board_le_reveal|done].
  - eapply board_le_trans; [apply board_le_reveal|].
    by eapply board_le_trans.
Qed.

Lemma visits_loop (fuel : nat) :
  (∀ b p b', grid_ok b → is_Some (slot (cells b) p) →
             PropagateReveals fuel b (Some p) = Done b' →
             visits b (neighborSlots b (locOf p)) b') →
  ∀ ns b b',
    grid_ok b → Forall (λ n, is_Some (slot (cells b) n)) ns →
    forM (revealNeighbor (PropagateReveals fuel)) ns b = Done b' →
    visits b ns b'.
Proof.
  intros IH. induction ns as [|n ns IHns]; intros b b' Hg Hns Hrun.
  { simpl in Hrun. inv_done. constructor. }
  apply Forall_cons in Hns as [[nc Hn] Hns]. cbn [forM] in Hrun.
  apply bind_Done in Hrun as (b2 & Hstep & Hrun).
  rewrite (revealNeighbor_eq _ _ _ _ Hn) in Hstep.
  assert (∀ b2, board_le b b2 →
            Forall (λ n, is_Some (slot (cells b2) n)) ns) as Hns'.
  { intros b3 Hle. eapply Forall_impl; [exact Hns|].
    intros q. by apply board_le_is_Some. }
  pose proof (board_le_reveal b n) as Hle.
  pose proof (board_le_grid _ _ Hg Hle) as Hg1.
  destruct (revealed nc) eqn:Hrev.
  { inv_done. eapply visits_skip; eauto. }
  case_bool_decide as Hz.
  - apply IH in Hstep; [|done|by eapply board_le_is_Some; [|eexists]].
    rewrite (neighborSlots_frame b (reveal b n)) in Hstep by done.
    pose proof (visits_le _ _ _ Hstep) as Hle2.
    eapply visits_rec; eauto. apply IHns; [|by eauto using board_le_trans|done].
    eapply board_le_grid; [exact Hg1|done].
  - inv_done. eapply visits_leaf; eauto.
Qed.

Lemma PropagateReveals_visits (fuel : nat) (b b' : Board) (p : ptr) :
  grid_ok b → is_Some (slot (cells b) p) →
  PropagateReveals fuel b (Some p) = Done b' →
  visits b (neighborSlots b (locOf p)) b'.
Proof.
  revert b p b'; induction fuel as [|fuel IH]; intros b p b' Hg Hp Hrun;
    [done|].
  rewrite PropagateReveals_unfold in Hrun by done.
  eapply visits_loop; [exact IH|done| |exact Hrun].
  apply Forall_forall. intros q. by apply neighborSlots_valid.
Qed.

(** ** The zero-score region of a cell and its border *)

Lemma region_zero (b : Board) (l0 l : Location) : region b l0 l → zeroAt b l.
Proof. by destruct 1. Qed.

Lemma flooded_neighbor (b : Board) (l0 z l : Location) (c : cell) :
  region b l0 z → adjacent z l → cellAt b l = Some c → flooded b l0 l.
Proof.
  intros Hz Hadj Hc. destruct (decide (score c = 0)) as [H0|H0].
  - left. eapply region_step; [exact Hz|done|by exists c].
  - right. split; [by exists c|by exists z].
Qed.

Lemma closedAt_mono (b b' : Board) (x : ptr) :
  board_le b b' → closedAt b x → closedAt b' x.
Proof.
  intros Hle Hx q Hq. pose proof (board_le_rows _ _ Hle) as [Hr Hc].
  rewrite (neighborSlots_frame b b') in Hq by done.
  eapply board_le_revealedAt; [done|by apply Hx].
Qed.

Lemma board_le_score (b b' : Board) (p : ptr) (c c' : cell) :
  board_le b b' → slot (cells b) p = Some c → slot (cells b') p = Some c' →
  score c' = score c ∧ hasMine c' = hasMine c ∧ flagged c' = flagged c
  ∧ location c' = location c.
Proof.
  intros Hle Hc Hc'.
  destruct (board_le_slot _ _ _ _ Hle Hc) as (c2 & H2 & [Heq _]).
  rewrite Hc' in H2. simplify_eq. by rewrite Heq.
Qed.

(** Nothing outside the flooded set is revealed by a run that starts next
    to a cell [z] of the region. *)
Lemma visits_sound (b0 : Board) (l0 : Location) (b b' : Board)
    (ns : list ptr) :
  grid_ok b0 →
  visits b ns b' →
  ∀ z, board_le b0 b → region b0 l0 z →
       (∀ n, n ∈ ns → adjacent z (locOf n)) →
       ∀ q, revealedAt b' q = true →
            revealedAt b q = true ∨ flooded b0 l0 (locOf q).
Proof.
  intros Hg0.
  induction 1 as [b|b n nc ns b' Hn Hrev _ IH|b n nc ns b' Hn Hrev Hsc _ IH
                 |b n nc ns b2 b' Hn Hrev Hsc Hv1 IH1 Hv2 IH2];
    intros z Hle Hz Hns q Hq.
  - by left.
  - eapply IH; eauto. intros m Hm. apply Hns. by right.
  - assert (flooded b0 l0 (locOf n)) as Hfn.
    { destruct (board_le_slot_r _ _ _ _ Hle Hn) as (c0 & Hc0 & _).
      eapply flooded_neighbor; [exact Hz|apply Hns; by left|].
      by rewrite cellAt_locOf. }
    destruct (IH z) with (q := q) as [Hq1|Hq1]; try done.
    + eapply board_le_trans; [done|apply board_le_reveal].
    + intros m Hm. apply Hns. by right.
    + rewrite revealedAt_reveal in Hq1 by by eexists.
      case_decide; subst; auto.
    + by right.
  - destruct (board_le_slot_r _ _ _ _ Hle Hn) as (c0 & Hc0 & Hle0).
    assert (score c0 = 0) as Hsc0.
    { destruct (board_le_score _ _ _ _ _ Hle Hc0 Hn) as [? _]. congruence. }
    assert (region b0 l0 (locOf n)) as Hrn.
    { eapply region_step; [exact Hz|apply Hns; by left|].
      exists c0. by rewrite cellAt_locOf. }
    pose proof (board_le_trans _ _ _ Hle (board_le_reveal b n)) as Hle1.
    pose proof (visits_le _ _ _ Hv1) as Hle2.
    destruct (IH2 z) with (q := q) as [Hq2|Hq2]; try done.
    + by eapply board_le_trans.
    + intros m Hm. apply Hns. by right.
    + destruct (IH1 (locOf n)) with (q := q) as [Hq1|Hq1]; try done.
      * intros m [_ Hm]%elem_of_neighborSlots. done.
      * rewrite revealedAt_reveal in Hq1 by by eexists.
        case_decide; subst; [right; by left|by left].
      * by right.
    + by right.
Qed.

(** After a run over [ns], every cell of [ns] is revealed, and so are all
    the neighbours of every zero-score cell the run has revealed. *)
Lemma visits_closed (b b' : Board) (ns : list ptr) :
  visits b ns b' →
  (∀ q, q ∈ ns → revealedAt b' q = true)
  ∧ (∀ x cx, slot (cells b') x = Some cx → score cx = 0 →
             revealed cx = true → revealedAt b x = false → closedAt b' x).
Proof.
  induction 1 as [b|b n nc ns b' Hn Hrev Hv [IHa IHb]
                 |b n nc ns b' Hn Hrev Hsc Hv [IHa IHb]
                 |b n nc ns b2 b' Hn Hrev Hsc Hv1 [IH1a IH1b] Hv2 [IH2a IH2b]].
  - split; [by intros q ?%elem_of_nil|].
    intros x cx Hx _ Hr Hu. unfold revealedAt in Hu. rewrite Hx in Hu.
    congruence.
  - split; [|done]. intros q [Hq|Hq]%elem_of_cons; [subst q|auto].
    eapply board_le_revealedAt; [by eapply visits_le|].
    unfold revealedAt. by rewrite Hn.
  - pose proof (visits_le _ _ _ Hv) as Hle.
    assert (revealedAt (reveal b n) n = true) as Hrn.
    { rewrite revealedAt_reveal by by eexists. by rewrite decide_True. }
    split.
    + intros q [Hq|Hq]%elem_of_cons; [subst q|auto].
      by eapply board_le_revealedAt.
    + intros x cx Hx Hz Hr Hu. apply (IHb x cx); try done.
      rewrite revealedAt_reveal by by eexists.
      case_decide as Hnx; [subst x|done]. exfalso.
      pose proof (board_le_trans _ _ _ (board_le_reveal b n) Hle) as Hle'.
      destruct (board_le_score _ _ _ _ _ Hle' Hn Hx) as [? _]. congruence.
  - pose proof (visits_le _ _ _ Hv1) as Hle1.
    pose proof (visits_le _ _ _ Hv2) as Hle2.
    assert (revealedAt (reveal b n) n = true) as Hrn.
    { rewrite revealedAt_reveal by by eexists. by rewrite decide_True. }
    split.
    + intros q [Hq|Hq]%elem_of_cons; [subst q|auto].
      eapply board_le_revealedAt; [exact Hle2|].
      by eapply board_le_revealedAt.
    + intros x cx Hx Hz Hr Hu.
      destruct (revealedAt b2 x) eqn:Hx2; [|by apply (IH2b x cx)].
      eapply closedAt_mono; [exact Hle2|].
      destruct (board_le_slot_r _ _ _ _ Hle2 Hx) as (c2 & Hc2 & _).
      destruct (board_le_score _ _ _ _ _ Hle2 Hc2 Hx) as [Hs2 _].
      assert (revealed c2 = true) as Hr2
        by (unfold revealedAt in Hx2; by rewrite Hc2 in Hx2).
      destruct (decide (x = n)) as [->|Hne].
      * intros q Hq. apply IH1a.
        pose proof (board_le_rows _ _
          (board_le_trans _ _ _ (board_le_reveal b n) Hle1)) as [? ?].
        by rewrite <- (neighborSlots_frame b b2).
      * apply (IH1b x c2); [done|congruence|done|].
        rewrite revealedAt_reveal by by eexists.
        by rewrite decide_False.
Qed.

(** ** Clicks and flags on a well-formed grid *)

Lemma Click_eq (fuel : nat) (b : Board) (l : Location) :
  grid_ok b →
  Click fuel b l
  = match cellAt b l with
    | None => Done b
    | Some c =>
        if flagged c then Done b
        else if revealed c then Done b
        else if hasMine c
             then Done (set_explosionOccured true (reveal b (slotOf l)))
        else if bool_decide (score c = 0)
             then PropagateReveals fuel (reveal b (slotOf l)) (Some (slotOf l))
        else Done (reveal b (slotOf l))
    end.
Proof.
  intros Hg. unfold Click. rewrite getCell_ok by done. unfold cellAt.
  destruct (decide (onBoard b l)) as [Hon|Hoff]; [|done].
  rewrite bind_Done_l.
  destruct (proj2 (cellAt_is_Some b l Hg) Hon) as [c Hc].
  apply cellAt_slot in Hc as [Hc _]. rewrite Hc.
  rewrite (proj2 (load_Done b (slotOf l) c) Hc), bind_Done_l.
  destruct (flagged c); [done|]. destruct (revealed c); [done|].
  unfold poke. rewrite Hc, bind_Done_l. done.
Qed.

Lemma ToggleFlag_eq (b : Board) (l : Location) :
  grid_ok b →
  ToggleFlag b l
  = match cellAt b l with
    | None => Done b
    | Some c =>
        if revealed c then Done b
        else Done (set_cells
                     (alter (alter (set_flagged (negb (flagged c)))
                                   (slotOf l).2) (slotOf l).1 (cells b)) b)
    end.
Proof.
  intros Hg. unfold ToggleFlag. rewrite getCell_ok by done. unfold cellAt.
  destruct (decide (onBoard b l)) as [Hon|Hoff]; [|done].
  rewrite bind_Done_l.
  destruct (proj2 (cellAt_is_Some b l Hg) Hon) as [c Hc].
  apply cellAt_slot in Hc as [Hc _]. rewrite Hc.
  rewrite (proj2 (load_Done b (slotOf l) c) Hc), bind_Done_l.
  destruct (revealed c); [done|]. unfold poke. by rewrite Hc.
Qed.

(** On a board whose grid has not been allocated, a cell lookup either
    finds the location out of bounds or panics. *)
Lemma getCell_blank (b : Board) (l : Location) :
  cells b = [] →
  getCell b l = if decide (onBoard b l) then Panic else Done None.
Proof.
  intros Hcs. unfold getCell, slot. rewrite Hcs. simpl.
  destruct (decide (onBoard b l)) as [Hon|Hoff].
  - rewrite bool_decide_eq_false_2; [done|]. unfold onBoard in Hon. lia.
  - rewrite bool_decide_eq_true_2; [done|]. unfold onBoard in Hoff. lia.
Qed.

Lemma Click_blank (fuel : nat) (b : Board) (l : Location) :
  cells b = [] →
  Click fuel b l = if decide (onBoard b l) then Panic else Done b.
Proof.
  intros Hcs. unfold Click. rewrite getCell_blank by done. by case_decide.
Qed.

Lemma ToggleFlag_blank (b : Board) (l : Location) :
  cells b = [] →
  ToggleFlag b l = if decide (onBoard b l) then Panic else Done b.
Proof.
  intros Hcs. unfold ToggleFlag. rewrite getCell_blank by done. by case_decide.
Qed.

Lemma revealAll_loop (ps : list ptr) (b : Board) :
  Forall (λ p, is_Some (slot (cells b) p)) ps →
  ∃ b', forM (poke (set_revealed true)) ps b = Done b'
        ∧ board_le b b' ∧ ∀ q, q ∈ ps → revealedAt b' q = true.
Proof.
  revert b; induction ps as [|p ps IH]; intros b Hps.
  { exists b. split_and!; [done|apply board_le_refl|by intros q ?%elem_of_nil]. }
  apply Forall_cons in Hps as [[c Hc] Hps]. cbn [forM].
  assert (poke (set_revealed true) b p = Done (reveal b p)) as ->
    by (unfold poke; by rewrite Hc).
  rewrite bind_Done_l.
  pose proof (board_le_reveal b p) as Hle.
  destruct (IH (reveal b p)) as (b' & Hrun & Hle' & Hall).
  { eapply Forall_impl; [exact Hps|]. intros q. by apply board_le_is_Some. }
  exists b'. split_and!; [done|by eapply board_le_trans|].
  intros q [Hq|Hq]%elem_of_cons; [subst q|auto].
  eapply board_le_revealedAt; [done|].
  rewrite revealedAt_reveal by by eexists. by rewrite decide_True.
Qed.

Lemma RevealAll_spec (b : Board) (r : Board * bool) :
  RevealAll b = Done r →
  if initialized b
  then r.2 = true ∧ board_le b r.1
       ∧ ∀ q, is_Some (slot (cells b) q) → revealedAt r.1 q = true
  else r = (b, false).
Proof.
  unfold RevealAll. destruct (initialized b); simpl; [|by intros; inv_done].
  destruct (revealAll_loop (gridSlots (cells b)) b)
    as (b' & Hrun & Hle & Hall).
  { apply Forall_forall. intros q. by rewrite elem_of_gridSlots. }
  rewrite Hrun, bind_Done_l. intros; inv_done. split_and!; [done|done|].
  intros q Hq. apply Hall. by apply elem_of_gridSlots.
Qed.

(** ** Boards the program can reach *)

Lemma mineAt_transfer (b b' : Board) :
  rows b' = rows b → cols b' = cols b →
  (∀ p, hasMine <$> slot (cells b') p = hasMine <$> slot (cells b) p) →
  ∀ l, mineAt b' l = mineAt b l.
Proof.
  intros Hr Hc Hm l. unfold mineAt, cellAt.
  destruct (decide (onBoard b l)) as [Hon|Hoff].
  - rewrite decide_True by (unfold onBoard in *; by rewrite Hr, Hc).
    specialize (Hm (slotOf l)).
    destruct (slot (cells b') (slotOf l)), (slot (cells b) (slotOf l));
      by simplify_eq/=.
  - by rewrite decide_False by (unfold onBoard in *; by rewrite Hr, Hc).
Qed.

Lemma scores_ok_transfer (b b' : Board) :
  rows b' = rows b → cols b' = cols b →
  (∀ p, hasMine <$> slot (cells b') p = hasMine <$> slot (cells b) p) →
  (∀ p, score <$> slot (cells b') p = score <$> slot (cells b) p) →
  scores_ok b → scores_ok b'.
Proof.
  intros Hr Hc Hm Hs Hok l c' Hc'.
  rewrite (mooreMines_ext b b') by by apply mineAt_transfer.
  apply cellAt_slot in Hc' as [Hslot Hon]. specialize (Hs (slotOf l)).
  rewrite Hslot in Hs.
  destruct (slot (cells b) (slotOf l)) as [c|] eqn:Hc0; simplify_eq/=.
  rewrite Hs. apply Hok. unfold cellAt.
  by rewrite decide_True by (unfold onBoard in *; by rewrite <- Hr, <- Hc).
Qed.

Lemma board_le_fmap {A : Type} (f : cell → A) (b b' : Board) (p : ptr) :
  (∀ c v, f (set_revealed v c) = f c) →
  board_le b b' → f <$> slot (cells b') p = f <$> slot (cells b) p.
Proof.
  intros Hf Hle. destruct (slot (cells b) p) as [c|] eqn:Hc.
  - destruct (board_le_slot _ _ _ _ Hle Hc) as (c' & -> & [Heq _]).
    simpl. by rewrite Heq, Hf.
  - destruct (slot (cells b') p) as [c'|] eqn:Hc'; [|done].
    destruct (board_le_slot_r _ _ _ _ Hle Hc') as (c & ? & _). congruence.
Qed.

Lemma scores_ok_le (b b' : Board) : board_le b b' → scores_ok b → scores_ok b'.
Proof.
  intros Hle. pose proof (board_le_rows _ _ Hle) as [Hr Hc].
  apply scores_ok_transfer; [done|done| |];
    intros p; by apply board_le_fmap.
Qed.

(** A reveal that does not uncover a mine-free zero keeps the board
    closed. *)
Lemma closed_reveal (b : Board) (p : ptr) (c : cell) :
  slot (cells b) p = Some c → score c ≠ 0 ∨ hasMine c = true →
  closed b → closed (reveal b p).
Proof.
  intros Hc Hnz Hcl x cx Hx Hr Hz Hm.
  unfold reveal in Hx; simpl in Hx. rewrite slot_alter in Hx.
  case_decide as Hpx.
  - subst x. rewrite Hc in Hx. simplify_eq/=. destruct Hnz; congruence.
  - eapply closedAt_mono; [apply board_le_reveal|]. by eapply Hcl.
Qed.

(** The propagation from a freshly revealed mine-free zero closes the
    board again. *)
Lemma closed_flood (b b' : Board) (p : ptr) (c : cell) :
  slot (cells b) p = Some c → revealed c = false →
  visits (reveal b p) (neighborSlots b (locOf p)) b' →
  closed b → closed b'.
Proof.
  intros Hc Hrev Hv Hcl x cx Hx Hr Hz Hm.
  pose proof (visits_le _ _ _ Hv) as Hle1.
  pose proof (board_le_trans _ _ _ (board_le_reveal b p) Hle1) as Hle.
  destruct (visits_closed _ _ _ Hv) as [Hall Hnew].
  destruct (board_le_slot_r _ _ _ _ Hle Hx) as (c0 & Hc0 & _).
  destruct (board_le_score _ _ _ _ _ Hle Hc0 Hx) as (Hs0 & Hm0 & _).
  destruct (revealedAt b x) eqn:Hbx.
  - eapply closedAt_mono; [exact Hle|]. apply (Hcl x c0); try congruence.
    unfold revealedAt in Hbx. by rewrite Hc0 in Hbx.
  - destruct (decide (x = p)) as [->|Hne].
    + intros q Hq. apply Hall.
      pose proof (board_le_rows _ _ Hle) as [? ?].
      by rewrite <- (neighborSlots_frame b b').
    + apply (Hnew x cx); try done.
      rewrite revealedAt_reveal by by eexists. by rewrite decide_False.
Qed.

Lemma board_inv_Initialize (fuel : nat) (draws : nat → Z) (b b' : Board)
    (safespot : Location) :
  params_ok b → Initialize fuel draws b safespot = Done b' → board_inv b'.
Proof.
  intros Hp Hinit.
  apply Initialize_spec in Hinit
    as (Hg & Hr & Hc & Hm & Hi & _ & _ & Hcells); [|done].
  constructor.
  - unfold params_ok in *. by rewrite Hr, Hc, Hm.
  - congruence.
  - done.
  - intros _ l c Hl. apply cellAt_slot_loc in Hl as [Hslot Hloc].
    destruct (Hcells _ _ Hslot) as [Hsc _]. by rewrite Hloc in Hsc.
  - intros _ x cx Hx Hrev. destruct (Hcells _ _ Hx) as (_ & _ & ? & _).
    congruence.
Qed.

Lemma board_inv_le (b b' : Board) :
  board_le b b' → initialized b = true → closed b' →
  board_inv b → board_inv b'.
Proof.
  intros Hle Hi Hcl [Hp Hb Hg Hs _].
  pose proof (board_le_rows _ _ Hle) as [Hr Hc].
  pose proof (le_fields _ _ Hle) as Hf.
  assert (initialized b' = true) as Hi'
    by (apply (f_equal initialized) in Hf; simpl in Hf; congruence).
  constructor.
  - apply (f_equal mineCount) in Hf; simpl in Hf.
    unfold params_ok in *. by rewrite Hr, Hc, Hf.
  - congruence.
  - intros _. eapply board_le_grid; eauto.
  - intros _. eapply scores_ok_le; eauto.
  - done.
Qed.

Lemma board_inv_explosion (b : Board) (v : bool) :
  board_inv b → board_inv (set_explosionOccured v b).
Proof.
  intros [Hp Hb Hg Hs Hc].
  constructor; [exact Hp|exact Hb| |exact Hs|exact Hc].
  intros Hi. by apply (grid_ok_ext b); [| | |apply Hg].
Qed.

Lemma board_inv_Click (fuel : nat) (b b' : Board) (l : Location) :
  board_inv b → Click fuel b l = Done b' → board_inv b'.
Proof.
  intros Hinv Hrun. destruct (initialized b) eqn:Hi.
  2:{ rewrite Click_blank in Hrun by by apply Hinv.
      case_decide; by inv_done. }
  pose proof (inv_grid _ Hinv Hi) as Hg.
  pose proof (inv_closed _ Hinv Hi) as Hcl.
  rewrite Click_eq in Hrun by done.
  destruct (cellAt b l) as [c|] eqn:Hc; [|by inv_done].
  apply cellAt_slot_loc in Hc as [Hslot Hloc].
  destruct (flagged c); [by inv_done|].
  destruct (revealed c) eqn:Hrev; [by inv_done|].
  pose proof (board_le_reveal b (slotOf l)) as Hle.
  destruct (hasMine c) eqn:Hm.
  { inv_done. apply board_inv_explosion.
    eapply board_inv_le; [done|done| |done].
    eapply closed_reveal; eauto. }
  case_bool_decide as Hz.
  - apply PropagateReveals_visits in Hrun;
      [|by eapply board_le_grid|by eapply board_le_is_Some; [|eexists]].
    rewrite (neighborSlots_frame b (reveal b (slotOf l))) in Hrun by done.
    eapply board_inv_le; [|done| |done].
    + eapply board_le_trans; [done|by eapply visits_le].
    + eapply closed_flood; eauto.
  - inv_done. eapply board_inv_le; [done|done| |done].
    eapply closed_reveal; eauto.
Qed.

Lemma board_inv_flag (b : Board) (p : ptr) (v : bool) :
  initialized b = true → board_inv b →
  board_inv (set_cells (alter (alter (set_flagged v) p.2) p.1 (cells b)) b).
Proof.
  intros Hi [Hp Hb Hg Hs Hc]. specialize (Hg Hi). specialize (Hs Hi).
  specialize (Hc Hi).
  assert (∀ {A} (f : cell → A), (∀ c, f (set_flagged v c) = f c) →
            ∀ q, f <$> slot (alter (alter (set_flagged v) p.2) p.1 (cells b)) q
                 = f <$> slot (cells b) q) as Hsame.
  { intros A f Hf q. rewrite slot_alter. case_decide; [|done].
    destruct (slot (cells b) q); simpl; [|done]. by rewrite Hf. }
  constructor; simpl; try done.
  - congruence.
  - intros _. by apply (grid_ok_alter (set_flagged v) b p).
  - intros _. eapply scores_ok_transfer; [| | | |exact Hs]; try done.
    + intros q. by apply Hsame.
    + intros q. by apply Hsame.
  - intros _ x cx Hx Hr Hz Hm. simpl in Hx.
    pose proof (Hsame _ revealed ltac:(done) x) as H1.
    pose proof (Hsame _ score ltac:(done) x) as H2.
    pose proof (Hsame _ hasMine ltac:(done) x) as H3.
    rewrite Hx in H1, H2, H3.
    destruct (slot (cells b) x) as [c0|] eqn:Hc0; simplify_eq/=.
    intros q Hq. unfold revealedAt; simpl.
    pose proof (Hsame _ revealed ltac:(done) q) as H4.
    assert (revealedAt b q = true) as Hq'
      by (apply (Hc x c0); [done|congruence..|exact Hq]).
    unfold revealedAt in Hq'.
    destruct (slot (cells b) q), (slot _ q); simplify_eq/=; congruence.
Qed.

Lemma board_inv_ToggleFlag (b b' : Board) (l : Location) :
  board_inv b → ToggleFlag b l = Done b' → board_inv b'.
Proof.
  intros Hinv Hrun. destruct (initialized b) eqn:Hi.
  2:{ rewrite ToggleFlag_blank in Hrun by by apply Hinv.
      case_decide; by inv_done. }
  rewrite ToggleFlag_eq in Hrun by by apply Hinv.
  destruct (cellAt b l) as [c|]; [|by inv_done].
  destruct (revealed c); inv_done; [done|].
  by apply (board_inv_flag b (slotOf l)).
Qed.

Lemma board_inv_RevealAll (b : Board) (r : Board * bool) :
  board_inv b → RevealAll b = Done r → board_inv r.1.
Proof.
  intros Hinv Hrun. apply RevealAll_spec in Hrun.
  destruct (initialized b) eqn:Hi; [|by subst].
  destruct Hrun as (_ & Hle & Hall).
  eapply board_inv_le; [done|done| |done].
  intros x cx _ _ _ _ q Hq. apply Hall.
  pose proof (board_le_grid _ _ (inv_grid _ Hinv Hi) Hle) as Hg'.
  apply neighborSlots_valid in Hq; [|done]. destruct Hq as [cq Hcq].
  destruct (board_le_slot_r _ _ _ _ Hle Hcq) as (c0 & ? & _). by eexists.
Qed.

(** Every board the program can reach satisfies the board invariant. *)
Lemma reachable_inv (b : Board) : reachable b → board_inv b.
Proof.
  induction 1 as [name b Hnew|b fuel draws safespot b' _ IH Hrun
                 |b fuel l b' _ IH Hrun|b l b' _ IH Hrun|b r _ IH Hrun].
  - pose proof (NewBoard_params _ _ Hnew).
    apply NewBoard_Some in Hnew as (Hi & Hcs & _).
    constructor; [done|done|congruence..].
  - eapply board_inv_Initialize; [apply IH|done].
  - by eapply board_inv_Click.
  - by eapply board_inv_ToggleFlag.
  - by eapply board_inv_RevealAll.
Qed.

(** A reachable board with a cell on it has been initialized. *)
Lemma reachable_cell (b : Board) (l : Location) :
  reachable b → is_Some (cellAt b l) →
  initialized b = true ∧ grid_ok b ∧ scores_ok b ∧ closed b.
Proof.
  intros Hinv%reachable_inv [c Hc].
  destruct (initialized b) eqn:Hi; [by destruct Hinv; auto|].
  apply cellAt_slot in Hc as [Hc _]. unfold slot in Hc.
  rewrite (inv_blank _ Hinv Hi) in Hc. done.
Qed.

(** ** A click on a mine-free cell of score 0 *)

Lemma slotOf_inj (l l' : Location) :
  0 ≤ row l → 0 ≤ col l → 0 ≤ row l' → 0 ≤ col l' →
  slotOf l = slotOf l' → l = l'.
Proof.
  destruct l as [r c], l' as [r' c']. unfold slotOf; simpl.
  intros ? ? ? ? [= Hr Hc]. f_equal; lia.
Qed.

Lemma board_le_cellAt (b b' : Board) (l : Location) (c : cell) :
  board_le b b' → cellAt b l = Some c →
  ∃ c', cellAt b' l = Some c' ∧ cell_le c c'.
Proof.
  intros Hle [Hslot Hon]%cellAt_slot.
  pose proof (board_le_rows _ _ Hle) as [Hr Hc].
  destruct (board_le_slot _ _ _ _ Hle Hslot) as (c' & Hc' & Hcc).
  exists c'. split; [|done]. unfold cellAt.
  by rewrite decide_True by (unfold onBoard in *; by rewrite Hr, Hc).
Qed.

(** Every cell of the region of a mine-free zero is revealed and has all
    its neighbours revealed, on a closed board where the start is
    revealed. *)
Lemma region_revealed (b b' : Board) (l0 : Location) (c0 : cell) :
  grid_ok b → scores_ok b → board_le b b' → closed b' →
  cellAt b l0 = Some c0 → hasMine c0 = false →
  revealedAt b' (slotOf l0) = true →
  ∀ z, region b l0 z →
       revealedAt b' (slotOf z) = true ∧ closedAt b' (slotOf z).
Proof.
  intros Hg Hs Hle Hcl Hc0 Hm0 Hr0.
  assert (Hclose : ∀ z cz, cellAt b z = Some cz → score cz = 0 →
            hasMine cz = false → revealedAt b' (slotOf z) = true →
            closedAt b' (slotOf z)).
  { intros z cz Hz Hsc Hm Hrev.
    destruct (board_le_cellAt _ _ _ _ Hle Hz) as (cz' & Hz' & [Heq _]).
    apply cellAt_slot in Hz' as [Hz' _].
    apply (Hcl _ cz'); [done| |by rewrite Heq..].
    unfold revealedAt in Hrev. by rewrite Hz' in Hrev. }
  induction 1 as [(c & Hc & Hsc)|z z' Hz [IHr IHc] Hadj (cz' & Hz' & Hsc')].
  - split; [done|]. rewrite Hc0 in Hc. simplify_eq. by eapply Hclose.
  - apply region_zero in Hz as (cz & Hcz & Hscz).
    pose proof (cellAt_slot_loc _ _ _ Hcz) as [_ Hlz].
    pose proof (cellAt_slot_loc _ _ _ Hz') as [_ Hlz'].
    pose proof (board_le_rows _ _ Hle) as [Hrows Hcols].
    assert (revealedAt b' (slotOf z') = true) as Hrev.
    { apply IHc. apply elem_of_neighborSlots. rewrite Hlz, Hlz'.
      split; [|done]. apply cellAt_slot in Hz' as [_ Hon].
      unfold onBoard in *. by rewrite Hrows, Hcols. }
    split; [done|]. eapply Hclose; [done|done| |done].
    pose proof (Hs _ _ Hcz) as Hmoore. rewrite Hscz in Hmoore.
    symmetry in Hmoore.
    pose proof (proj1 (mooreMines_zero b z) Hmoore z' Hadj) as Hmine.
    unfold mineAt in Hmine. by rewrite Hz' in Hmine.
Qed.

(** The board after a click on an unrevealed, unflagged cell of score 0
    that holds no mine. *)
Lemma Click_flood_spec (b : Board) (l0 : Location) (c0 : cell) (fuel : nat) :
  reachable b →
  cellAt b l0 = Some c0 →
  revealed c0 = false → flagged c0 = false → score c0 = 0 →
  hasMine c0 = false →
  (unrevealed b ≤ fuel)%nat →
  ∃ b', Click fuel b l0 = Done b'
        ∧ board_le b b'
        ∧ (∀ l, flooded b l0 l → revealedAt b' (slotOf l) = true)
        ∧ (∀ l, is_Some (cellAt b l) → ¬ flooded b l0 l →
                revealedAt b' (slotOf l) = revealedAt b (slotOf l)).
Proof.
  intros Hreach Hc0 Hrev Hfl Hsc Hm Hfuel.
  destruct (reachable_cell b l0 Hreach) as (Hi & Hg & Hs & Hcl);
    [by eexists|].
  pose proof (cellAt_slot_loc _ _ _ Hc0) as [Hslot Hloc].
  set (p0 := slotOf l0) in *.
  pose proof (board_le_reveal b p0) as Hle0.
  pose proof (board_le_grid _ _ Hg Hle0) as Hg1.
  pose proof (unrevealed_reveal b p0 c0 Hslot Hrev) as Hcount.
  destruct (PropagateReveals_total fuel (reveal b p0) p0)
    as (b' & Hrun & Hle1); [done|by eapply board_le_is_Some; [|eexists]|lia|].
  pose proof (board_le_trans _ _ _ Hle0 Hle1) as Hle.
  exists b'. split.
  { rewrite Click_eq by done. rewrite Hc0, Hfl, Hrev, Hm.
    by rewrite bool_decide_eq_true_2. }
  split; [done|].
  apply PropagateReveals_visits in Hrun;
    [|done|by eapply board_le_is_Some; [|eexists]].
  rewrite (neighborSlots_frame b (reveal b p0)) in Hrun by done.
  assert (revealedAt b' p0 = true) as Hr0.
  { eapply board_le_revealedAt; [exact Hle1|].
    rewrite revealedAt_reveal by by eexists. by rewrite decide_True. }
  assert (closed b') as Hcl' by (eapply closed_flood; eauto).
  pose proof (region_revealed b b' l0 c0 Hg Hs Hle Hcl' Hc0 Hm Hr0) as Hreg.
  pose proof (board_le_rows _ _ Hle) as [Hrows Hcols].
  split.
  - intros l [Hl|[(c & Hc & _) (z & Hz & Hadj)]]; [by apply Hreg|].
    destruct (Hreg z Hz) as [_ Hclz]. apply Hclz.
    apply region_zero in Hz as (cz & Hcz & _).
    pose proof (cellAt_slot_loc _ _ _ Hcz) as [_ Hlz].
    pose proof (cellAt_slot_loc _ _ _ Hc) as [_ Hll].
    apply elem_of_neighborSlots. rewrite Hlz, Hll. split; [|done].
    apply cellAt_slot in Hc as [_ Hon].
    unfold onBoard in *. by rewrite Hrows, Hcols.
  - intros l [c Hc] Hnf.
    pose proof (cellAt_slot_loc _ _ _ Hc) as [Hcs Hll].
    destruct (revealedAt b (slotOf l)) eqn:Hbl;
      [by eapply board_le_revealedAt|].
    destruct (revealedAt b' (slotOf l)) eqn:Hbl'; [|done]. exfalso.
    destruct (visits_sound b l0 _ _ _ Hg Hrun l0) with (q := slotOf l)
      as [Hq|Hq]; try done.
    + by constructor; exists c0.
    + intros n [_ Hn]%elem_of_neighborSlots. by rewrite Hloc in Hn.
    + rewrite revealedAt_reveal in Hq by by eexists.
      case_decide as Heq; [|congruence].
      apply Hnf. left. assert (l = l0) as ->.
      { apply cellAt_slot in Hc as [_ [? ?]].
        apply cellAt_slot in Hc0 as [_ [? ?]].
        apply slotOf_inj; try lia. done. }
      by constructor; exists c0.
    + apply Hnf. by rewrite Hll in Hq.
Qed.

(** ** The propagation does not look at flags *)

Lemma forM_ext {A S : Type} (f g : S → A → outcome S) (l : list A) (s : S) :
  (∀ s x, f s x = g s x) → forM f l s = forM g l s.
Proof.
  intros Hfg. revert s; induction l as [|x l IH]; intros s; simpl; [done|].
  rewrite Hfg. destruct (g s x); simpl; auto.
Qed.

Lemma slot_reflag (φ : Location → bool) (b : Board) (p : ptr) :
  slot (cells (reflag φ b)) p = reflagCell φ <$> slot (cells b) p.
Proof.
  unfold slot, reflag; simpl. rewrite list_lookup_fmap.
  destruct (cells b !! p.1) as [line|]; simpl; [|done].
  by rewrite list_lookup_fmap.
Qed.

Lemma load_reflag (φ : Location → bool) (b : Board) (p : ptr) :
  load (reflag φ b) p = reflagCell φ <$> load b p.
Proof. unfold load. rewrite slot_reflag. by destruct (slot (cells b) p). Qed.

Lemma getCell_reflag (φ : Location → bool) (b : Board) (l : Location) :
  getCell (reflag φ b) l = getCell b l.
Proof.
  unfold getCell. rewrite slot_reflag. simpl.
  by destruct (slot (cells b) (slotOf l)).
Qed.

Lemma getNeighborCells_reflag (φ : Location → bool) (b : Board)
    (l : Location) :
  getNeighborCells (reflag φ b) l = getNeighborCells b l.
Proof.
  unfold getNeighborCells. rewrite getCell_reflag.
  destruct (getCell b l) as [[q|]| |]; try reflexivity.
  rewrite !bind_Done_l. f_equal. apply forM_ext. intros acc nrow.
  apply forM_ext. intros acc' ncol. cbn zeta.
  case_decide; [done|]. by rewrite getCell_reflag.
Qed.

Lemma poke_reflag (φ : Location → bool) (b : Board) (p : ptr) :
  poke (set_revealed true) (reflag φ b) p
  = reflag φ <$> poke (set_revealed true) b p.
Proof.
  unfold poke. rewrite slot_reflag.
  destruct (slot (cells b) p) as [c|]; simpl; [|done].
  unfold reflag, set_cells; simpl. do 2 f_equal. symmetry.
  apply list_fmap_alter, Forall_forall. intros line _.
  apply list_fmap_alter, Forall_forall. intros c' _. done.
Qed.

Lemma PropagateReveals_reflag (φ : Location → bool) (fuel : nat) (b : Board)
    (c : option ptr) :
  PropagateReveals fuel (reflag φ b) c = reflag φ <$> PropagateReveals fuel b c.
Proof.
  revert b c; induction fuel as [|fuel IH]; intros b [p|]; simpl; try done.
  rewrite load_reflag. destruct (load b p) as [cl| |]; simpl; try done.
  rewrite getNeighborCells_reflag.
  destruct (getNeighborCells b (location cl)) as [ns| |]; simpl; try done.
  generalize (rangeOf ns) as l. clear ns cl p.
  intros l; revert b; induction l as [|n l IHl]; intros b; [done|].
  cbn [forM].
  assert (Hstep :
    revealNeighbor (PropagateReveals fuel) (reflag φ b) n
    = reflag φ <$> revealNeighbor (PropagateReveals fuel) b n).
  { unfold revealNeighbor. rewrite load_reflag.
    destruct (load b n) as [nc| |]; simpl; try done.
    destruct (revealed nc); simpl; [done|].
    rewrite poke_reflag.
    destruct (poke (set_revealed true) b n) as [b1| |]; simpl; try done.
    case_bool_decide; simpl; [apply IH|done]. }
  rewrite Hstep.
  destruct (revealNeighbor (PropagateReveals fuel) b n) as [b1| |];
    simpl; done.
Qed.

(** ** The claims about clicks *)

(** C2, as amended. On an initialized board (its scores are then
    correct), a click on an unrevealed, unflagged cell of score 0 that holds
    no mine reveals the connected zero-score region of that cell and the
    region's immediate non-zero-score border, and the revealed status of
    every cell outside that set is unchanged; no other field of any cell
    changes. *)
Theorem Click_floods (b : Board) (l0 : Location) (c0 : cell) (fuel : nat) :
  reachable b →
  cellAt b l0 = Some c0 →
  revealed c0 = false → flagged c0 = false → score c0 = 0 →
  hasMine c0 = false →
  (unrevealed b ≤ fuel)%nat →
  ∃ b', Click fuel b l0 = Done b'
        ∧ ∀ l c, cellAt b l = Some c →
            ∃ c', cellAt b' l = Some c'
                  ∧ c' = set_revealed (revealed c') c
                  ∧ (flooded b l0 l → revealed c' = true)
                  ∧ (¬ flooded b l0 l → revealed c' = revealed c).
Proof.
  intros Hreach Hc0 Hrev Hfl Hsc Hm Hfuel.
  destruct (Click_flood_spec b l0 c0 fuel) as (b' & Hrun & Hle & Hin & Hout);
    try done.
  exists b'. split; [done|]. intros l c Hc.
  destruct (board_le_cellAt _ _ _ _ Hle Hc) as (c' & Hc' & [Heq _]).
  exists c'. split_and!; [done|done| |].
  - intros Hf. specialize (Hin l Hf). unfold revealedAt in Hin.
    apply cellAt_slot in Hc' as [Hc' _]. by rewrite Hc' in Hin.
  - intros Hf. specialize (Hout l ltac:(by eexists) Hf).
    unfold revealedAt in Hout.
    apply cellAt_slot in Hc' as [Hc' _]. apply cellAt_slot in Hc as [Hc _].
    by rewrite Hc', Hc in Hout.
Qed.

(** C10, as amended. Flags protect from direct clicks only: on an
    initialized board, after a click on an unrevealed, unflagged cell of
    score 0 that holds no mine, a flagged, unrevealed cell of the
    zero-score region of the clicked cell (or of its border) is revealed
    and still flagged; and the propagation never reads a flag: replacing
    the flags of the board replaces the flags of its result and nothing
    else. *)
Theorem flagged_cells_are_flooded (b : Board) (l0 l : Location) (c0 c : cell)
    (fuel : nat) :
  reachable b →
  cellAt b l0 = Some c0 →
  revealed c0 = false → flagged c0 = false → score c0 = 0 →
  hasMine c0 = false →
  (unrevealed b ≤ fuel)%nat →
  flooded b l0 l → cellAt b l = Some c →
  flagged c = true → revealed c = false →
  (∃ b', Click fuel b l0 = Done b'
         ∧ cellAt b' l = Some (set_revealed true c))
  ∧ (∀ φ fuel' b1 c1,
       PropagateReveals fuel' (reflag φ b1) c1
       = reflag φ <$> PropagateReveals fuel' b1 c1).
Proof.
  intros Hreach Hc0 Hrev Hfl Hsc Hm Hfuel Hf Hc Hflag Hrevc.
  split; [|intros; apply PropagateReveals_reflag].
  destruct (Click_flood_spec b l0 c0 fuel) as (b' & Hrun & Hle & Hin & _);
    try done.
  exists b'. split; [done|].
  destruct (board_le_cellAt _ _ _ _ Hle Hc) as (c' & Hc' & [Heq _]).
  rewrite Hc'. f_equal. rewrite Heq. f_equal.
  specialize (Hin l Hf). unfold revealedAt in Hin.
  apply cellAt_slot in Hc' as [Hc' _]. by rewrite Hc' in Hin.
Qed.

Lemma cellAt_exploded (b : Board) (p : ptr) (v : bool) (l : Location) :
  cellAt (set_explosionOccured v (reveal b p)) l
  = if decide (onBoard b l)
    then slot (alter (alter (set_revealed true) p.2) p.1 (cells b)) (slotOf l)
    else None.
Proof. reflexivity. Qed.

(** C6. A click on an unrevealed, unflagged cell that holds a mine makes
    [MineHit()] true and leaves [SafeRemaining()] as it was; it sets the
    clicked cell's [revealed] and the board's explosion flag and nothing
    else, whatever the fuel: no propagation is started. *)
Theorem Click_mine (b : Board) (l : Location) (c : cell) (fuel : nat) :
  reachable b →
  cellAt b l = Some c →
  revealed c = false → flagged c = false → hasMine c = true →
  ∃ b', Click fuel b l = Done b'
        ∧ Click 0 b l = Done b'
        ∧ MineHit b' = true
        ∧ SafeRemaining b' = SafeRemaining b
        ∧ b' = set_explosionOccured true (reveal b (slotOf l))
        ∧ cellAt b' l = Some (set_revealed true c)
        ∧ ∀ l', l' ≠ l → cellAt b' l' = cellAt b l'.
Proof.
  intros Hreach Hc Hrev Hfl Hm.
  destruct (reachable_cell b l Hreach) as (Hi & Hg & _); [by eexists|].
  exists (set_explosionOccured true (reveal b (slotOf l))).
  rewrite !Click_eq by done. rewrite Hc, Hfl, Hrev, Hm.
  split_and!; try done.
  - pose proof (cellAt_slot _ _ _ Hc) as [Hslot Hon].
    rewrite cellAt_exploded, decide_True by done.
    by rewrite slot_alter_eq, Hslot.
  - intros l' Hne. rewrite cellAt_exploded. unfold cellAt.
    destruct (decide (onBoard b l')) as [Hon'|Hoff]; [|done].
    + apply slot_alter_ne.
      intros Heq. apply Hne. symmetry.
      apply cellAt_slot in Hc as [_ [? ?]]. destruct Hon' as [? ?].
      apply slotOf_inj; try lia. done.
Qed.

(** C9. On a well-formed grid, in any state of its cells and from any
    cell of it, [PropagateReveals] returns once the fuel exceeds the number
    of unrevealed cells.  [revealed] is never cleared on the way; every
    nested call is on a cell that was unrevealed before the run and is
    revealed after it, no cell is entered twice, and the unrevealed cells
    decrease by at least the number of nested calls. *)
Theorem PropagateReveals_terminates (b : Board) (p : ptr) (fuel : nat) :
  grid_ok b → is_Some (slot (cells b) p) → (unrevealed b < fuel)%nat →
  ∃ b' tr,
    PropagateReveals fuel b (Some p) = Done b'
    ∧ PropagateRevealsT fuel b (Some p) = Done (b', tr)
    ∧ board_le b b'
    ∧ NoDup tr
    ∧ (∀ q, q ∈ tr → revealedAt b q = false ∧ revealedAt b' q = true)
    ∧ (unrevealed b' + length tr ≤ unrevealed b)%nat.
Proof.
  intros Hg Hp Hfuel.
  destruct (PropagateRevealsT_total fuel b p Hg Hp Hfuel)
    as (b' & tr & Hrun & [Hle Hnd Hfresh Hcount]).
  exists b', tr. rewrite PropagateRevealsT_erase, Hrun. by split_and!.
Qed.

(** [Click] never writes [safeRemaining]. *)
Lemma Click_safeRemaining (b b' : Board) (l : Location) (fuel : nat) :
  reachable b → Click fuel b l = Done b' →
  safeRemaining b' = safeRemaining b ∧ SafeRemaining b' = SafeRemaining b.
Proof.
  intros Hreach Hrun. pose proof (reachable_inv _ Hreach) as Hinv.
  destruct (initialized b) eqn:Hi.
  2:{ rewrite Click_blank in Hrun by by apply Hinv. case_decide; by inv_done. }
  pose proof (inv_grid _ Hinv Hi) as Hg.
  rewrite Click_eq in Hrun by done.
  assert (∀ b2, board_le b b2 →
            safeRemaining b2 = safeRemaining b
            ∧ SafeRemaining b2 = SafeRemaining b) as Hle.
  { intros b2 [Hf _]. unfold SafeRemaining.
    pose proof (f_equal safeRemaining Hf) as H1.
    pose proof (f_equal initialized Hf) as H2. simpl in *.
    by rewrite H1, H2. }
  destruct (cellAt b l) as [c|] eqn:Hc; [|by inv_done].
  destruct (flagged c); [by inv_done|].
  destruct (revealed c) eqn:Hrev; [by inv_done|].
  pose proof (board_le_reveal b (slotOf l)) as Hle0.
  destruct (hasMine c); [inv_done; by apply (Hle _ Hle0)|].
  case_bool_decide; [|inv_done; by apply Hle].
  apply cellAt_slot in Hc as [Hc _].
  apply PropagateReveals_visits in Hrun;
    [|by eapply board_le_grid|by eapply board_le_is_Some; [|eexists]].
  apply Hle. eapply board_le_trans; [done|by eapply visits_le].
Qed.

(** ** Concrete boards *)

Lemma easyBoard_new : NewBoard "easy" = Some easyBoard.
Proof. vm_compute. reflexivity. Qed.

Lemma sparseBoard_init :
  Initialize 1 sparseDraws easyBoard (NewLocation 4 4) = Done sparseBoard.
Proof. vm_compute. reflexivity. Qed.

Lemma denseBoard_init :
  Initialize 1 (λ _, 0) easyBoard (NewLocation 4 4) = Done denseBoard.
Proof. vm_compute. reflexivity. Qed.

Lemma sparseBoard_reachable : reachable sparseBoard.
Proof.
  eapply reach_Initialize; [|exact sparseBoard_init].
  eapply reach_NewBoard. exact easyBoard_new.
Qed.

Lemma flaggedBoard_reachable : reachable flaggedBoard.
Proof.
  eapply (reach_ToggleFlag sparseBoard (NewLocation 8 7));
    [exact sparseBoard_reachable|].
  vm_compute. reflexivity.
Qed.

Lemma flaggedBorderBoard_reachable : reachable flaggedBorderBoard.
Proof.
  eapply (reach_ToggleFlag sparseBoard (NewLocation 0 1));
    [exact sparseBoard_reachable|].
  vm_compute. reflexivity.
Qed.

Lemma sparseBoard_grid : grid_ok sparseBoard.
Proof.
  eapply (reachable_cell sparseBoard (NewLocation 0 0));
    [exact sparseBoard_reachable|].
  vm_compute. eauto.
Qed.

(** ** The claims the code does not meet *)

(** C1 (the code departs from it). [Click] reveals the mine-free cell
    (4,4) of [sparseBoard], and [SafeRemaining()] is 71 before and after:
    no reveal ever decrements the counter. *)
Example Click_reveal_keeps_SafeRemaining :
  ∃ b', Click 100 sparseBoard (NewLocation 4 4) = Done b'
        ∧ hasMine <$> cellAt sparseBoard (NewLocation 4 4) = Some false
        ∧ revealed <$> cellAt sparseBoard (NewLocation 4 4) = Some false
        ∧ revealed <$> cellAt b' (NewLocation 4 4) = Some true
        ∧ SafeRemaining sparseBoard = 71
        ∧ SafeRemaining b' = 71.
Proof.
  exists (boardOr easyBoard (Click 100 sparseBoard (NewLocation 4 4))).
  vm_compute. repeat split.
Qed.

(** Before [Initialize], a click or a flag on a location of the board
    indexes the nil grid. *)
Lemma Click_before_Initialize (name : string) (b : Board) (l : Location)
    (fuel : nat) :
  NewBoard name = Some b → ValidLocation b l = true →
  Click fuel b l = Panic ∧ ToggleFlag b l = Panic.
Proof.
  intros (_ & Hcs & _)%NewBoard_Some Hl%ValidLocation_onBoard.
  rewrite Click_blank, ToggleFlag_blank by done.
  by rewrite !decide_True by done.
Qed.

(** C7 (the code departs from it). On the board [NewBoard("easy")]
    returns, before any [Initialize], [Click] and [ToggleFlag] at the
    in-bounds location (0,0) index the nil grid and panic. *)
Example Click_uninitialized_panics :
  NewBoard "easy" = Some easyBoard
  ∧ Initialized easyBoard = false
  ∧ ValidLocation easyBoard (NewLocation 0 0) = true
  ∧ Click 100 easyBoard (NewLocation 0 0) = Panic
  ∧ ToggleFlag easyBoard (NewLocation 0 0) = Panic.
Proof. vm_compute. repeat split. Qed.

(** C2, counterexample. The cell (0,0) of [sparseBoard] is unrevealed,
    unflagged and has score 0, and it holds a mine; (0,1) lies on the
    border of its zero-score region, yet the click on (0,0) leaves (0,1)
    unrevealed. *)
Lemma mine_click_reveals_no_border :
  reachable sparseBoard
  ∧ scores_ok sparseBoard
  ∧ cellAt sparseBoard (NewLocation 0 0)
    = Some (mkCell (NewLocation 0 0) true 0 false false)
  ∧ flooded sparseBoard (NewLocation 0 0) (NewLocation 0 1)
  ∧ ∃ b', Click 100 sparseBoard (NewLocation 0 0) = Done b'
          ∧ revealed <$> cellAt b' (NewLocation 0 1) = Some false.
Proof.
  split_and!.
  - exact sparseBoard_reachable.
  - eapply (reachable_cell sparseBoard (NewLocation 0 0));
      [exact sparseBoard_reachable|vm_compute; eauto].
  - vm_compute. reflexivity.
  - right. split.
    + exists (cellOr (cellAt sparseBoard (NewLocation 0 1))).
      vm_compute. split; [reflexivity|discriminate].
    + exists (NewLocation 0 0). split.
      * apply region_start.
        exists (cellOr (cellAt sparseBoard (NewLocation 0 0))).
        vm_compute. by split.
      * unfold adjacent; simpl. split; [discriminate|lia].
  - exists (boardOr easyBoard (Click 100 sparseBoard (NewLocation 0 0))).
    vm_compute. by split.
Qed.

(** C10, counterexample. On [flaggedBorderBoard] the cell (0,0) is
    unrevealed, unflagged and has score 0, and it holds a mine; the
    flagged, unrevealed cell (0,1) lies on the border of its zero-score
    region, and the click on (0,0) leaves it unrevealed. *)
Lemma flagged_border_of_mine_stays_hidden :
  reachable flaggedBorderBoard
  ∧ cellAt flaggedBorderBoard (NewLocation 0 0)
    = Some (mkCell (NewLocation 0 0) true 0 false false)
  ∧ cellAt flaggedBorderBoard (NewLocation 0 1)
    = Some (mkCell (NewLocation 0 1) false 1 true false)
  ∧ flooded flaggedBorderBoard (NewLocation 0 0) (NewLocation 0 1)
  ∧ ∃ b', Click 100 flaggedBorderBoard (NewLocation 0 0) = Done b'
          ∧ cellAt b' (NewLocation 0 1)
            = Some (mkCell (NewLocation 0 1) false 1 true false).
Proof.
  split_and!.
  - exact flaggedBorderBoard_reachable.
  - vm_compute. reflexivity.
  - vm_compute. reflexivity.
  - right. split.
    + exists (cellOr (cellAt flaggedBorderBoard (NewLocation 0 1))).
      vm_compute. split; [reflexivity|discriminate].
    + exists (NewLocation 0 0). split.
      * apply region_start.
        exists (cellOr (cellAt flaggedBorderBoard (NewLocation 0 0))).
        vm_compute. by split.
      * unfold adjacent; simpl. split; [discriminate|lia].
  - exists (boardOr easyBoard
              (Click 100 flaggedBorderBoard (NewLocation 0 0))).
    vm_compute. by split.
Qed.

(** C5, counterexample. On [denseBoard] the cell (0,0) holds a mine and
    has score 2: the mines at (0,1) and (1,0) are counted. *)
Lemma mine_with_positive_score :
  NewBoard "easy" = Some easyBoard
  ∧ Initialize 1 (λ _, 0) easyBoard (NewLocation 4 4) = Done denseBoard
  ∧ cellAt denseBoard (NewLocation 0 0)
    = Some (mkCell (NewLocation 0 0) true 2 false false).
Proof. vm_compute. repeat split. Qed.

(** ** The theorems at concrete boards *)

Lemma Initialize_mines_witness :
  minesOn sparseBoard = mineCount easyBoard
  ∧ (∃ c, cellAt sparseBoard (NewLocation 4 4) = Some c ∧ hasMine c = false)
  ∧ SafeRemaining sparseBoard
    = rows easyBoard * cols easyBoard - mineCount easyBoard.
Proof.
  apply (Initialize_mines "easy" easyBoard sparseBoard (NewLocation 4 4) 1
           sparseDraws); vm_compute; reflexivity.
Defined.

Lemma Initialize_scores_witness :
  score (cellOr (cellAt sparseBoard (NewLocation 4 4)))
  = mooreMines sparseBoard (NewLocation 4 4).
Proof.
  apply (Initialize_scores "easy" easyBoard sparseBoard (NewLocation 4 4) 1
           sparseDraws); vm_compute; reflexivity.
Defined.

Lemma Initialize_mine_scores_witness :
  score (cellOr (cellAt denseBoard (NewLocation 0 0)))
  = mooreMines denseBoard (NewLocation 0 0)
  ∧ (score (cellOr (cellAt denseBoard (NewLocation 0 0))) = 0
     ↔ ∀ nl, adjacent (NewLocation 0 0) nl → mineAt denseBoard nl = false).
Proof.
  apply (Initialize_mine_scores "easy" easyBoard denseBoard (NewLocation 4 4) 1
           (λ _, 0)); vm_compute; reflexivity.
Defined.

Lemma Click_floods_witness :
  ∃ b', Click 100 sparseBoard (NewLocation 8 8) = Done b'
        ∧ ∀ l c, cellAt sparseBoard l = Some c →
            ∃ c', cellAt b' l = Some c'
                  ∧ c' = set_revealed (revealed c') c
                  ∧ (flooded sparseBoard (NewLocation 8 8) l
                     → revealed c' = true)
                  ∧ (¬ flooded sparseBoard (NewLocation 8 8) l
                     → revealed c' = revealed c).
Proof.
  apply (Click_floods sparseBoard (NewLocation 8 8)
           (cellOr (cellAt sparseBoard (NewLocation 8 8))) 100).
  - exact sparseBoard_reachable.
  - vm_compute. reflexivity.
  - vm_compute. reflexivity.
  - vm_compute. reflexivity.
  - vm_compute. reflexivity.
  - vm_compute. reflexivity.
  - vm_compute. lia.
Defined.

Lemma flagged_cells_are_flooded_witness :
  (∃ b', Click 100 flaggedBoard (NewLocation 8 8) = Done b'
         ∧ cellAt b' (NewLocation 8 7)
           = Some (set_revealed true
                     (cellOr (cellAt flaggedBoard (NewLocation 8 7)))))
  ∧ (∀ φ fuel' b1 c1,
       PropagateReveals fuel' (reflag φ b1) c1
       = reflag φ <$> PropagateReveals fuel' b1 c1).
Proof.
  apply (flagged_cells_are_flooded flaggedBoard (NewLocation 8 8)
           (NewLocation 8 7)
           (cellOr (cellAt flaggedBoard (NewLocation 8 8)))
           (cellOr (cellAt flaggedBoard (NewLocation 8 7))) 100).
  - exact flaggedBoard_reachable.
  - vm_compute. reflexivity.
  - vm_compute. reflexivity.
  - vm_compute. reflexivity.
  - vm_compute. reflexivity.
  - vm_compute. reflexivity.
  - vm_compute. lia.
  - left. eapply region_step.
    + apply region_start.
      exists (cellOr (cellAt flaggedBoard (NewLocation 8 8))).
      vm_compute. split; reflexivity.
    + unfold adjacent; simpl. split; [discriminate|lia].
    + exists (cellOr (cellAt flaggedBoard (NewLocation 8 7))).
      vm_compute. split; reflexivity.
  - vm_compute. reflexivity.
  - vm_compute. reflexivity.
  - vm_compute. reflexivity.
Defined.

Lemma Click_mine_witness :
  ∃ b', Click 100 sparseBoard (NewLocation 0 0) = Done b'
        ∧ Click 0 sparseBoard (NewLocation 0 0) = Done b'
        ∧ MineHit b' = true
        ∧ SafeRemaining b' = SafeRemaining sparseBoard
        ∧ b' = set_explosionOccured true
                 (reveal sparseBoard (slotOf (NewLocation 0 0)))
        ∧ cellAt b' (NewLocation 0 0)
          = Some (set_revealed true
                    (cellOr (cellAt sparseBoard (NewLocation 0 0))))
        ∧ ∀ l', l' ≠ NewLocation 0 0 → cellAt b' l' = cellAt sparseBoard l'.
Proof.
  apply (Click_mine sparseBoard (NewLocation 0 0)
           (cellOr (cellAt sparseBoard (NewLocation 0 0))) 100).
  - exact sparseBoard_reachable.
  - vm_compute. reflexivity.
  - vm_compute. reflexivity.
  - vm_compute. reflexivity.
  - vm_compute. reflexivity.
Defined.

Lemma PropagateReveals_terminates_witness :
  ∃ b' tr,
    PropagateReveals 82 sparseBoard (Some (8, 8)%nat) = Done b'
    ∧ PropagateRevealsT 82 sparseBoard (Some (8, 8)%nat) = Done (b', tr)
    ∧ board_le sparseBoard b'
    ∧ NoDup tr
    ∧ (∀ q, q ∈ tr → revealedAt sparseBoard q = false
                      ∧ revealedAt b' q = true)
    ∧ (unrevealed b' + length tr ≤ unrevealed sparseBoard)%nat.
Proof.
  apply (PropagateReveals_terminates sparseBoard (8, 8)%nat 82).
  - exact sparseBoard_grid.
  - vm_compute. eauto.
  - vm_compute. lia.
Defined.

(** * Further properties of the board *)

(** ** Cell lookup and neighbourhoods *)

Lemma reachable_grid (b : Board) :
  reachable b → initialized b = true → grid_ok b.
Proof. intros Hinv%reachable_inv Hi. by apply Hinv. Qed.

(** On an initialized board [getCell] never panics: it returns a cell
    exactly for the locations [ValidLocation] accepts, and the cell it
    returns records the location asked for. *)
Theorem getCell_on_board (b : Board) (l : Location) :
  reachable b → initialized b = true →
  getCell b l = Done (if ValidLocation b l then Some (slotOf l) else None)
  ∧ (ValidLocation b l = true →
     ∃ c, load b (slotOf l) = Done c ∧ location c = l).
Proof.
  intros Hreach Hi. pose proof (reachable_grid b Hreach Hi) as Hg.
  rewrite getCell_ok by done. split.
  - destruct (ValidLocation b l) eqn:Hv.
    + apply ValidLocation_onBoard in Hv. by rewrite decide_True.
    + rewrite decide_False; [done|]. intros Hon%ValidLocation_onBoard.
      congruence.
  - intros Hon%ValidLocation_onBoard.
    destruct (proj2 (cellAt_is_Some b l Hg) Hon) as [c Hc].
    apply cellAt_slot_loc in Hc as [Hslot Hloc]. exists c. split.
    + by apply load_Done.
    + rewrite (grid_locs b Hg _ _ Hslot). done.
Qed.

Lemma NoDup_neighborLocs (l : Location) : NoDup (neighborLocs l).
Proof.
  destruct l as [r c]. unfold neighborLocs; simpl.
  repeat (apply NoDup_cons; split;
    [rewrite ?elem_of_cons, elem_of_nil; intros H; destruct_or!;
       simplify_eq; lia|]).
  constructor.
Qed.

Lemma NoDup_neighborSlots (b : Board) (l : Location) :
  NoDup (neighborSlots b l).
Proof.
  unfold neighborSlots. apply NoDup_fmap_2_strong.
  - intros x y [[? ?] _]%list_elem_of_filter [[? ?] _]%list_elem_of_filter.
    apply slotOf_inj; lia.
  - apply NoDup_filter, NoDup_neighborLocs.
Qed.

(** On an initialized board [getNeighborCells] returns nil for a centre
    off the board and otherwise the cells of the board adjacent to the
    centre, each once and never the centre itself: at most eight, and all
    eight for a centre away from the rim. *)
Theorem getNeighborCells_spec (b : Board) (l : Location) :
  reachable b → initialized b = true →
  if ValidLocation b l then
    ∃ ns, getNeighborCells b l = Done (Some ns)
          ∧ NoDup ns ∧ (length ns ≤ 8)%nat
          ∧ (∀ q, q ∈ ns ↔
                  ValidLocation b (locOf q) = true ∧ adjacent l (locOf q))
          ∧ (0 < row l < rows b - 1 → 0 < col l < cols b - 1 →
             length ns = 8%nat)
  else getNeighborCells b l = Done None.
Proof.
  intros Hreach Hi. pose proof (reachable_grid b Hreach Hi) as Hg.
  destruct (ValidLocation b l) eqn:Hv.
  - apply ValidLocation_onBoard in Hv.
    exists (neighborSlots b l). split_and!.
    + by apply getNeighborCells_ok.
    + apply NoDup_neighborSlots.
    + apply length_neighborSlots.
    + intros q. rewrite elem_of_neighborSlots, ValidLocation_onBoard. done.
    + intros Hr Hc. unfold neighborSlots, neighborLocs.
      rewrite length_fmap.
      rewrite !filter_cons_True by (unfold onBoard; simpl; lia). done.
  - unfold getNeighborCells. rewrite getCell_ok by done.
    rewrite decide_False; [done|]. intros Hon%ValidLocation_onBoard.
    congruence.
Qed.

(** ** Flags *)

Lemma board_eq (b b' : Board) :
  set_cells [] b' = set_cells [] b → cells b' = cells b → b' = b.
Proof.
  destruct b, b'. unfold set_cells; simpl. intros [= -> -> -> -> -> -> -> ->] ->.
  done.
Qed.

Lemma alter_slot_id (f : cell → cell) (cs : list (list cell)) (p : ptr) :
  (∀ c, slot cs p = Some c → f c = c) →
  alter (alter f p.2) p.1 cs = cs.
Proof.
  intros Hf. apply list_eq. intros r. rewrite list_lookup_alter.
  case_decide as Hr; [|done]. subst r.
  destruct (cs !! p.1) as [line|] eqn:Hline; [|done]. simpl. f_equal.
  apply list_eq. intros k. rewrite list_lookup_alter.
  case_decide as Hk; [|done]. subst k.
  destruct (line !! p.2) as [c|] eqn:Hc; [|done]. simpl. f_equal.
  apply Hf. unfold slot. by rewrite Hline.
Qed.

Lemma alter_slot_twice (f g : cell → cell) (cs : list (list cell)) (p : ptr) :
  alter (alter f p.2) p.1 (alter (alter g p.2) p.1 cs)
  = alter (alter (f ∘ g) p.2) p.1 cs.
Proof.
  rewrite list_alter_alter_eq. apply list_alter_ext; [|done].
  intros line _. simpl. apply list_alter_alter_eq.
Qed.

Lemma ToggleFlag_cells (b b' : Board) (l : Location) :
  reachable b → ToggleFlag b l = Done b' →
  set_cells [] b' = set_cells [] b
  ∧ ∀ l' c, cellAt b l' = Some c →
      cellAt b' l'
      = Some (if decide (l' = l)
              then if revealed c then c else set_flagged (negb (flagged c)) c
              else c).
Proof.
  intros Hreach Hrun.
  destruct (initialized b) eqn:Hi.
  2:{ rewrite ToggleFlag_blank in Hrun
        by by apply (reachable_inv b Hreach).
      case_decide as Hon; inv_done. split; [done|].
      intros l' c Hc. rewrite Hc. case_decide; [|done]. subst l'.
      apply cellAt_slot in Hc as [_ ?]. done. }
  pose proof (reachable_grid b Hreach Hi) as Hg.
  rewrite ToggleFlag_eq in Hrun by done.
  destruct (cellAt b l) as [c0|] eqn:Hc0.
  2:{ inv_done. split; [done|]. intros l' c Hc. rewrite Hc.
      case_decide; [congruence|done]. }
  destruct (revealed c0) eqn:Hrev.
  { inv_done. split; [done|]. intros l' c Hc. rewrite Hc.
    case_decide; [|done]. subst. rewrite Hc0 in Hc. simplify_eq.
    by rewrite Hrev. }
  inv_done. split; [done|]. intros l' c Hc.
  pose proof (cellAt_slot _ _ _ Hc) as [Hslot Hon].
  unfold cellAt. cbn [rows cols cells set_cells].
  change (onBoard (set_cells _ b) l') with (onBoard b l').
  rewrite decide_True by done. cbn [cells set_cells].
  change (Z.to_nat (col l)) with ((slotOf l).2).
  change (Z.to_nat (row l)) with ((slotOf l).1).
  rewrite slot_alter. case_decide as Hl.
  - assert (l' = l) as ->.
    { apply cellAt_slot in Hc0 as [_ [? ?]]. destruct Hon as [? ?].
      apply slotOf_inj; try lia. done. }
    rewrite decide_True by done. rewrite Hc0 in Hc. simplify_eq.
    by rewrite Hslot, Hrev.
  - rewrite decide_False; [done|]. by intros ->.
Qed.

(** [ToggleFlag] changes no field of the board other than [cells], and in
    the grid nothing but the [flagged] field of the cell at its location,
    which it flips when that cell is not revealed. *)
Theorem ToggleFlag_spec (b b' : Board) (l : Location) :
  reachable b → ToggleFlag b l = Done b' →
  set_cells [] b' = set_cells [] b
  ∧ ∀ l' c, cellAt b l' = Some c →
      cellAt b' l'
      = Some (if decide (l' = l)
              then if revealed c then c else set_flagged (negb (flagged c)) c
              else c).
Proof. apply ToggleFlag_cells. Qed.

(** Two [ToggleFlag] at the same location give back the board they
    started from. *)
Theorem ToggleFlag_twice (b b1 : Board) (l : Location) :
  reachable b → ToggleFlag b l = Done b1 → ToggleFlag b1 l = Done b.
Proof.
  intros Hreach Hrun.
  destruct (initialized b) eqn:Hi.
  2:{ rewrite ToggleFlag_blank in Hrun
        by by apply (reachable_inv b Hreach).
      case_decide as Hon; inv_done.
      rewrite ToggleFlag_blank by by apply (reachable_inv b1 Hreach).
      by rewrite decide_False. }
  pose proof (reachable_grid b Hreach Hi) as Hg.
  pose proof (reach_ToggleFlag _ _ _ Hreach Hrun) as Hreach1.
  pose proof (ToggleFlag_cells _ _ _ Hreach Hrun) as [Hf Hcells].
  assert (initialized b1 = true) as Hi1.
  { apply (f_equal initialized) in Hf. simpl in Hf. congruence. }
  pose proof (reachable_grid b1 Hreach1 Hi1) as Hg1.
  rewrite ToggleFlag_eq in Hrun |- * by done.
  destruct (cellAt b l) as [c0|] eqn:Hc0.
  2:{ inv_done. by rewrite Hc0. }
  rewrite (Hcells l c0 Hc0), decide_True by done.
  destruct (revealed c0) eqn:Hrev.
  { inv_done. rewrite Hrev. done. }
  inv_done. cbn [revealed set_flagged]. rewrite Hrev. f_equal.
  apply board_eq; [done|]. cbn [cells set_cells].
  change (Z.to_nat (col l)) with ((slotOf l).2).
  change (Z.to_nat (row l)) with ((slotOf l).1).
  rewrite alter_slot_twice. apply alter_slot_id.
  intros c Hc. apply cellAt_slot in Hc0 as [Hs _]. rewrite Hs in Hc.
  simplify_eq. destruct c as [? ? ? [] ?]; done.
Qed.

(** ** Clicks *)

(** What a click that returns has done, case by case. *)
Lemma Click_cases (fuel : nat) (b b' : Board) (l : Location) :
  reachable b → Click fuel b l = Done b' →
  match cellAt b l with
  | None => b' = b ∧ ∀ fuel', Click fuel' b l = Done b
  | Some c =>
      grid_ok b ∧ initialized b = true
      ∧ if flagged c then b' = b
        else if revealed c then b' = b
        else if hasMine c
             then b' = set_explosionOccured true (reveal b (slotOf l))
        else if bool_decide (score c = 0)
             then visits (reveal b (slotOf l)) (neighborSlots b l) b'
        else b' = reveal b (slotOf l)
  end.
Proof.
  intros Hreach Hrun. pose proof (reachable_inv b Hreach) as Hinv.
  destruct (initialized b) eqn:Hi.
  2:{ assert (cellAt b l = None) as ->.
      { destruct (cellAt b l) eqn:Hc; [|done].
        destruct (reachable_cell b l Hreach) as [? _]; [by eexists|congruence]. }
      rewrite Click_blank in Hrun by by apply Hinv.
      case_decide as Hon; inv_done. split; [done|]. intros fuel'.
      rewrite Click_blank by by apply Hinv. by rewrite decide_False. }
  pose proof (inv_grid _ Hinv Hi) as Hg.
  rewrite Click_eq in Hrun by done.
  destruct (cellAt b l) as [c|] eqn:Hc.
  2:{ inv_done. split; [done|]. intros fuel'.
      rewrite Click_eq by done. by rewrite Hc. }
  split; [done|]. split; [done|].
  apply cellAt_slot_loc in Hc as [Hslot Hloc].
  destruct (flagged c); [by inv_done|].
  destruct (revealed c) eqn:Hrev; [by inv_done|].
  destruct (hasMine c) eqn:Hm; [by inv_done|].
  case_bool_decide as Hz; [|by inv_done].
  pose proof (board_le_reveal b (slotOf l)) as Hle.
  apply PropagateReveals_visits in Hrun;
    [|by eapply board_le_grid|by eapply board_le_is_Some; [|eexists]].
  rewrite (neighborSlots_frame b (reveal b (slotOf l))) in Hrun by done.
  by rewrite Hloc in Hrun.
Qed.

(** A click keeps every field of the board but [explosionOccured] and the
    grid, and in the grid it only reveals. *)
Lemma Click_le (fuel : nat) (b b' : Board) (l : Location) :
  reachable b → Click fuel b l = Done b' →
  board_le (set_explosionOccured (explosionOccured b') b) b'
  ∧ (explosionOccured b = true → explosionOccured b' = true).
Proof.
  intros Hreach Hrun. pose proof (Click_cases _ _ _ _ Hreach Hrun) as Hcase.
  assert (∀ b, board_le (set_explosionOccured (explosionOccured b) b) b)
    as Hrefl.
  { intros b0. replace (set_explosionOccured _ b0) with b0 by by destruct b0.
    apply board_le_refl. }
  destruct (cellAt b l) as [c|] eqn:Hc.
  2:{ destruct Hcase as [-> _]. done. }
  destruct Hcase as (Hg & Hi & Hcase).
  destruct (flagged c); [by subst|].
  destruct (revealed c) eqn:Hrev; [by subst|].
  pose proof (board_le_reveal b (slotOf l)) as [Hf Hcs].
  destruct (hasMine c) eqn:Hm.
  { subst b'. split; [|done]. constructor; [done|exact Hcs]. }
  assert (board_le b b') as [Hf' Hcs'].
  { case_bool_decide.
    - eapply board_le_trans; [by constructor|by eapply visits_le].
    - subst b'. by constructor. }
  assert (explosionOccured b' = explosionOccured b) as He
    by (apply (f_equal explosionOccured) in Hf'; done).
  rewrite He. split; [|done]. constructor; [|exact Hcs'].
  rewrite Hf'. by destruct b.
Qed.

Lemma cell_le_revealed (c c' : cell) :
  cell_le c c' → revealed c' = revealed c → c' = c.
Proof. intros [-> _] Heq. destruct c; simpl in *. by rewrite Heq. Qed.

Lemma cellAt_inj (b : Board) (l l' : Location) :
  is_Some (cellAt b l) → is_Some (cellAt b l') →
  slotOf l = slotOf l' → l = l'.
Proof.
  intros [c [_ [? ?]]%cellAt_slot] [c' [_ [? ?]]%cellAt_slot].
  apply slotOf_inj; lia.
Qed.

Lemma zero_neighbors_safe (b : Board) (z l : Location) :
  scores_ok b → zeroAt b z → adjacent z l → mineAt b l = false.
Proof.
  intros Hs (c & Hc & Hz) Hadj. apply (mooreMines_zero b z); [|done].
  by rewrite <- (Hs _ _ Hc).
Qed.

(** No cell of the region of a mine-free zero, and none of its border,
    holds a mine. *)
Lemma flooded_no_mine (b : Board) (l0 l : Location) (c0 : cell) :
  scores_ok b → cellAt b l0 = Some c0 → hasMine c0 = false →
  flooded b l0 l → mineAt b l = false.
Proof.
  intros Hs Hc0 Hm0 [Hreg|[_ (z & Hz & Hadj)]].
  - destruct Hreg as [_|z l' Hz Hadj _].
    + unfold mineAt. by rewrite Hc0.
    + apply region_zero in Hz. by eapply zero_neighbors_safe.
  - apply region_zero in Hz. by eapply zero_neighbors_safe.
Qed.

(** [Click] touches nothing but [revealed] flags and [explosionOccured]:
    every other field of the board and of each cell is kept, no revealed
    cell is hidden again, [MineHit] is never cleared, and it is raised
    only by a click on an unflagged, unrevealed mine. *)
Theorem Click_frame (fuel : nat) (b b' : Board) (l : Location) :
  reachable b → Click fuel b l = Done b' →
  set_cells [] (set_explosionOccured false b')
  = set_cells [] (set_explosionOccured false b)
  ∧ (MineHit b = true → MineHit b' = true)
  ∧ (MineHit b' = true →
     MineHit b = true
     ∨ ∃ c, cellAt b l = Some c ∧ hasMine c = true
            ∧ flagged c = false ∧ revealed c = false)
  ∧ ∀ l' c, cellAt b l' = Some c →
      ∃ c', cellAt b' l' = Some c' ∧ c' = set_revealed (revealed c') c
            ∧ (revealed c = true → revealed c' = true).
Proof.
  intros Hreach Hrun.
  destruct (Click_le _ _ _ _ Hreach Hrun) as [Hle Hex].
  split_and!.
  - pose proof (le_fields _ _ Hle) as Hf.
    apply (f_equal (set_explosionOccured false)) in Hf. exact Hf.
  - exact Hex.
  - intros Hhit. pose proof (Click_cases _ _ _ _ Hreach Hrun) as Hcase.
    destruct (cellAt b l) as [c|] eqn:Hc.
    2:{ destruct Hcase as [-> _]. by left. }
    destruct Hcase as (_ & _ & Hcase).
    destruct (flagged c) eqn:Hfl; [subst; by left|].
    destruct (revealed c) eqn:Hrev; [subst; by left|].
    destruct (hasMine c) eqn:Hm; [right; by exists c|]. left.
    assert (board_le b b') as Hle'.
    { case_bool_decide.
      - eapply board_le_trans; [apply board_le_reveal|by eapply visits_le].
      - subst b'. apply board_le_reveal. }
    apply le_fields, (f_equal explosionOccured) in Hle'. simpl in Hle'.
    unfold MineHit in *. congruence.
  - intros l' c Hc.
    destruct (board_le_cellAt _ _ l' c Hle) as (c' & Hc' & Heq & Hmono);
      [exact Hc|].
    by exists c'.
Qed.

(** A second click on the same location changes nothing, whatever the
    first one did. *)
Theorem Click_twice (fuel fuel' : nat) (b b1 : Board) (l : Location) :
  reachable b → Click fuel b l = Done b1 → Click fuel' b1 l = Done b1.
Proof.
  intros Hreach Hrun.
  pose proof (Click_cases _ _ _ _ Hreach Hrun) as Hcase.
  destruct (Click_le _ _ _ _ Hreach Hrun) as [Hle _].
  pose proof (reach_Click _ _ _ _ Hreach Hrun) as Hreach1.
  destruct (cellAt b l) as [c|] eqn:Hc.
  2:{ destruct Hcase as [-> Hsame]. apply Hsame. }
  destruct Hcase as (Hg & Hi & Hcase).
  destruct (board_le_cellAt _ _ l c Hle) as (c1 & Hc1 & Heq & Hmono);
    [exact Hc|].
  destruct (reachable_cell b1 l Hreach1) as (_ & Hg1 & _); [by eexists|].
  rewrite Click_eq, Hc1 by done.
  assert (flagged c1 = flagged c) as -> by by rewrite Heq.
  destruct (flagged c); [done|].
  destruct (revealed c) eqn:Hrev; [by rewrite Hmono|].
  assert (revealedAt b1 (slotOf l) = true) as Hr1.
  { assert (revealedAt (reveal b (slotOf l)) (slotOf l) = true) as Hr.
    { apply cellAt_slot in Hc as [Hs _].
      rewrite revealedAt_reveal by by eexists. by rewrite decide_True. }
    destruct (hasMine c).
    - subst b1. exact Hr.
    - case_bool_decide.
      + eapply board_le_revealedAt; [by eapply visits_le|done].
      + by subst b1. }
  apply cellAt_slot in Hc1 as [Hs1 _]. unfold revealedAt in Hr1.
  rewrite Hs1 in Hr1. by rewrite Hr1.
Qed.

(** A click on a cell without a mine never sets [MineHit] and leaves
    every cell that holds a mine exactly as it was: the propagation stops
    short of the mines. *)
Theorem Click_uncovers_no_mine (fuel : nat) (b b' : Board) (l : Location)
    (c : cell) :
  reachable b → cellAt b l = Some c → hasMine c = false →
  Click fuel b l = Done b' →
  MineHit b' = MineHit b
  ∧ ∀ l' c', cellAt b l' = Some c' → hasMine c' = true →
             cellAt b' l' = Some c'.
Proof.
  intros Hreach Hc Hm Hrun.
  pose proof (Click_cases _ _ _ _ Hreach Hrun) as Hcase.
  rewrite Hc, Hm in Hcase. destruct Hcase as (Hg & Hi & Hcase).
  destruct (reachable_cell b l Hreach) as (_ & _ & Hs & _); [by eexists|].
  pose proof (cellAt_slot_loc _ _ _ Hc) as [Hslot Hloc].
  assert (board_le b b'
          ∧ ∀ q, revealedAt b' q = true →
                 revealedAt b q = true ∨ q = slotOf l
                 ∨ flooded b l (locOf q)) as [Hle Hnew].
  { destruct (flagged c); [subst; split; [apply board_le_refl|auto]|].
    destruct (revealed c) eqn:Hrev;
      [subst; split; [apply board_le_refl|auto]|].
    assert (∀ q, revealedAt (reveal b (slotOf l)) q = true →
                 revealedAt b q = true ∨ q = slotOf l) as Hone.
    { intros q. rewrite revealedAt_reveal by by eexists.
      destruct (decide (slotOf l = q)) as [Hpq|_]; [by right|by left]. }
    case_bool_decide as Hz.
    - split.
      + eapply board_le_trans; [apply board_le_reveal|by eapply visits_le].
      + intros q Hq.
        destruct (visits_sound b l _ _ _ Hg Hcase l) with (q := q)
          as [Hq'|Hq']; try done.
        * apply board_le_reveal.
        * by constructor; exists c.
        * intros n [_ Hn]%elem_of_neighborSlots. done.
        * destruct (Hone q Hq'); auto.
        * auto.
    - subst b'. split; [apply board_le_reveal|].
      intros q Hq. destruct (Hone q Hq); auto. }
  split.
  { apply le_fields, (f_equal explosionOccured) in Hle. exact Hle. }
  intros l' c' Hc' Hm'.
  destruct (board_le_cellAt _ _ l' c' Hle Hc') as (c1 & Hc1 & Hcle).
  rewrite Hc1. f_equal. apply cell_le_revealed; [done|].
  destruct (revealed c') eqn:Hrev'; [by apply Hcle|].
  destruct (revealed c1) eqn:Hrev1; [exfalso|done].
  pose proof (cellAt_slot_loc _ _ _ Hc') as [Hslot' Hloc'].
  destruct (Hnew (slotOf l')) as [Hq|[Hq|Hq]].
  - apply cellAt_slot in Hc1 as [Hs1 _]. unfold revealedAt.
    by rewrite Hs1.
  - unfold revealedAt in Hq. rewrite Hslot' in Hq. congruence.
  - assert (l' = l) as -> by (apply (cellAt_inj b); by try eexists).
    congruence.
  - rewrite Hloc' in Hq.
    pose proof (flooded_no_mine b l l' c Hs Hc Hm Hq) as Hno.
    unfold mineAt in Hno. rewrite Hc' in Hno. congruence.
Qed.

(** A click changes the board exactly when it lands on a cell of the
    board that is neither flagged nor revealed; every other click, off the
    board included, is ignored. *)
Theorem Click_changes_iff (fuel : nat) (b b' : Board) (l : Location) :
  reachable b → Click fuel b l = Done b' →
  b' ≠ b ↔ ∃ c, cellAt b l = Some c ∧ flagged c = false ∧ revealed c = false.
Proof.
  intros Hreach Hrun.
  pose proof (Click_cases _ _ _ _ Hreach Hrun) as Hcase.
  destruct (Click_le _ _ _ _ Hreach Hrun) as [Hle _].
  destruct (cellAt b l) as [c|] eqn:Hc.
  2:{ destruct Hcase as [-> _]. split; [done|]. by intros (? & ? & _). }
  destruct Hcase as (Hg & Hi & Hcase).
  destruct (flagged c) eqn:Hfl.
  { subst. split; [done|]. intros (? & ? & ? & _). congruence. }
  destruct (revealed c) eqn:Hrev.
  { subst. split; [done|]. intros (? & ? & _ & ?). congruence. }
  split; [by exists c|]. intros _ ->.
  apply cellAt_slot in Hc as [Hs _].
  assert (revealedAt (reveal b (slotOf l)) (slotOf l) = true) as Hr.
  { rewrite revealedAt_reveal by by eexists. by rewrite decide_True. }
  assert (revealedAt b (slotOf l) = true) as Hr'.
  { destruct (hasMine c).
    - by rewrite Hcase.
    - case_bool_decide.
      + eapply board_le_revealedAt; [by eapply visits_le|done].
      + by rewrite Hcase. }
  unfold revealedAt in Hr'. rewrite Hs in Hr'. congruence.
Qed.

(** A click on an unflagged, unrevealed cell without a mine and with a
    score other than 0 reveals that cell and nothing else, with any
    fuel. *)
Theorem Click_numbered_cell (fuel : nat) (b : Board) (l : Location)
    (c : cell) :
  reachable b → cellAt b l = Some c →
  revealed c = false → flagged c = false → hasMine c = false →
  score c ≠ 0 →
  ∃ b', Click fuel b l = Done b'
        ∧ MineHit b' = MineHit b
        ∧ SafeRemaining b' = SafeRemaining b
        ∧ cellAt b' l = Some (set_revealed true c)
        ∧ ∀ l', l' ≠ l → cellAt b' l' = cellAt b l'.
Proof.
  intros Hreach Hc Hrev Hfl Hm Hsc.
  destruct (reachable_cell b l Hreach) as (Hi & Hg & _); [by eexists|].
  exists (reveal b (slotOf l)). split.
  { rewrite Click_eq, Hc, Hfl, Hrev, Hm by done.
    by rewrite bool_decide_eq_false_2. }
  split; [done|]. split; [done|].
  pose proof (cellAt_slot _ _ _ Hc) as [Hs Hon].
  assert (∀ l', cellAt (reveal b (slotOf l)) l'
                = if decide (onBoard b l')
                  then slot (alter (alter (set_revealed true) (slotOf l).2)
                                   (slotOf l).1 (cells b)) (slotOf l')
                  else None) as Hcell by done.
  split.
  - rewrite Hcell, decide_True, slot_alter_eq, Hs by done. done.
  - intros l' Hne. rewrite Hcell. unfold cellAt.
    case_decide as Hon'; [|done]. rewrite slot_alter_ne; [done|].
    intros Heq. apply Hne. symmetry.
    destruct Hon, Hon'. apply slotOf_inj; try lia. done.
Qed.

(** ** RevealAll *)

Lemma Forall2_eq_on {A : Type} (R : A → A → Prop) (l l' : list A) :
  Forall2 R l l' → (∀ x y, x ∈ l → R x y → y = x) → l' = l.
Proof.
  induction 1 as [|x y l l' Hxy _ IH]; intros HR; [done|]. f_equal.
  - apply HR; [by left|done].
  - apply IH. intros x' y' Hx'. apply HR. by right.
Qed.

(** Once every cell is revealed, reveals change nothing. *)
Lemma board_le_all_revealed (b b' : Board) :
  board_le b b' →
  (∀ p c, slot (cells b) p = Some c → revealed c = true) → b' = b.
Proof.
  intros [Hf Hcs] Hall. apply board_eq; [done|].
  apply (Forall2_eq_on _ _ _ Hcs). intros line line' Hline Hlines.
  apply list_elem_of_lookup in Hline as [r Hr].
  apply (Forall2_eq_on _ _ _ Hlines). intros c c' Hc Hle.
  apply list_elem_of_lookup in Hc as [k Hk].
  assert (slot (cells b) (r, k) = Some c) as Hs
    by (unfold slot; simpl; by rewrite Hr).
  apply cell_le_revealed; [done|].
  pose proof (Hall _ _ Hs) as Hrev. rewrite Hrev. by apply Hle.
Qed.

Lemma RevealAll_run (b : Board) :
  initialized b = true → grid_ok b →
  ∃ b', RevealAll b = Done (b', true)
        ∧ board_le b b'
        ∧ ∀ p c, slot (cells b') p = Some c → revealed c = true.
Proof.
  intros Hi Hg. unfold RevealAll. rewrite Hi. simpl.
  destruct (revealAll_loop (gridSlots (cells b)) b) as (b' & Hrun & Hle & Hall).
  { apply Forall_forall. intros p. by rewrite elem_of_gridSlots. }
  exists b'. rewrite Hrun. split; [done|]. split; [done|].
  intros p c Hp. specialize (Hall p). unfold revealedAt in Hall.
  rewrite Hp in Hall. apply Hall, elem_of_gridSlots.
  destruct (board_le_slot_r _ _ _ _ Hle Hp) as (c0 & ? & _). by eexists.
Qed.

(** On an initialized board [RevealAll] returns without error; it sets
    [revealed] in every cell and changes nothing else, so that no cell is
    left unrevealed, and a second [RevealAll] changes nothing at all. *)
Theorem RevealAll_reveals_all (b : Board) :
  reachable b → initialized b = true →
  ∃ b', RevealAll b = Done (b', true)
        ∧ set_cells [] b' = set_cells [] b
        ∧ (∀ l c, cellAt b l = Some c →
                  cellAt b' l = Some (set_revealed true c))
        ∧ unrevealed b' = 0%nat
        ∧ RevealAll b' = Done (b', true).
Proof.
  intros Hreach Hi. pose proof (reachable_grid b Hreach Hi) as Hg.
  destruct (RevealAll_run b Hi Hg) as (b' & Hrun & Hle & Hall).
  exists b'. split; [done|]. split; [by destruct Hle|]. split_and!.
  - intros l c Hc.
    destruct (board_le_cellAt _ _ _ _ Hle Hc) as (c' & Hc' & Heq & _).
    rewrite Hc'. f_equal. rewrite Heq. f_equal.
    apply cellAt_slot in Hc' as [Hs _]. by apply (Hall _ _ Hs).
  - apply countCells_none. intros p c Hp. by rewrite (Hall _ _ Hp).
  - assert (initialized b' = true) as Hi'.
    { destruct Hle as [Hf _]. apply (f_equal initialized) in Hf.
      simpl in Hf. congruence. }
    pose proof (board_le_grid _ _ Hg Hle) as Hg'.
    destruct (RevealAll_run b' Hi' Hg') as (b'' & Hrun' & Hle' & _).
    by rewrite (board_le_all_revealed _ _ Hle' Hall) in Hrun'.
Qed.

(** [RevealAll] is irreversible: afterwards every click and every flag
    toggle leaves the board as it is. *)
Theorem RevealAll_freezes (b b' : Board) (fuel : nat) (l : Location) :
  reachable b → RevealAll b = Done (b', true) →
  Click fuel b' l = Done b' ∧ ToggleFlag b' l = Done b'.
Proof.
  intros Hreach Hrun.
  destruct (initialized b) eqn:Hi.
  2:{ unfold RevealAll in Hrun. rewrite Hi in Hrun. simpl in Hrun.
      by inv_done. }
  pose proof (reachable_grid b Hreach Hi) as Hg.
  destruct (RevealAll_run b Hi Hg) as (b1 & Hrun1 & Hle & Hall).
  rewrite Hrun1 in Hrun. simplify_eq.
  pose proof (board_le_grid _ _ Hg Hle) as Hg'.
  rewrite Click_eq, ToggleFlag_eq by done.
  destruct (cellAt b' l) as [c|] eqn:Hc; [|done].
  apply cellAt_slot in Hc as [Hs _]. rewrite (Hall _ _ Hs).
  by destruct (flagged c).
Qed.

(** ** What [Initialize] keeps and what it records *)

Section PlacementLog.
Variable draws : nat → Z.
Variable safespot : Location.
Variable b0 : Board.
Hypothesis Hmines : 0 ≤ mineCount b0 ≤ 2 ^ 31.

Lemma placeAt_log (st st' : placing) (p : ptr) :
  place_inv b0 safespot st → place_log b0 st →
  is_Some (slot (cells (pl_board st)) p) →
  placeAt draws safespot st p = Done st' →
  place_log b0 st'.
Proof.
  intros Hinv Hlog [cl Hcl] Hrun. unfold placeAt in Hrun.
  case_bool_decide as Hleft; [by inv_done|].
  case_decide as Hsafe; [by inv_done|].
  case_bool_decide as Hshot;
    [|inv_done; destruct Hlog; by constructor].
  pose proof (pi_grid _ _ _ Hinv) as Hg.
  rewrite getCell_ok in Hrun by done.
  rewrite decide_True in Hrun
    by (apply grid_slot_onBoard; [done|by eexists]).
  rewrite bind_Done_l, slotOf_locOf in Hrun.
  apply bind_Done in Hrun as (cl' & Hload & Hrun).
  apply load_Done in Hload. rewrite Hcl in Hload. simplify_eq.
  destruct (hasMine cl') eqn:Hmine;
    [inv_done; destruct Hlog; by constructor|].
  apply bind_Done in Hrun as (b1 & Hpoke & Hrun).
  apply poke_Done in Hpoke as [_ ->]. inv_done.
  destruct Hlog as [Hd He Hi (new & Hnew & Hnd & Hlen & Hin)].
  pose proof (pi_left _ _ _ Hinv) as Hl.
  pose proof (pi_placed _ _ _ Hinv) as Hp.
  assert (0 ≤ minesOn (pl_board st)) by (unfold minesOn; lia).
  constructor; simpl; try done.
  exists (new ++ [locOf p]). split_and!.
  - by rewrite Hnew, (assoc_L (++)).
  - apply NoDup_app. split_and!; [done| |apply NoDup_singleton].
    intros l Hl1 ->%list_elem_of_singleton. apply Hin in Hl1.
    unfold mineAt in Hl1. rewrite cellAt_locOf, Hcl in Hl1 by done.
    congruence.
  - rewrite length_app. simpl. unfold intSub.
    rewrite wrap_small by (unfold minInt, maxInt; lia). lia.
  - intros l. rewrite elem_of_app, list_elem_of_singleton, Hin.
    unfold mineAt at 2, cellAt. simpl.
    change (onBoard _ l) with (onBoard (pl_board st) l) at 1.
    unfold mineAt, cellAt.
    destruct (decide (onBoard (pl_board st) l)) as [Hon|Hoff].
    + rewrite slot_alter. destruct Hon as [? ?].
      destruct (decide (p = slotOf l)) as [->|Hne].
      * rewrite Hcl. simpl. split; [done|]. intros _. right.
        by rewrite locOf_slotOf by lia.
      * split; [by intros [?| ->]; [|by rewrite slotOf_locOf in Hne]|].
        by left.
    + split; [by intros [?| ->]; [|exfalso; apply Hoff, grid_slot_onBoard;
                                   [done|by eexists]]|done].
Qed.

Lemma place_scan_log (st st' : placing) :
  place_inv b0 safespot st → place_log b0 st →
  forM (placeAt draws safespot) (gridSlots (cells (pl_board st))) st
    = Done st' →
  place_log b0 st'.
Proof.
  intros Hinv Hlog Hrun.
  apply (forM_invariant _
           (λ _ s, place_inv b0 safespot s ∧ place_log b0 s) _ _
           (conj Hinv Hlog)) in Hrun; [by destruct Hrun|].
  intros done p todo s1 s2 Hl [Hs1 Hlog1] Hstep.
  assert (is_Some (slot (cells (pl_board s1)) p)) as Hp.
  { assert (p ∈ gridSlots (cells (pl_board st))) as Hp.
    { rewrite Hl. apply elem_of_app. right. by left. }
    apply elem_of_gridSlots in Hp.
    apply grid_slot_is_Some; [by destruct Hs1|].
    apply grid_slot_is_Some in Hp; [|by destruct Hinv].
    destruct Hs1, Hinv. congruence. }
  split.
  - by eapply placeAt_inv.
  - by eapply placeAt_log.
Qed.

Lemma placeMines_log (fuel : nat) (st st' : placing) :
  place_inv b0 safespot st → place_log b0 st →
  placeMines draws safespot fuel st = Done st' →
  place_log b0 st'.
Proof.
  revert st; induction fuel as [|fuel IH]; intros st Hinv Hlog Hrun;
    simpl in Hrun.
  - case_bool_decide; [done|]. by inv_done.
  - case_bool_decide; [|by inv_done].
    inv_done. eapply IH; [| |done].
    + by eapply place_scan_inv.
    + by eapply place_scan_log.
Qed.
End PlacementLog.

Lemma Initialize_log (fuel : nat) (draws : nat → Z) (b b' : Board)
    (safespot : Location) :
  params_ok b → Initialize fuel draws b safespot = Done b' →
  difficulty b' = difficulty b
  ∧ explosionOccured b' = explosionOccured b
  ∧ ∃ new, mines b' = mines b ++ new ∧ NoDup new
           ∧ Z.of_nat (length new) = mineCount b
           ∧ ∀ l, l ∈ new ↔ mineAt b' l = true.
Proof.
  intros (Hr & Hc & Hm) Hrun. unfold Initialize in Hrun.
  destruct (makeCells_ok b Hr Hc) as (cs & Hcs & Hg0 & Hfresh).
  rewrite Hcs, bind_Done_l in Hrun.
  apply bind_Done in Hrun as (st & Hplace & Hrun).
  apply bind_Done in Hrun as (b2 & Hscore & Hrun). inv_done.
  set (st0 := mkPlacing (set_safeRemaining (intMul (rows b) (cols b))
                          (set_cells cs b)) (mineCount b) 0) in *.
  assert (Hinv0 : place_inv b safespot st0).
  { assert (minesOn (set_cells cs b) = 0) as Hzero.
    { unfold minesOn; simpl. rewrite countCells_none; [done|].
      intros p c Hp. by rewrite (Hfresh _ _ Hp). }
    unfold minesOn in Hzero; simpl in Hzero.
    constructor; simpl; try done.
    - by eapply grid_ok_ext; [| | |exact Hg0].
    - lia.
    - unfold minesOn; simpl. lia.
    - unfold minesOn, intMul; simpl.
      rewrite wrap_small by (unfold minInt, maxInt; nia). lia.
    - intros p c Hp. by rewrite (Hfresh _ _ Hp). }
  assert (Hlog0 : place_log b st0).
  { constructor; simpl; try done. exists []. split_and!.
    - by rewrite app_nil_r.
    - constructor.
    - simpl. lia.
    - intros l. rewrite elem_of_nil. split; [done|]. unfold mineAt.
      destruct (cellAt _ l) as [c|] eqn:Hcl; [|done].
      apply cellAt_slot in Hcl as [Hcl _]. simpl in Hcl.
      by rewrite (Hfresh _ _ Hcl). }
  pose proof (placeMines_log draws safespot b Hm _ _ _ Hinv0 Hlog0 Hplace)
    as [Hd He _ (new & Hnew & Hnd & Hlen & Hin)].
  apply (placeMines_inv draws safespot b Hm) in Hplace as [Hinv Hleft];
    [|exact Hinv0].
  pose proof (pi_grid _ _ _ Hinv) as Hg1.
  apply initializeScores_ok in Hscore as Hsc; [|done].
  pose proof Hsc as [_ Hf2 _ _].
  split_and!.
  - simpl. apply (f_equal difficulty) in Hf2. simpl in Hf2. congruence.
  - simpl. apply (f_equal explosionOccured) in Hf2. simpl in Hf2.
    congruence.
  - exists new. split_and!.
    + simpl. apply (f_equal mines) in Hf2. simpl in Hf2. congruence.
    + done.
    + lia.
    + intros l. rewrite Hin. rewrite <- (scoring_mineAt _ b2 _ l Hg1 Hsc).
      done.
Qed.

(** ** What no method changes *)

Lemma step_reachable (b b' : Board) : reachable b → step b b' → reachable b'.
Proof.
  intros Hreach Hstep.
  destruct Hstep as [b0 fuel draws safespot b1 Hrun|b0 fuel l b1 Hrun
                    |b0 l b1 Hrun|b0 r Hrun].
  - exact (reach_Initialize _ _ _ _ _ Hreach Hrun).
  - exact (reach_Click _ _ _ _ Hreach Hrun).
  - exact (reach_ToggleFlag _ _ _ Hreach Hrun).
  - exact (reach_RevealAll _ _ Hreach Hrun).
Qed.

(** The methods other than [Initialize] keep every field of the board
    but the grid and, for [Click], [explosionOccured], which is never
    cleared. *)
Lemma play_fields (b b' : Board) :
  reachable b →
  (∃ fuel l, Click fuel b l = Done b')
  ∨ (∃ l, ToggleFlag b l = Done b')
  ∨ (∃ r, RevealAll b = Done r ∧ b' = r.1) →
  set_cells [] (set_explosionOccured false b')
  = set_cells [] (set_explosionOccured false b)
  ∧ (explosionOccured b = true → explosionOccured b' = true).
Proof.
  intros Hreach [(fuel & l & Hrun)|[(l & Hrun)|(r & Hrun & ->)]].
  - destruct (Click_le _ _ _ _ Hreach Hrun) as [Hle Hex]. split; [|done].
    pose proof (le_fields _ _ Hle) as Hf.
    apply (f_equal (set_explosionOccured false)) in Hf. exact Hf.
  - pose proof (reachable_inv b Hreach) as Hinv.
    destruct (initialized b) eqn:Hi.
    2:{ rewrite ToggleFlag_blank in Hrun by by apply Hinv.
        case_decide; by inv_done. }
    rewrite ToggleFlag_eq in Hrun by by apply Hinv.
    destruct (cellAt b l) as [c|]; [|by inv_done].
    destruct (revealed c); by inv_done.
  - apply RevealAll_spec in Hrun.
    destruct (initialized b); [|by subst].
    destruct Hrun as (_ & [Hf _] & _). split.
    + apply (f_equal (set_explosionOccured false)) in Hf. exact Hf.
    + apply (f_equal explosionOccured) in Hf. simpl in Hf. congruence.
Qed.

(** No method changes the difficulty, the dimensions or the mine count of
    a board; none makes an initialized board uninitialized; and none
    clears [MineHit], [Initialize] included: a board on which a mine went
    off stays lost whatever is called on it. *)
Theorem step_keeps_parameters (b b' : Board) :
  reachable b → step b b' →
  difficulty b' = difficulty b
  ∧ rows b' = rows b ∧ cols b' = cols b ∧ mineCount b' = mineCount b
  ∧ (Initialized b = true → Initialized b' = true)
  ∧ (MineHit b = true → MineHit b' = true).
Proof.
  intros Hreach Hstep.
  assert (set_cells [] (set_explosionOccured false b')
          = set_cells [] (set_explosionOccured false b)
          ∧ (explosionOccured b = true → explosionOccured b' = true) →
          difficulty b' = difficulty b
          ∧ rows b' = rows b ∧ cols b' = cols b ∧ mineCount b' = mineCount b
          ∧ (Initialized b = true → Initialized b' = true)
          ∧ (MineHit b = true → MineHit b' = true)) as Hplay.
  { intros [Hf Hex]. split_and!; [..|done].
    - by apply (f_equal difficulty) in Hf.
    - by apply (f_equal rows) in Hf.
    - by apply (f_equal cols) in Hf.
    - by apply (f_equal mineCount) in Hf.
    - apply (f_equal initialized) in Hf. unfold Initialized. simpl in Hf.
      congruence. }
  destruct Hstep as [b0 fuel draws safespot b1 Hrun|b0 fuel l b1 Hrun
                    |b0 l b1 Hrun|b0 r Hrun].
  - pose proof (inv_params _ (reachable_inv _ Hreach)) as Hp.
    destruct (Initialize_log _ _ _ _ _ Hp Hrun) as (Hd & He & _).
    apply Initialize_spec in Hrun as (_ & Hr & Hc & Hm & Hi & _); [|done].
    unfold MineHit, Initialized. split_and!; try done. congruence.
  - apply Hplay, play_fields; [done|]. left. eauto.
  - apply Hplay, play_fields; [done|]. right. left. eauto.
  - apply Hplay, play_fields; [done|]. right. right. eauto.
Qed.

Lemma reachable_preset_eq (b : Board) :
  reachable b →
  presetTable (difficulty b) = Some (rows b, cols b, mineCount b).
Proof.
  induction 1 as [name b Hnew|b fuel draws safespot b' Hreach IH Hrun
                 |b fuel l b' Hreach IH Hrun|b l b' Hreach IH Hrun
                 |b r Hreach IH Hrun].
  - by apply NewBoard_cases in Hnew as [->|[->| ->]].
  - pose proof (inv_params _ (reachable_inv _ Hreach)) as Hp.
    destruct (Initialize_log _ _ _ _ _ Hp Hrun) as (Hd & _).
    apply Initialize_spec in Hrun as (_ & Hr & Hc & Hm & _); [|done].
    by rewrite Hd, Hr, Hc, Hm.
  - destruct (play_fields b b' Hreach) as [Hf _]; [left; eauto|].
    replace (difficulty b') with (difficulty b)
      by by apply (f_equal difficulty) in Hf.
    replace (rows b') with (rows b) by by apply (f_equal rows) in Hf.
    replace (cols b') with (cols b) by by apply (f_equal cols) in Hf.
    by replace (mineCount b') with (mineCount b)
      by by apply (f_equal mineCount) in Hf.
  - destruct (play_fields b b' Hreach) as [Hf _]; [right; left; eauto|].
    replace (difficulty b') with (difficulty b)
      by by apply (f_equal difficulty) in Hf.
    replace (rows b') with (rows b) by by apply (f_equal rows) in Hf.
    replace (cols b') with (cols b) by by apply (f_equal cols) in Hf.
    by replace (mineCount b') with (mineCount b)
      by by apply (f_equal mineCount) in Hf.
  - destruct (play_fields b r.1 Hreach) as [Hf _]; [right; right; eauto|].
    replace (difficulty r.1) with (difficulty b)
      by by apply (f_equal difficulty) in Hf.
    replace (rows r.1) with (rows b) by by apply (f_equal rows) in Hf.
    replace (cols r.1) with (cols b) by by apply (f_equal cols) in Hf.
    by replace (mineCount r.1) with (mineCount b)
      by by apply (f_equal mineCount) in Hf.
Qed.

Lemma reachable_safeRemaining (b : Board) :
  reachable b → initialized b = true →
  safeRemaining b = rows b * cols b - mineCount b.
Proof.
  induction 1 as [name b Hnew|b fuel draws safespot b' Hreach IH Hrun
                 |b fuel l b' Hreach IH Hrun|b l b' Hreach IH Hrun
                 |b r Hreach IH Hrun]; intros Hi.
  - apply NewBoard_Some in Hnew as (? & _). congruence.
  - pose proof (inv_params _ (reachable_inv _ Hreach)) as Hp.
    apply Initialize_spec in Hrun as (_ & Hr & Hc & Hm & _ & _ & Hs & _);
      [|done].
    by rewrite Hs, Hr, Hc, Hm.
  - destruct (play_fields b b' Hreach) as [Hf _]; [left; eauto|].
    replace (safeRemaining b') with (safeRemaining b)
      by by apply (f_equal safeRemaining) in Hf.
    replace (rows b') with (rows b) by by apply (f_equal rows) in Hf.
    replace (cols b') with (cols b) by by apply (f_equal cols) in Hf.
    replace (mineCount b') with (mineCount b)
      by by apply (f_equal mineCount) in Hf.
    apply IH. apply (f_equal initialized) in Hf. simpl in Hf. congruence.
  - destruct (play_fields b b' Hreach) as [Hf _]; [right; left; eauto|].
    replace (safeRemaining b') with (safeRemaining b)
      by by apply (f_equal safeRemaining) in Hf.
    replace (rows b') with (rows b) by by apply (f_equal rows) in Hf.
    replace (cols b') with (cols b) by by apply (f_equal cols) in Hf.
    replace (mineCount b') with (mineCount b)
      by by apply (f_equal mineCount) in Hf.
    apply IH. apply (f_equal initialized) in Hf. simpl in Hf. congruence.
  - destruct (play_fields b r.1 Hreach) as [Hf _]; [right; right; eauto|].
    replace (safeRemaining r.1) with (safeRemaining b)
      by by apply (f_equal safeRemaining) in Hf.
    replace (rows r.1) with (rows b) by by apply (f_equal rows) in Hf.
    replace (cols r.1) with (cols b) by by apply (f_equal cols) in Hf.
    replace (mineCount r.1) with (mineCount b)
      by by apply (f_equal mineCount) in Hf.
    apply IH. apply (f_equal initialized) in Hf. simpl in Hf. congruence.
Qed.

(** Every board the program can reach has the difficulty name, the
    dimensions and the mine count of one of the three presets. *)
Theorem reachable_preset (b : Board) :
  reachable b →
  presetTable (difficulty b) = Some (rows b, cols b, mineCount b).
Proof. apply reachable_preset_eq. Qed.

(** [SafeRemaining] takes one value on all the initialized boards of a
    difficulty, however many cells have been revealed: rows * cols -
    mineCount, that is 71, 226 or 408.  It is 0 before [Initialize] and
    never afterwards. *)
Theorem SafeRemaining_constant (b : Board) :
  reachable b →
  SafeRemaining b
  = (if Initialized b then rows b * cols b - mineCount b else 0)
  ∧ (Initialized b = true →
     SafeRemaining b = 71 ∨ SafeRemaining b = 226 ∨ SafeRemaining b = 408).
Proof.
  intros Hreach. unfold SafeRemaining, Initialized.
  destruct (initialized b) eqn:Hi; simpl; [|done].
  rewrite (reachable_safeRemaining b Hreach Hi). split; [done|]. intros _.
  pose proof (reachable_preset_eq b Hreach) as Hp. unfold presetTable in Hp.
  repeat case_decide; try done; injection Hp as <- <- <-; lia.
Qed.

Lemma reachable_counts (b : Board) :
  reachable b →
  0 < rows b ≤ 30 ∧ 0 < cols b ≤ 16 ∧ 0 < mineCount b < rows b * cols b.
Proof.
  intros Hp%reachable_preset_eq. unfold presetTable in Hp.
  repeat case_decide; try done; injection Hp as <- <- <-; lia.
Qed.


(** [Initialize] starts from a grid of its own: whatever had been
    revealed or flagged on the board before, after it every location of
    the board holds a cell that knows its location and is neither
    revealed nor flagged. *)
Theorem Initialize_fresh_grid (fuel : nat) (draws : nat → Z)
    (b b' : Board) (safespot l : Location) :
  reachable b → Initialize fuel draws b safespot = Done b' →
  Initialized b' = true
  ∧ ValidLocation b' l = ValidLocation b l
  ∧ if ValidLocation b l
    then ∃ c, cellAt b' l = Some c ∧ location c = l
              ∧ revealed c = false ∧ flagged c = false
    else cellAt b' l = None.
Proof.
  intros Hreach Hrun.
  pose proof (inv_params _ (reachable_inv _ Hreach)) as Hp.
  apply Initialize_spec in Hrun as (Hg & Hr & Hc & _ & Hi & _ & _ & Hcells);
    [|done].
  split; [done|].
  assert (ValidLocation b' l = ValidLocation b l) as Hv
    by (unfold ValidLocation; by rewrite Hr, Hc).
  split; [done|]. rewrite <- Hv.
  destruct (ValidLocation b' l) eqn:Hon.
  - apply ValidLocation_onBoard in Hon.
    destruct (proj2 (cellAt_is_Some b' l Hg) Hon) as [c Hcl].
    exists c. split; [done|].
    apply cellAt_slot_loc in Hcl as [Hs Hloc].
    destruct (Hcells _ _ Hs) as (_ & ? & ? & _).
    by rewrite (grid_locs b' Hg _ _ Hs).
  - unfold cellAt. rewrite decide_False; [done|].
    intros Hon'%ValidLocation_onBoard. congruence.
Qed.

(** Whether [Initialize] returns is up to the random source: with draws
    that are never below 2 the placement loop runs for ever, and with
    draws that always are it ends after one scan of the grid. *)
Theorem Initialize_depends_on_draws (draws : nat → Z) (b : Board)
    (safespot : Location) :
  reachable b →
  ((∀ k, 2 ≤ draws k) → ∀ fuel, Initialize fuel draws b safespot = OutOfFuel)
  ∧ ((∀ k, draws k < 2) → ∃ b', Initialize 1 draws b safespot = Done b').
Proof.
  intros Hreach.
  pose proof (inv_params _ (reachable_inv _ Hreach)) as Hp.
  pose proof (reachable_counts b Hreach) as (_ & _ & Hm).
  split.
  - intros Hmiss fuel. destruct Hp as (Hr & Hc & _).
    unfold Initialize. destruct (makeCells_ok b Hr Hc) as (cs & -> & _).
    rewrite bind_Done_l. simpl.
    rewrite placeMines_no_hit by (done || lia). done.
  - intros Hhit. by apply Initialize_all_hit.
Qed.

(** ** The order of clicks *)

Lemma cellAt_revealedAt (b : Board) (l : Location) (c : cell) :
  cellAt b l = Some c → revealedAt b (slotOf l) = revealed c.
Proof. intros [Hs _]%cellAt_slot. unfold revealedAt. by rewrite Hs. Qed.

(** The flood from a mine-free zero reveals the flooded cells and no
    others, whatever the fuel it ran with. *)
Lemma flood_exact (b b' : Board) (l : Location) (c : cell) :
  reachable b → cellAt b l = Some c →
  revealed c = false → hasMine c = false → score c = 0 →
  visits (reveal b (slotOf l)) (neighborSlots b l) b' →
  board_le b b'
  ∧ ∀ l', is_Some (cellAt b l') →
          revealedAt b' (slotOf l') = true
          ↔ revealedAt b (slotOf l') = true ∨ flooded b l l'.
Proof.
  intros Hreach Hc Hrev Hm Hsc Hrun.
  destruct (reachable_cell b l Hreach) as (Hi & Hg & Hs & Hcl);
    [by eexists|].
  pose proof (cellAt_slot_loc _ _ _ Hc) as [Hslot Hloc].
  pose proof (board_le_reveal b (slotOf l)) as Hle0.
  pose proof (visits_le _ _ _ Hrun) as Hle1.
  pose proof (board_le_trans _ _ _ Hle0 Hle1) as Hle.
  split; [done|].
  assert (revealedAt b' (slotOf l) = true) as Hr0.
  { eapply board_le_revealedAt; [exact Hle1|].
    rewrite revealedAt_reveal by by eexists. by rewrite decide_True. }
  assert (closed b') as Hcl'.
  { eapply (closed_flood b b' (slotOf l) c); try done.
    by rewrite Hloc. }
  pose proof (region_revealed b b' l c Hg Hs Hle Hcl' Hc Hm Hr0) as Hreg.
  pose proof (board_le_rows _ _ Hle) as [Hrows Hcols].
  intros l' [c' Hc']. pose proof (cellAt_slot_loc _ _ _ Hc') as [Hcs Hll].
  split.
  - intros Hq.
    destruct (visits_sound b l _ _ _ Hg Hrun l) with (q := slotOf l')
      as [Hq'|Hq']; try done.
    + by constructor; exists c.
    + by intros n [_ Hn]%elem_of_neighborSlots.
    + rewrite revealedAt_reveal in Hq' by by eexists.
      case_decide as Heq; [|by left]. right. left.
      assert (l' = l) as -> by (apply (cellAt_inj b); by try eexists).
      by constructor; exists c.
    + right. by rewrite Hll in Hq'.
  - intros [Hq|Hq]; [by eapply board_le_revealedAt|].
    destruct Hq as [Hq|[_ (z & Hz & Hadj)]]; [by apply Hreg|].
    destruct (Hreg z Hz) as [_ Hclz]. apply Hclz.
    apply region_zero in Hz as (cz & Hcz & _).
    pose proof (cellAt_slot_loc _ _ _ Hcz) as [_ Hlz].
    apply elem_of_neighborSlots. rewrite Hlz, Hll. split; [|done].
    apply cellAt_slot in Hc' as [_ Hon].
    unfold onBoard in *. by rewrite Hrows, Hcols.
Qed.

(** What a click reveals and when it sets [explosionOccured]. *)
Lemma Click_result (fuel : nat) (b b' : Board) (l : Location) :
  reachable b → Click fuel b l = Done b' →
  (explosionOccured b' = true
   ↔ explosionOccured b = true ∨ ∃ c, clickable b l c ∧ hasMine c = true)
  ∧ ∀ l', is_Some (cellAt b l') →
          revealedAt b' (slotOf l') = true
          ↔ revealedAt b (slotOf l') = true ∨ touched b l l'.
Proof.
  intros Hreach Hrun.
  pose proof (Click_cases _ _ _ _ Hreach Hrun) as Hcase.
  unfold touched, clickable.
  destruct (cellAt b l) as [c|] eqn:Hc.
  2:{ destruct Hcase as [-> _].
      split; [|intros l' _]; (split; [by left|]);
        by intros [?|(? & (? & _) & _)]. }
  destruct Hcase as (Hg & Hi & Hcase).
  destruct (flagged c) eqn:Hfl.
  { subst b'. split; [|intros l' _]; (split; [by left|]);
      intros [?|(c1 & (? & ? & _) & _)]; [done|congruence..]. }
  destruct (revealed c) eqn:Hrev.
  { subst b'. split; [|intros l' _]; (split; [by left|]);
      intros [?|(c1 & (? & _ & ?) & _)]; [done|congruence..]. }
  pose proof (cellAt_slot _ _ _ Hc) as [Hslot _].
  assert (∀ l', is_Some (cellAt b l') →
                revealedAt (reveal b (slotOf l)) (slotOf l') = true
                ↔ revealedAt b (slotOf l') = true ∨ l' = l) as Hone.
  { intros l' Hl'. rewrite revealedAt_reveal by by eexists.
    destruct (decide (slotOf l = slotOf l')) as [Heq|Hne].
    - split; [|done]. intros _. right. symmetry.
      apply (cellAt_inj b l l'); [by eexists|done|done].
    - split; [by left|]. intros [?| ->]; done. }
  destruct (hasMine c) eqn:Hm.
  { subst b'. split.
    - split; [|done]. intros _. right. by exists c.
    - intros l' Hl'.
      change (revealedAt (set_explosionOccured true _) ?q)
        with (revealedAt (reveal b (slotOf l)) q).
      rewrite (Hone l' Hl'). split.
      + intros [?| ->]; [by left|]. right. exists c. split; [done|by left].
      + intros [?|(c1 & (? & _) & [ ->|(? & _)])]; [by left|by right|].
        congruence. }
  case_bool_decide as Hz.
  - destruct (flood_exact b b' l c Hreach Hc Hrev Hm Hz Hcase)
      as [Hle Hflood].
    split.
    + apply le_fields, (f_equal explosionOccured) in Hle. simpl in Hle.
      rewrite Hle. split; [by left|].
      intros [?|(c1 & (? & _) & ?)]; [done|congruence].
    + intros l' Hl'. rewrite (Hflood l' Hl'). split.
      * intros [?|Hf]; [by left|]. right. exists c.
        split; [done|]. by right.
      * intros [?|(c1 & (? & _) & [ ->|(_ & _ & Hf)])]; [by left| |by right].
        right. left. by constructor; exists c.
  - subst b'. split.
    + split; [by left|]. intros [?|(c1 & (? & _) & ?)]; [done|congruence].
    + intros l' Hl'. rewrite (Hone l' Hl'). split.
      * intros [?| ->]; [by left|]. right. exists c. split; [done|by left].
      * intros [?|(c1 & (? & _) & [ ->|(_ & ? & _)])]; [by left|by right|].
        congruence.
Qed.

Lemma region_trans (b : Board) (l0 l1 z : Location) :
  region b l0 l1 → region b l1 z → region b l0 z.
Proof.
  intros H01. induction 1 as [_|z z' _ IH Hadj Hz]; [done|].
  by eapply region_step.
Qed.

Lemma flooded_trans (b : Board) (l0 l1 z : Location) :
  region b l0 l1 → flooded b l1 z → flooded b l0 z.
Proof.
  intros H01 [Hz|[Hc (y & Hy & Hadj)]].
  - left. by eapply region_trans.
  - right. split; [done|]. exists y. split; [by eapply region_trans|done].
Qed.

Lemma region_scores (b b' : Board) (l0 l : Location) :
  (∀ l, score <$> cellAt b' l = score <$> cellAt b l) →
  region b l0 l → region b' l0 l.
Proof.
  intros Hs.
  assert (∀ l, zeroAt b l → zeroAt b' l) as Hz.
  { intros l1 (c & Hc & Hsc). specialize (Hs l1). rewrite Hc in Hs.
    destruct (cellAt b' l1) as [c'|] eqn:Hc'; [|done]. simpl in Hs.
    exists c'. split; [done|]. congruence. }
  induction 1 as [H0|z z' _ IH Hadj Hz']; [by constructor; apply Hz|].
  eapply region_step; [exact IH|done|by apply Hz].
Qed.

Lemma flooded_scores (b b' : Board) (l0 l : Location) :
  (∀ l, score <$> cellAt b' l = score <$> cellAt b l) →
  flooded b l0 l → flooded b' l0 l.
Proof.
  intros Hs [Hr|[(c & Hc & Hsc) (z & Hz & Hadj)]].
  - left. by eapply region_scores.
  - right. split.
    + specialize (Hs l). rewrite Hc in Hs.
      destruct (cellAt b' l) as [c'|] eqn:Hc'; [|done]. simpl in Hs.
      exists c'. split; [done|]. congruence.
    + exists z. split; [by eapply region_scores|done].
Qed.

(** The cells before and after a click, one by one. *)
Lemma Click_cells (fuel : nat) (b b' : Board) (l l' : Location) :
  reachable b → Click fuel b l = Done b' →
  (∀ c, cellAt b l' = Some c → ∃ c', cellAt b' l' = Some c' ∧ cell_le c c')
  ∧ (∀ c', cellAt b' l' = Some c' → ∃ c, cellAt b l' = Some c ∧ cell_le c c').
Proof.
  intros Hreach Hrun. destruct (Click_le _ _ _ _ Hreach Hrun) as [Hle _].
  split.
  - intros c Hc. by apply (board_le_cellAt _ _ l' c Hle).
  - intros c' Hc'. pose proof (board_le_rows _ _ Hle) as [Hr Hc].
    apply cellAt_slot in Hc' as [Hs Hon].
    destruct (board_le_slot_r _ _ _ _ Hle Hs) as (c & Hcs & Hcle).
    exists c. split; [|done]. unfold cellAt.
    rewrite decide_True; [done|]. unfold onBoard in *. simpl in *.
    by rewrite <- Hr, <- Hc.
Qed.

Lemma Click_scores (fuel : nat) (b b' : Board) (l l' : Location) :
  reachable b → Click fuel b l = Done b' →
  score <$> cellAt b' l' = score <$> cellAt b l'.
Proof.
  intros Hreach Hrun.
  destruct (Click_cells fuel b b' l l' Hreach Hrun) as [H1 H2].
  destruct (cellAt b l') as [c|] eqn:Hc.
  - destruct (H1 c eq_refl) as (c' & -> & [-> _]). done.
  - destruct (cellAt b' l') as [c'|] eqn:Hc'; [|done].
    by destruct (H2 c' eq_refl) as (c & ? & _).
Qed.

(** A click that acts after another click would have acted before it,
    and reveals the same cells. *)
Lemma touched_before (fuel : nat) (b b1 : Board) (l1 l2 q : Location) :
  reachable b → Click fuel b l1 = Done b1 →
  touched b1 l2 q → touched b l2 q.
Proof.
  intros Hreach Hrun (c' & (Hc' & Hfl & Hrev) & Hq).
  destruct (Click_cells fuel b b1 l1 l2 Hreach Hrun) as [_ H2].
  destruct (H2 c' Hc') as (c & Hc & Heq & Hmono).
  exists c. split.
  - split; [done|]. rewrite Heq in Hfl. split; [done|].
    destruct (revealed c); [|done]. by rewrite Hmono in Hrev.
  - destruct Hq as [?|(Hm & Hsc & Hf)]; [by left|right].
    rewrite Heq in Hm, Hsc. split; [done|]. split; [done|].
    eapply flooded_scores; [|exact Hf]. intros l. symmetry.
    by eapply Click_scores.
Qed.

(** What a click would reveal is revealed by the two clicks in the
    other order as well. *)
Lemma touched_swap (fuel : nat) (b b2 : Board) (l1 l2 q : Location) :
  reachable b → Click fuel b l2 = Done b2 →
  touched b l1 q → touched b l2 q ∨ touched b2 l1 q.
Proof.
  intros Hreach Hrun (c1 & (Hc1 & Hfl1 & Hrev1) & Hq).
  destruct (Click_cells fuel b b2 l2 l1 Hreach Hrun) as [H1 _].
  destruct (H1 c1 Hc1) as (c1' & Hc1' & Heq & Hmono).
  destruct (revealed c1') eqn:Hrev1'.
  - left.
    destruct (Click_result _ _ _ _ Hreach Hrun) as [_ Hres].
    destruct (proj1 (Hres l1 ltac:(by eexists))) as [Hold|Hnew].
    { by rewrite (cellAt_revealedAt _ _ _ Hc1'). }
    { rewrite (cellAt_revealedAt _ _ _ Hc1) in Hold. congruence. }
    destruct Hnew as (c2 & Hclick2 & [->|(Hm2 & Hsc2 & Hf2)]).
    { by exists c1. }
    exists c2. split; [done|]. right. split; [done|]. split; [done|].
    destruct Hq as [->|(Hm1 & Hsc1 & Hf1)]; [done|].
    eapply flooded_trans; [|exact Hf1].
    destruct Hf2 as [?|[(c & Hc & Hnz) _]]; [done|]. congruence.
  - right. exists c1'. split.
    + split; [done|]. split; [by rewrite Heq|done].
    + destruct Hq as [?|(Hm & Hsc & Hf)]; [by left|right].
      rewrite Heq. split; [done|]. split; [done|].
      eapply flooded_scores; [|exact Hf]. intros l.
      by eapply Click_scores.
Qed.

Lemma board_le_explosion (b b' : Board) (v : bool) :
  board_le b b' →
  board_le (set_explosionOccured v b) (set_explosionOccured v b').
Proof.
  intros [Hf Hcs]. constructor; [|exact Hcs].
  by apply (f_equal (set_explosionOccured v)) in Hf.
Qed.

(** Two boards grown from one board by reveals are the same when they
    have revealed the same cells. *)
Lemma board_le_same_reveals (b x y : Board) :
  board_le b x → board_le b y →
  (∀ p, revealedAt x p = revealedAt y p) → x = y.
Proof.
  intros [Hfx Hcx] [Hfy Hcy] Hsame. apply board_eq; [congruence|].
  apply (list_eq_same_length _ _ (length (cells b)));
    [by rewrite (Forall2_length _ _ _ Hcy)
    |by rewrite (Forall2_length _ _ _ Hcx)|].
  intros r lx ly _ Hlx Hly.
  destruct (Forall2_lookup_r _ _ _ _ _ Hcx Hlx) as (line & Hline & Hx).
  destruct (Forall2_lookup_r _ _ _ _ _ Hcy Hly) as (line' & Hline' & Hy).
  assert (line' = line) as -> by congruence.
  apply (list_eq_same_length _ _ (length line));
    [by rewrite (Forall2_length _ _ _ Hy)
    |by rewrite (Forall2_length _ _ _ Hx)|].
  intros k cx cy _ Hcx' Hcy'.
  destruct (Forall2_lookup_r _ _ _ _ _ Hx Hcx') as (c & Hc & [Hex _]).
  destruct (Forall2_lookup_r _ _ _ _ _ Hy Hcy') as (c' & Hc' & [Hey _]).
  assert (c' = c) as -> by congruence. specialize (Hsame (r, k)).
  unfold revealedAt, slot in Hsame. simpl in Hsame.
  rewrite Hlx, Hly in Hsame. simpl in Hsame. rewrite Hcx', Hcy' in Hsame.
  rewrite Hex, Hey. by rewrite Hsame.
Qed.

(** After two clicks, the cells revealed are those revealed before and
    those either click would have revealed on the board before, and a
    mine has gone off if one had, or if either click would have set one
    off. *)
Lemma two_clicks (f1 f2 : nat) (b b1 b12 : Board) (l1 l2 : Location) :
  reachable b →
  Click f1 b l1 = Done b1 → Click f2 b1 l2 = Done b12 →
  (explosionOccured b12 = true
   ↔ explosionOccured b = true
     ∨ (∃ c, clickable b l1 c ∧ hasMine c = true)
     ∨ (∃ c, clickable b l2 c ∧ hasMine c = true))
  ∧ ∀ l', is_Some (cellAt b l') →
          revealedAt b12 (slotOf l') = true
          ↔ revealedAt b (slotOf l') = true
            ∨ touched b l1 l' ∨ touched b l2 l'.
Proof.
  intros Hreach Hrun1 Hrun2.
  pose proof (reach_Click _ _ _ _ Hreach Hrun1) as Hreach1.
  destruct (Click_result _ _ _ _ Hreach Hrun1) as [Hex1 Hrev1].
  destruct (Click_result _ _ _ _ Hreach1 Hrun2) as [Hex2 Hrev2].
  split.
  - rewrite Hex2, Hex1. split.
    + intros [[?|?]|(c' & (Hc' & Hfl & Hrev) & Hm)]; [by left|by right; left|].
      right. right.
      destruct (Click_cells f1 b b1 l1 l2 Hreach Hrun1) as [_ H2].
      destruct (H2 c' Hc') as (c & Hc & Heq & Hmono).
      exists c. rewrite Heq in Hfl, Hm. split; [|done].
      split; [done|]. split; [done|].
      destruct (revealed c); [|done]. by rewrite Hmono in Hrev.
    + intros [?|[?|(c & (Hc & Hfl & Hrev) & Hm)]];
        [by left; left|by left; right|].
      destruct (Click_cells f1 b b1 l1 l2 Hreach Hrun1) as [H1 _].
      destruct (H1 c Hc) as (c' & Hc' & Heq & Hmono).
      destruct (revealed c') eqn:Hrev'.
      2:{ right. exists c'.
          assert (flagged c' = flagged c ∧ hasMine c' = hasMine c)
            as [Hfl' Hm'] by by rewrite Heq.
          split; [|congruence]. split; [done|]. split; congruence. }
      left. right.
      destruct (proj1 (Hrev1 l2 ltac:(by eexists))) as [Hold|Hnew].
      { by rewrite (cellAt_revealedAt _ _ _ Hc'). }
      { rewrite (cellAt_revealedAt _ _ _ Hc) in Hold. congruence. }
      destruct Hnew as (c1 & Hclick1 & [->|(Hm1 & Hsc1 & Hf1)]).
      { exists c. by split. }
      destruct (reachable_cell b l2 Hreach) as (_ & _ & Hs & _);
        [by eexists|].
      destruct Hclick1 as (Hc1 & _).
      pose proof (flooded_no_mine b l1 l2 c1 Hs Hc1 Hm1 Hf1) as Hno.
      unfold mineAt in Hno. rewrite Hc in Hno. congruence.
  - intros l' Hl'.
    assert (is_Some (cellAt b1 l')) as Hl1'.
    { destruct Hl' as [c Hc].
      destruct (Click_cells f1 b b1 l1 l' Hreach Hrun1) as [H1 _].
      destruct (H1 c Hc) as (c' & ? & _). by eexists. }
    rewrite (Hrev2 l' Hl1'), (Hrev1 l' Hl'). split.
    + intros [[?|?]|Ht]; [by left|by right; left|].
      right. right. by eapply touched_before.
    + intros [?|[?|Ht]]; [by left; left|by left; right|].
      destruct (touched_swap f1 b b1 l2 l1 l' Hreach Hrun1 Ht) as [?|?];
        [by left; right|by right].
Qed.

(** Clicks commute: two clicks give the same board in either order. *)
Theorem Click_commute (f1 f2 f3 f4 : nat) (b b1 b12 b2 b21 : Board)
    (l1 l2 : Location) :
  reachable b →
  Click f1 b l1 = Done b1 → Click f2 b1 l2 = Done b12 →
  Click f3 b l2 = Done b2 → Click f4 b2 l1 = Done b21 →
  b12 = b21.
Proof.
  intros Hreach Hrun1 Hrun12 Hrun2 Hrun21.
  pose proof (reach_Click _ _ _ _ Hreach Hrun1) as Hreach1.
  pose proof (reach_Click _ _ _ _ Hreach Hrun2) as Hreach2.
  destruct (two_clicks _ _ _ _ _ _ _ Hreach Hrun1 Hrun12) as [He12 Hr12].
  destruct (two_clicks _ _ _ _ _ _ _ Hreach Hrun2 Hrun21) as [He21 Hr21].
  assert (explosionOccured b12 = explosionOccured b21) as He.
  { apply Bool.eq_iff_eq_true. rewrite He12, He21. clear.
    split; (intros [?|[?|?]]; [by left|by right; right|by right; left]). }
  assert (∀ x y z f g l l',
            Click f x l = Done y → reachable x → Click g y l' = Done z →
            board_le (set_explosionOccured (explosionOccured z) x) z)
    as Hchain.
  { intros x y z f g l l' Hxy Hx Hyz.
    destruct (Click_le _ _ _ _ Hx Hxy) as [Hle1 _].
    destruct (Click_le _ _ _ _ (reach_Click _ _ _ _ Hx Hxy) Hyz) as [Hle2 _].
    apply (board_le_explosion _ _ (explosionOccured z)) in Hle1.
    replace (set_explosionOccured (explosionOccured z)
               (set_explosionOccured (explosionOccured y) x))
      with (set_explosionOccured (explosionOccured z) x) in Hle1
      by by destruct x.
    by eapply board_le_trans. }
  pose proof (Hchain _ _ _ _ _ _ _ Hrun1 Hreach Hrun12) as Hle12.
  pose proof (Hchain _ _ _ _ _ _ _ Hrun2 Hreach Hrun21) as Hle21.
  rewrite <- He in Hle21.
  apply (board_le_same_reveals _ _ _ Hle12 Hle21). intros p.
  destruct (slot (cells b) p) as [c|] eqn:Hc.
  2:{ unfold revealedAt.
      destruct (slot (cells b12) p) as [c12|] eqn:H12.
      { destruct (board_le_slot_r _ _ _ _ Hle12 H12) as (? & ? & _).
        simpl in *. congruence. }
      destruct (slot (cells b21) p) as [c21|] eqn:H21; [|done].
      destruct (board_le_slot_r _ _ _ _ Hle21 H21) as (? & ? & _).
      simpl in *. congruence. }
  pose proof (reachable_inv b Hreach) as Hinv.
  destruct (initialized b) eqn:Hi.
  2:{ unfold slot in Hc. by rewrite (inv_blank _ Hinv Hi) in Hc. }
  pose proof (inv_grid _ Hinv Hi) as Hg.
  assert (is_Some (cellAt b (locOf p))) as Hl
    by (rewrite cellAt_locOf by done; by eexists).
  specialize (Hr12 _ Hl). specialize (Hr21 _ Hl).
  rewrite slotOf_locOf in Hr12, Hr21.
  apply Bool.eq_iff_eq_true. rewrite Hr12, Hr21. clear.
  split; (intros [?|[?|?]]; [by left|by right; right|by right; left]).
Qed.

(** A revealed cell is final: no click, flag toggle or [RevealAll]
    changes any field of it.  Only [Initialize], which starts a new grid,
    does away with it. *)
Theorem revealed_cell_is_final (b b' : Board) (l : Location) (c : cell) :
  reachable b →
  (∃ fuel l', Click fuel b l' = Done b')
  ∨ (∃ l', ToggleFlag b l' = Done b')
  ∨ (∃ ok, RevealAll b = Done (b', ok)) →
  cellAt b l = Some c → revealed c = true →
  cellAt b' l = Some c.
Proof.
  intros Hreach Hstep Hc Hrev.
  destruct Hstep as [(fuel & l' & Hrun)|[(l' & Hrun)|(ok & Hrun)]].
  - destruct (Click_cells fuel b b' l' l Hreach Hrun) as [H1 _].
    destruct (H1 c Hc) as (c' & Hc' & Hle). rewrite Hc'. f_equal.
    apply cell_le_revealed; [done|]. destruct Hle as [_ Hmono].
    by rewrite Hrev, Hmono.
  - destruct (ToggleFlag_cells b b' l' Hreach Hrun) as [_ Hcells].
    rewrite (Hcells l c Hc), Hrev. by case_decide.
  - apply RevealAll_spec in Hrun.
    destruct (reachable_cell b l Hreach) as (Hi & _); [by eexists|].
    rewrite Hi in Hrun. destruct Hrun as (_ & Hle & _). simpl in Hle.
    destruct (board_le_cellAt _ _ l c Hle Hc) as (c' & Hc' & Hcle).
    rewrite Hc'. f_equal. apply cell_le_revealed; [done|].
    destruct Hcle as [_ Hmono]. by rewrite Hrev, Hmono.
Qed.

(** ** Clicks return *)

(** Whatever the fuel, the propagation does not panic on a well-formed
    grid: it returns a board with more cells revealed, or the fuel runs
    out. *)
Lemma PropagateReveals_safe (fuel : nat) (b : Board) (p : ptr) :
  grid_ok b → is_Some (slot (cells b) p) →
  match PropagateReveals fuel b (Some p) with
  | Done b' => board_le b b'
  | Panic => False
  | OutOfFuel => True
  end.
Proof.
  revert b p. induction fuel as [|fuel IH]; intros b p Hg Hp; [done|].
  rewrite PropagateReveals_unfold by done.
  assert (∀ ns b1, board_le b b1 →
            Forall (λ n, is_Some (slot (cells b) n)) ns →
            match forM (revealNeighbor (PropagateReveals fuel)) ns b1 with
            | Done b' => board_le b b'
            | Panic => False
            | OutOfFuel => True
            end) as Hloop.
  { induction ns as [|n ns IHns]; intros b1 Hle Hns; [done|].
    apply Forall_cons in Hns as [Hn Hns]. cbn [forM].
    pose proof (board_le_grid _ _ Hg Hle) as Hg1.
    destruct (board_le_is_Some _ _ n Hle Hn) as [nc Hnc].
    rewrite (revealNeighbor_eq _ b1 n nc Hnc).
    pose proof (board_le_reveal b1 n) as Hle1.
    destruct (revealed nc); [by apply IHns|].
    case_bool_decide.
    - pose proof (IH (reveal b1 n) n (board_le_grid _ _ Hg1 Hle1)
                     (board_le_is_Some _ _ n Hle1 ltac:(by eexists))) as Hrec.
      destruct (PropagateReveals fuel (reveal b1 n) (Some n)) as [b2| |];
        [|done..].
      rewrite bind_Done_l. apply IHns; [|done].
      eapply board_le_trans; [exact Hle|]. by eapply board_le_trans.
    - rewrite bind_Done_l. apply IHns; [|done]. by eapply board_le_trans. }
  apply Hloop; [apply board_le_refl|].
  apply Forall_forall. intros n Hn. by eapply neighborSlots_valid.
Qed.

Lemma Click_total (b : Board) (l : Location) :
  reachable b → initialized b = true →
  ∃ b', Click (unrevealed b) b l = Done b'.
Proof.
  intros Hreach Hi. pose proof (reachable_grid b Hreach Hi) as Hg.
  rewrite Click_eq by done.
  destruct (cellAt b l) as [c|] eqn:Hc; [|by eexists].
  destruct (flagged c); [by eexists|].
  destruct (revealed c) eqn:Hrev; [by eexists|].
  destruct (hasMine c); [by eexists|].
  case_bool_decide; [|by eexists].
  apply cellAt_slot in Hc as [Hslot _].
  pose proof (board_le_reveal b (slotOf l)) as Hle0.
  pose proof (unrevealed_reveal b (slotOf l) c Hslot Hrev) as Hcount.
  destruct (PropagateReveals_total (unrevealed b) (reveal b (slotOf l))
              (slotOf l)) as (b' & Hrun & _);
    [by eapply board_le_grid|by eapply board_le_is_Some; [|eexists]|lia|].
  by exists b'.
Qed.

(** The board a click returns does not depend on the fuel it ran
    with. *)
Lemma Click_fuel (f f' : nat) (b b1 b2 : Board) (l : Location) :
  reachable b → Click f b l = Done b1 → Click f' b l = Done b2 → b1 = b2.
Proof.
  intros Hreach Hrun1 Hrun2.
  destruct (Click_result _ _ _ _ Hreach Hrun1) as [He1 Hr1].
  destruct (Click_result _ _ _ _ Hreach Hrun2) as [He2 Hr2].
  destruct (Click_le _ _ _ _ Hreach Hrun1) as [Hle1 _].
  destruct (Click_le _ _ _ _ Hreach Hrun2) as [Hle2 _].
  assert (explosionOccured b1 = explosionOccured b2) as He.
  { apply Bool.eq_iff_eq_true. by rewrite He1, He2. }
  rewrite <- He in Hle2.
  apply (board_le_same_reveals _ _ _ Hle1 Hle2). intros p.
  destruct (slot (cells b) p) as [c|] eqn:Hc.
  2:{ unfold revealedAt.
      destruct (slot (cells b1) p) as [c1|] eqn:H1.
      { destruct (board_le_slot_r _ _ _ _ Hle1 H1) as (? & ? & _).
        simpl in *. congruence. }
      destruct (slot (cells b2) p) as [c2|] eqn:H2; [|done].
      destruct (board_le_slot_r _ _ _ _ Hle2 H2) as (? & ? & _).
      simpl in *. congruence. }
  pose proof (reachable_inv b Hreach) as Hinv.
  destruct (initialized b) eqn:Hi.
  2:{ unfold slot in Hc. by rewrite (inv_blank _ Hinv Hi) in Hc. }
  pose proof (inv_grid _ Hinv Hi) as Hg.
  assert (is_Some (cellAt b (locOf p))) as Hl
    by (rewrite cellAt_locOf by done; by eexists).
  specialize (Hr1 _ Hl). specialize (Hr2 _ Hl).
  rewrite slotOf_locOf in Hr1, Hr2.
  apply Bool.eq_iff_eq_true. by rewrite Hr1, Hr2.
Qed.

(** On an initialized board [Click] always returns, for every location:
    it never panics, and the recursion of the propagation is never deeper
    than the number of unrevealed cells.  The board it returns does not
    depend on the bound given to the recursion. *)
Theorem Click_returns (b : Board) (l : Location) :
  reachable b → Initialized b = true →
  ∃ b', Click (unrevealed b) b l = Done b'
        ∧ ∀ fuel, Click fuel b l = Done b' ∨ Click fuel b l = OutOfFuel.
Proof.
  intros Hreach Hi. destruct (Click_total b l Hreach Hi) as [b' Hrun].
  exists b'. split; [done|]. intros fuel.
  destruct (Click fuel b l) as [b''| |] eqn:Hrun'; [left|exfalso|by right].
  - f_equal. by eapply Click_fuel.
  - pose proof (reachable_grid b Hreach Hi) as Hg.
    rewrite Click_eq in Hrun' by done.
    destruct (cellAt b l) as [c|] eqn:Hc; [|done].
    destruct (flagged c); [done|]. destruct (revealed c) eqn:Hrev; [done|].
    destruct (hasMine c); [done|]. case_bool_decide; [|done].
    apply cellAt_slot in Hc as [Hslot _].
    pose proof (board_le_reveal b (slotOf l)) as Hle0.
    assert (grid_ok (reveal b (slotOf l))) as Hg1 by by eapply board_le_grid.
    assert (is_Some (slot (cells (reveal b (slotOf l))) (slotOf l))) as Hs1
      by by eapply board_le_is_Some; [|eexists].
    pose proof (PropagateReveals_safe fuel _ _ Hg1 Hs1) as Hsafe.
    by rewrite Hrun' in Hsafe.
Qed.

(** ** The mines stay where they are *)





(** ** Rendering *)

Lemma string_app_cons (a : ascii) (s1 s2 : string) :
  String a s1 +:+ s2 = String a (s1 +:+ s2).
Proof. reflexivity. Qed.

Lemma string_app_assoc (s1 s2 s3 : string) :
  (s1 +:+ s2) +:+ s3 = s1 +:+ s2 +:+ s3.
Proof.
  induction s1 as [|a s1 IH]; [done|]. by rewrite !string_app_cons, IH.
Qed.

Lemma string_app_nil_r (s : string) : s +:+ "" = s.
Proof.
  induction s as [|a s IH]; [done|]. by rewrite string_app_cons, IH.
Qed.

Lemma string_length_app (s1 s2 : string) :
  String.length (s1 +:+ s2) = (String.length s1 + String.length s2)%nat.
Proof.
  induction s1 as [|a s1 IH]; [done|].
  rewrite string_app_cons. simpl. by rewrite IH.
Qed.

Lemma string_get_app_r (s1 s2 : string) (n : nat) :
  String.get (String.length s1 + n) (s1 +:+ s2) = String.get n s2.
Proof.
  induction s1 as [|a s1 IH]; [done|]. rewrite string_app_cons. exact IH.
Qed.

Lemma joinRunes_snoc (rs : list ascii) (r : ascii) :
  joinRunes (rs ++ [r])
  = (match rs with [] => "" | _ :: _ => joinRunes rs +:+ "  " end)
    +:+ String r "".
Proof.
  induction rs as [|r0 rs IH]; [done|].
  cbn [app joinRunes]. rewrite IH. destruct rs as [|r1 rs]; [done|].
  cbn [app]. by rewrite !string_app_cons, !string_app_assoc.
Qed.

Lemma length_joinRunes (rs : list ascii) :
  rs ≠ [] → (String.length (joinRunes rs) + 2 = 3 * length rs)%nat.
Proof.
  induction rs as [|r rs IH]; [done|]. intros _.
  destruct rs as [|r1 rs]; [done|].
  change (joinRunes (r :: r1 :: rs))
    with (String r (String " " (String " " (joinRunes (r1 :: rs))))).
  specialize (IH ltac:(done)). cbn [String.length length] in *. lia.
Qed.

Lemma get_joinRunes (rs : list ascii) (k : nat) :
  String.get (3 * k) (joinRunes rs) = rs !! k.
Proof.
  revert k. induction rs as [|r rs IH]; intros k.
  { cbn. by destruct (3 * k)%nat. }
  destruct k as [|k]; [done|].
  replace (3 * S k)%nat with (S (S (S (3 * k)))) by lia.
  destruct rs as [|r1 rs]; [done|].
  change (joinRunes (r :: r1 :: rs))
    with (String r (String " " (String " " (joinRunes (r1 :: rs))))).
  cbn [String.get]. rewrite IH. done.
Qed.

Lemma reachable_score (b : Board) (p : ptr) (c : cell) :
  reachable b → slot (cells b) p = Some c → 0 ≤ score c ≤ 8.
Proof.
  intros Hreach Hc. pose proof (reachable_inv b Hreach) as Hinv.
  destruct (initialized b) eqn:Hi.
  2:{ unfold slot in Hc. by rewrite (inv_blank _ Hinv Hi) in Hc. }
  pose proof (inv_grid _ Hinv Hi) as Hg.
  rewrite <- cellAt_locOf in Hc by done.
  rewrite (inv_scores _ Hinv Hi _ _ Hc). apply mooreMines_bounds.
Qed.

(** On a reachable board the index into [scoreRunes] is in range. *)
Lemma Render_slot (b : Board) (p : ptr) (c : cell) :
  reachable b → slot (cells b) p = Some c →
  Render b (Some p) = Done (glyph c).
Proof.
  intros Hreach Hc. pose proof (reachable_score b p c Hreach Hc) as Hs.
  unfold Render, load, glyph. rewrite Hc. simpl.
  destruct (revealed c); [|done]. simpl.
  destruct (flagged c); [done|]. destruct (hasMine c); [done|].
  rewrite bool_decide_eq_false_2 by lia.
  destruct (lookup_lt_is_Some_2 scoreRunes (Z.to_nat (score c))) as [r Hr].
  { simpl. lia. }
  by rewrite Hr.
Qed.

(** The inner loop of [ConsoleRender], from column [length pre] on. *)
Lemma ConsoleRender_row (b : Board) (r : nat) (pre suf : list cell)
    (acc : string) :
  reachable b → cells b !! r = Some (pre ++ suf) →
  forM (λ nextLine col,
          let nextLine :=
            if bool_decide (col ≠ 0%nat) then nextLine +:+ "  "
            else nextLine in
          g ← Render b (Some (r, col));
          Done (nextLine +:+ String g ""))
       (seq (length pre) (length suf))
       (acc +:+ joinRunes (glyph <$> pre))
  = Done (acc +:+ joinRunes (glyph <$> pre ++ suf)).
Proof.
  intros Hreach. revert pre. induction suf as [|c suf IH]; intros pre Hline.
  { by rewrite app_nil_r. }
  cbn [length seq forM].
  assert (Render b (Some (r, length pre)) = Done (glyph c)) as ->.
  { apply Render_slot; [done|]. unfold slot. simpl. rewrite Hline. simpl.
    by rewrite lookup_app_r, Nat.sub_diag by lia. }
  rewrite !bind_Done_l.
  replace (pre ++ c :: suf) with ((pre ++ [c]) ++ suf) in Hline |- *
    by by rewrite <- (assoc_L (++)).
  specialize (IH (pre ++ [c]) Hline).
  rewrite length_app, Nat.add_1_r in IH.
  etrans; [|exact IH]. apply (f_equal (forM _ _)).
  rewrite fmap_app. cbn [fmap list_fmap]. rewrite joinRunes_snoc.
  destruct pre as [|c0 pre].
  - cbn [length fmap list_fmap]. rewrite bool_decide_eq_false_2 by lia.
    cbn [joinRunes]. by rewrite string_app_assoc.
  - cbn [length fmap list_fmap]. rewrite bool_decide_eq_true_2 by lia.
    by rewrite !string_app_assoc.
Qed.

(** The outer loop of [ConsoleRender], from row [length pre] on. *)
Lemma ConsoleRender_rows (b : Board) (pre suf : list (list cell))
    (cout : string) :
  reachable b → cells b = pre ++ suf → (length (cells b) ≤ 1000)%nat →
  forM (λ cout row,
          let nextLine := Sprintf2d (intAdd (Z.of_nat row) 1) +:+ "  " in
          nextLine ←
            forM (λ nextLine col,
                    let nextLine :=
                      if bool_decide (col ≠ 0%nat) then nextLine +:+ "  "
                      else nextLine in
                    g ← Render b (Some (row, col));
                    Done (nextLine +:+ String g ""))
                 (seq 0 (length (default [] (cells b !! row)))) nextLine;
          Done (Fprintln cout nextLine))
       (seq (length pre) (length suf)) cout
  = Done (cout +:+ unlines (rowLines (length pre) suf)).
Proof.
  intros Hreach. revert pre cout.
  induction suf as [|line suf IH]; intros pre cout Hcells Hlen.
  { simpl. by rewrite string_app_nil_r. }
  cbn [length seq forM].
  assert (cells b !! length pre = Some line) as Hline.
  { rewrite Hcells. by rewrite lookup_app_r, Nat.sub_diag by lia. }
  rewrite Hline. cbn [default from_option]. unfold id.
  pose proof (ConsoleRender_row b (length pre) [] line
                (Sprintf2d (intAdd (Z.of_nat (length pre)) 1) +:+ "  ")
                Hreach Hline) as Hrow.
  cbn [length app fmap list_fmap joinRunes] in Hrow.
  rewrite string_app_nil_r in Hrow. rewrite Hrow, bind_Done_l.
  replace (pre ++ line :: suf) with ((pre ++ [line]) ++ suf) in Hcells
    by by rewrite <- (assoc_L (++)).
  specialize (IH (pre ++ [line]) (Fprintln cout
    ((Sprintf2d (intAdd (Z.of_nat (length pre)) 1) +:+ "  ")
     +:+ joinRunes (glyph <$> line))) Hcells Hlen).
  rewrite length_app, Nat.add_1_r in IH.
  etrans; [exact IH|]. f_equal.
  cbn [rowLines unlines]. unfold Fprintln, rowLine.
  unfold intAdd. rewrite wrap_small.
  2:{ rewrite Hcells, !length_app in Hlen. simpl in Hlen.
      unfold minInt, maxInt. lia. }
  by rewrite !string_app_assoc.
Qed.

Lemma ConsoleRender_run (b : Board) (cout : string) :
  reachable b → initialized b = true →
  ConsoleRender b cout
  = Done (cout +:+ unlines (headingFor (Z.to_nat (cols b))
                              :: rowLines 0 (cells b)), true).
Proof.
  intros Hreach Hi. unfold ConsoleRender. rewrite Hi. cbn [negb].
  pose proof (reachable_counts b Hreach) as (Hr & _ & _).
  pose proof (reachable_grid b Hreach Hi) as Hg.
  rewrite (ConsoleRender_rows b [] (cells b) _ Hreach eq_refl)
    by (rewrite (grid_length b Hg); lia).
  rewrite bind_Done_l. f_equal. f_equal.
  cbn [unlines length]. unfold Fprintln. rewrite !string_app_assoc.
  f_equal. f_equal.
  pose proof (reachable_preset_eq b Hreach) as Hp. unfold presetTable in Hp.
  destruct (decide (difficulty b = "easy")) as [He|He].
  { injection Hp as _ <- _. reflexivity. }
  destruct (decide (difficulty b = "medium")) as [Hm|Hm].
  { injection Hp as _ <- _. rewrite decide_True by auto. reflexivity. }
  destruct (decide (difficulty b = "hard")) as [Hh|Hh]; [|done].
  injection Hp as _ <- _. rewrite decide_True by auto. reflexivity.
Qed.

Lemma length_Sprintf2d (n : nat) :
  (n < 100)%nat → String.length (Sprintf2d (Z.of_nat n)) = 2%nat.
Proof.
  intros Hn. do 100 (destruct n as [|n]; [vm_compute; reflexivity|]). lia.
Qed.

Lemma length_rowLines (k : nat) (lines : list (list cell)) :
  length (rowLines k lines) = length lines.
Proof.
  revert k. induction lines as [|line lines IH]; intros k; [done|].
  simpl. by rewrite IH.
Qed.

Lemma lookup_rowLines (k i : nat) (lines : list (list cell)) :
  rowLines k lines !! i = rowLine (k + i) <$> lines !! i.
Proof.
  revert k i. induction lines as [|line lines IH]; intros k i; [done|].
  destruct i as [|i]; simpl.
  - by rewrite Nat.add_0_r.
  - rewrite IH. by rewrite Nat.add_succ_r.
Qed.

Lemma length_columnLetters (n : nat) : length (columnLetters n) = n.
Proof. unfold columnLetters. by rewrite length_fmap, length_seq. Qed.

Lemma length_joinRunes_cols (rs : list ascii) :
  (0 < length rs)%nat →
  (String.length (joinRunes rs) + 2 = 3 * length rs)%nat.
Proof. intros Hn. apply length_joinRunes. intros ->. simpl in Hn. lia. Qed.

(** On an initialized board, [HasMine] of the cell [getCell] returns
    never panics and tells whether the location is a cell of the board
    with a mine; for a location off the board, where [getCell] returns
    nil, it is false. *)
Theorem HasMine_getCell (b : Board) (l : Location) :
  reachable b → initialized b = true →
  (c ← getCell b l; HasMine b c) = Done (mineAt b l)
  ∧ (ValidLocation b l = false → mineAt b l = false).
Proof.
  intros Hreach Hi. pose proof (reachable_grid b Hreach Hi) as Hg.
  rewrite getCell_ok by done. unfold mineAt, cellAt.
  destruct (decide (onBoard b l)) as [Hon|Hoff].
  - destruct (proj2 (cellAt_is_Some b l Hg) Hon) as [c Hc].
    apply cellAt_slot in Hc as [Hs _]. rewrite bind_Done_l.
    unfold HasMine, load. rewrite Hs. split; [done|].
    intros Hv. apply ValidLocation_onBoard in Hon. congruence.
  - done.
Qed.

(** [Render] never panics on a cell of a board the program can reach, and
    the rune tells the state of the cell: '.' exactly for an unrevealed
    cell, flagged or not; '+' exactly for a revealed cell with a flag;
    '*' exactly for a revealed cell without a flag that holds a mine; and
    otherwise the entry of [scoreRunes] for the number of mines around
    the cell. *)
Theorem Render_on_board (b : Board) (l : Location) (c : cell) :
  reachable b → cellAt b l = Some c →
  ∃ g, Render b (Some (slotOf l)) = Done g
       ∧ (g = "."%char ↔ revealed c = false)
       ∧ (g = "+"%char ↔ revealed c = true ∧ flagged c = true)
       ∧ (g = "*"%char ↔
          revealed c = true ∧ flagged c = false ∧ hasMine c = true)
       ∧ (revealed c = true → flagged c = false → hasMine c = false →
          scoreRunes !! Z.to_nat (mooreMines b l) = Some g).
Proof.
  intros Hreach Hc.
  destruct (reachable_cell b l Hreach) as (_ & _ & Hs & _); [by eexists|].
  pose proof (Hs _ _ Hc) as Hscore.
  pose proof (mooreMines_bounds b l) as Hb.
  apply cellAt_slot in Hc as [Hslot _].
  exists (glyph c). split; [by apply Render_slot|].
  unfold glyph. rewrite Hscore.
  destruct (revealed c); simpl;
    [|split_and!; first [done|by split; intros; destruct_and?]].
  destruct (flagged c);
    [split_and!; first [done|by split; intros; destruct_and?]|].
  destruct (hasMine c);
    [split_and!; first [done|by split; intros; destruct_and?]|].
  destruct (lookup_lt_is_Some_2 scoreRunes (Z.to_nat (mooreMines b l)))
    as [r Hr]; [simpl; lia|].
  rewrite Hr. simpl.
  assert (r ≠ "."%char ∧ r ≠ "+"%char ∧ r ≠ "*"%char) as (H1 & H2 & H3).
  { apply list_elem_of_lookup_2 in Hr. unfold scoreRunes in Hr.
    rewrite !elem_of_cons, elem_of_nil in Hr.
    destruct_or!; subst r; done. }
  split_and!; first [done|by split; intros; destruct_and?].
Qed.

(** [ConsoleRender] never panics on a board the program can reach.  On
    an uninitialized one it writes nothing and returns an error;
    otherwise it returns nil after writing the heading line with one
    letter for each column of the board, and then one line for each row:
    the row number from 1 in a field of width 2, two spaces, and the
    runes of the cells of the row with two spaces between neighbours. *)
Theorem ConsoleRender_text (b : Board) (cout : string) :
  reachable b →
  ConsoleRender b cout
  = if Initialized b
    then Done (cout +:+ unlines (headingFor (Z.to_nat (cols b))
                                   :: rowLines 0 (cells b)), true)
    else Done (cout, false).
Proof.
  intros Hreach. unfold Initialized. destruct (initialized b) eqn:Hi.
  - by apply ConsoleRender_run.
  - unfold ConsoleRender. by rewrite Hi.
Qed.

(** The picture [ConsoleRender] draws is aligned: after the heading
    there is one line for each row, as long as the heading; the line of a
    cell starts with its row number, counted from 1, and at offset
    4 + 3 * col it holds the rune [Render] gives for the cell, right
    under the letter of its column in the heading. *)
Theorem ConsoleRender_layout (b : Board) (cout : string) (l : Location)
    (c : cell) :
  reachable b → cellAt b l = Some c →
  ∃ heading lines line g,
    ConsoleRender b cout = Done (cout +:+ unlines (heading :: lines), true)
    ∧ length lines = Z.to_nat (rows b)
    ∧ lines !! Z.to_nat (row l) = Some line
    ∧ String.length line = String.length heading
    ∧ (∃ rest, line = Sprintf2d (row l + 1) +:+ rest)
    ∧ String.get (4 + 3 * Z.to_nat (col l)) heading
      = Some (ascii_of_nat (65 + Z.to_nat (col l)))
    ∧ Render b (Some (slotOf l)) = Done g
    ∧ String.get (4 + 3 * Z.to_nat (col l)) line = Some g.
Proof.
  intros Hreach Hc.
  destruct (reachable_cell b l Hreach) as (Hi & Hg & _); [by eexists|].
  pose proof (reachable_counts b Hreach) as (Hr & Hcols & _).
  apply cellAt_slot in Hc as [Hslot [Hrow Hcol]].
  unfold slot in Hslot. simpl in Hslot.
  destruct (cells b !! Z.to_nat (row l)) as [cs|] eqn:Hcs; [|done].
  simpl in Hslot. pose proof (grid_lines b Hg _ _ Hcs) as Hlen.
  exists (headingFor (Z.to_nat (cols b))), (rowLines 0 (cells b)),
    (rowLine (Z.to_nat (row l)) cs), (glyph c).
  assert (String.length (Sprintf2d (Z.of_nat (Z.to_nat (row l)) + 1)) = 2%nat)
    as Hnum.
  { replace (Z.of_nat (Z.to_nat (row l)) + 1)
      with (Z.of_nat (S (Z.to_nat (row l)))) by lia.
    apply length_Sprintf2d. lia. }
  assert (∀ rs n, String.get (4 + 3 * n)
                    ((Sprintf2d (Z.of_nat (Z.to_nat (row l)) + 1) +:+ "  ")
                     +:+ joinRunes rs) = rs !! n) as Hget.
  { intros rs n.
    replace (4 + 3 * n)%nat
      with (String.length
              (Sprintf2d (Z.of_nat (Z.to_nat (row l)) + 1) +:+ "  ")
            + 3 * n)%nat
      by by rewrite string_length_app, Hnum.
    rewrite string_get_app_r. apply get_joinRunes. }
  split_and!.
  - by apply ConsoleRender_run.
  - by rewrite length_rowLines, (grid_length b Hg).
  - by rewrite lookup_rowLines, Hcs.
  - unfold rowLine, headingFor. rewrite !string_length_app, Hnum.
    pose proof (length_joinRunes_cols (glyph <$> cs)) as H1.
    pose proof (length_joinRunes_cols (columnLetters (Z.to_nat (cols b))))
      as H2.
    rewrite length_fmap in H1. rewrite length_columnLetters in H2.
    simpl String.length. lia.
  - exists ("  " +:+ joinRunes (glyph <$> cs)). unfold rowLine.
    by rewrite Z2Nat.id by lia.
  - unfold headingFor.
    change (4 + 3 * Z.to_nat (col l))%nat
      with (String.length "    " + 3 * Z.to_nat (col l))%nat.
    rewrite string_get_app_r, get_joinRunes. unfold columnLetters.
    rewrite list_lookup_fmap, lookup_seq_lt by lia. done.
  - by apply Render_slot; [|unfold slot; simpl; rewrite Hcs].
  - unfold rowLine. rewrite <- string_app_assoc, Hget.
    by rewrite list_lookup_fmap, Hslot.
Qed.

(** ** Console input *)

Lemma readNextMove_label (i j : nat) (rest : list string) :
  (i < 30)%nat → (j < 16)%nat →
  readNextMove (String (ascii_of_nat (65 + j)) (pretty (Z.of_nat i + 1))
                :: rest)
  = ("s", NewLocation (Z.of_nat i) (Z.of_nat j), true, rest)
  ∧ readNextMove (String (ascii_of_nat (97 + j)) (pretty (Z.of_nat i + 1))
                  :: rest)
    = ("s", NewLocation (Z.of_nat i) (Z.of_nat j), true, rest)
  ∧ readNextMove ((Sprintf2d (Z.of_nat i + 1)
                   +:+ String (ascii_of_nat (65 + j)) "") :: rest)
    = ("s", NewLocation (Z.of_nat i) (Z.of_nat j), true, rest).
Proof.
  intros Hi Hj.
  do 30 (destruct i as [|i];
         [do 16 (destruct j as [|j]; [vm_compute; done|]); lia|]).
  lia.
Qed.

Lemma chars_app (s1 s2 : string) : chars (s1 +:+ s2) = chars s1 ++ chars s2.
Proof. induction s1 as [|a s1 IH]; [done|]. simpl. by rewrite <- IH. Qed.

Lemma chars_rev_app (s1 s2 : string) :
  chars (String.rev_app s1 s2) = reverse (chars s1) ++ chars s2.
Proof.
  revert s2. induction s1 as [|a s1 IH]; intros s2; [done|].
  simpl. rewrite IH, reverse_cons. simpl. by rewrite <- (assoc_L (++)).
Qed.

Lemma chars_rev (s : string) : chars (String.rev s) = reverse (chars s).
Proof. unfold String.rev. by rewrite chars_rev_app, app_nil_r. Qed.

Lemma TrimLeft_blank (pre s : string) :
  blank pre → TrimLeft (pre +:+ s) = TrimLeft s.
Proof.
  unfold blank. induction pre as [|a pre IH]; intros Hb; [done|].
  simpl in Hb. apply Forall_cons in Hb as [Ha Hb].
  change (String a pre +:+ s) with (String a (pre +:+ s)). simpl.
  unfold inCutset. rewrite bool_decide_eq_true_2 by done. by apply IH.
Qed.


(** On a line of spaces and newlines only, the empty line included,
    [readOneCharacter] panics: the slice [inLine[0:1]] of the trimmed
    line is out of range. *)
Theorem readOneCharacter_blank_panics (text : string) (rest : list string) :
  blank text → readOneCharacter (text :: rest) = Panic.
Proof.
  intros Hb. unfold readOneCharacter, readInput, Trim.
  pose proof (TrimLeft_blank text "" Hb) as Ht.
  assert (text +:+ "" = text) as Hnil.
  { clear. induction text as [|a s IH]; [done|].
    change (String a s +:+ "") with (String a (s +:+ "")). by rewrite IH. }
  rewrite Hnil in Ht. by rewrite Ht.
Qed.


Lemma IsDigit_toLower (a : ascii) : IsDigit (toLower a) = IsDigit a.
Proof. by destruct a as [[] [] [] [] [] [] [] []]. Qed.

Lemma Forall_chars_TrimLeft (P : ascii → Prop) (s : string) :
  Forall P (chars s) → Forall P (chars (TrimLeft s)).
Proof.
  induction s as [|a s IH]; [done|]. simpl. intros Hs.
  destruct (inCutset a); [|done]. apply IH. by apply Forall_cons in Hs as [_ ?].
Qed.

Lemma Forall_chars_Trim (P : ascii → Prop) (s : string) :
  Forall P (chars s) → Forall P (chars (Trim s)).
Proof.
  intros Hs. unfold Trim. rewrite chars_rev. apply Forall_reverse.
  apply Forall_chars_TrimLeft. rewrite chars_rev. apply Forall_reverse.
  by apply Forall_chars_TrimLeft.
Qed.

Lemma gather_no_digit (digits : string) (letters : list ascii) (s : string) :
  Forall (λ a, IsDigit a = false) (chars s) →
  gather digits letters s = (digits, letters ++ chars s).
Proof.
  revert letters. induction s as [|a s IH]; intros letters Hs; simpl.
  { by rewrite app_nil_r. }
  apply Forall_cons in Hs as [Ha Hs]. rewrite Ha, IH by done.
  by rewrite <- (assoc_L (++)).
Qed.

(** A line without a digit is rejected: [readNextMove] returns the
    error of [strconv.Atoi] and the row -2, whatever else the line
    holds. *)
Theorem readNextMove_without_digits (text : string) (rest : list string) :
  Forall (λ a, IsDigit a = false) (chars text) →
  ∃ c, readNextMove (text :: rest) = ("s", NewLocation (-2) c, false, rest).
Proof.
  intros Hs. unfold readNextMove, readInput.
  rewrite gather_no_digit.
  - simpl. eexists. reflexivity.
  - apply (Forall_chars_Trim _ text) in Hs. revert Hs.
    generalize (Trim text). intros s.
    induction s as [|a s IH]; [done|]. simpl. intros [Ha Hs]%Forall_cons.
    constructor; [by rewrite IsDigit_toLower|by apply IH].
Qed.

(** The label under which [ConsoleRender] shows a cell is read back by
    [readNextMove] as the location of the cell: the letter of the column,
    in upper or lower case, followed by the row number counted from 1, or
    the row number as printed in front of the row followed by the
    letter.  The command is "s" and the error is nil. *)
Theorem readNextMove_reads_label (b : Board) (l : Location)
    (rest : list string) :
  reachable b → ValidLocation b l = true →
  readNextMove (String (ascii_of_nat (65 + Z.to_nat (col l)))
                       (pretty (row l + 1)) :: rest)
  = ("s", l, true, rest)
  ∧ readNextMove (String (ascii_of_nat (97 + Z.to_nat (col l)))
                         (pretty (row l + 1)) :: rest)
    = ("s", l, true, rest)
  ∧ readNextMove ((Sprintf2d (row l + 1)
                   +:+ String (ascii_of_nat (65 + Z.to_nat (col l))) "")
                  :: rest)
    = ("s", l, true, rest).
Proof.
  intros Hreach [Hr Hc]%ValidLocation_onBoard.
  pose proof (reachable_counts b Hreach) as (Hrows & Hcols & _).
  destruct l as [r c]. simpl in *.
  pose proof (readNextMove_label (Z.to_nat r) (Z.to_nat c) rest) as H.
  rewrite !Z2Nat.id in H by lia. apply H; lia.
Qed.

(** ** The further properties at concrete boards *)

Lemma floodedBoard_click :
  Click 100 sparseBoard (NewLocation 8 8) = Done floodedBoard.
Proof. vm_compute. reflexivity. Qed.

Lemma floodedBoard_reachable : reachable floodedBoard.
Proof.
  exact (reach_Click _ _ _ _ sparseBoard_reachable floodedBoard_click).
Qed.

Lemma explodedBoard_click :
  Click 0 sparseBoard (NewLocation 0 0) = Done explodedBoard.
Proof. vm_compute. reflexivity. Qed.

Lemma explodedBoard_reachable : reachable explodedBoard.
Proof.
  exact (reach_Click _ _ _ _ sparseBoard_reachable explodedBoard_click).
Qed.

Lemma replayedBoard_init :
  Initialize 1 (λ _, 0) explodedBoard (NewLocation 0 0) = Done replayedBoard.
Proof. vm_compute. reflexivity. Qed.

Lemma revealedBoard_all : RevealAll floodedBoard = Done (revealedBoard, true).
Proof. vm_compute. reflexivity. Qed.

Lemma getCell_on_board_witness :
  getCell sparseBoard (NewLocation 9 4)
  = Done (if ValidLocation sparseBoard (NewLocation 9 4)
          then Some (slotOf (NewLocation 9 4)) else None)
  ∧ (ValidLocation sparseBoard (NewLocation 9 4) = true →
     ∃ c, load sparseBoard (slotOf (NewLocation 9 4)) = Done c
          ∧ location c = NewLocation 9 4).
Proof.
  apply (getCell_on_board sparseBoard (NewLocation 9 4)).
  - exact sparseBoard_reachable.
  - vm_compute. reflexivity.
Defined.

Lemma getNeighborCells_spec_witness :
  if ValidLocation sparseBoard (NewLocation 0 8) then
    ∃ ns, getNeighborCells sparseBoard (NewLocation 0 8) = Done (Some ns)
          ∧ NoDup ns ∧ (length ns ≤ 8)%nat
          ∧ (∀ q, q ∈ ns ↔
                  ValidLocation sparseBoard (locOf q) = true
                  ∧ adjacent (NewLocation 0 8) (locOf q))
          ∧ (0 < row (NewLocation 0 8) < rows sparseBoard - 1 →
             0 < col (NewLocation 0 8) < cols sparseBoard - 1 →
             length ns = 8%nat)
  else getNeighborCells sparseBoard (NewLocation 0 8) = Done None.
Proof.
  apply (getNeighborCells_spec sparseBoard (NewLocation 0 8)).
  - exact sparseBoard_reachable.
  - vm_compute. reflexivity.
Defined.

Lemma ToggleFlag_spec_witness :
  set_cells [] flaggedBoard = set_cells [] sparseBoard
  ∧ ∀ l' c, cellAt sparseBoard l' = Some c →
      cellAt flaggedBoard l'
      = Some (if decide (l' = NewLocation 8 7)
              then if revealed c then c else set_flagged (negb (flagged c)) c
              else c).
Proof.
  apply (ToggleFlag_spec sparseBoard flaggedBoard (NewLocation 8 7)).
  - exact sparseBoard_reachable.
  - vm_compute. reflexivity.
Defined.

Lemma ToggleFlag_twice_witness :
  ToggleFlag flaggedBoard (NewLocation 8 7) = Done sparseBoard.
Proof.
  apply (ToggleFlag_twice sparseBoard flaggedBoard (NewLocation 8 7)).
  - exact sparseBoard_reachable.
  - vm_compute. reflexivity.
Defined.

Lemma Click_frame_witness :
  set_cells [] (set_explosionOccured false explodedBoard)
  = set_cells [] (set_explosionOccured false sparseBoard)
  ∧ (MineHit sparseBoard = true → MineHit explodedBoard = true)
  ∧ (MineHit explodedBoard = true →
     MineHit sparseBoard = true
     ∨ ∃ c, cellAt sparseBoard (NewLocation 0 0) = Some c
            ∧ hasMine c = true ∧ flagged c = false ∧ revealed c = false)
  ∧ ∀ l' c, cellAt sparseBoard l' = Some c →
      ∃ c', cellAt explodedBoard l' = Some c'
            ∧ c' = set_revealed (revealed c') c
            ∧ (revealed c = true → revealed c' = true).
Proof.
  apply (Click_frame 0 sparseBoard explodedBoard (NewLocation 0 0)).
  - exact sparseBoard_reachable.
  - vm_compute. reflexivity.
Defined.

Lemma Click_twice_witness :
  Click 0 floodedBoard (NewLocation 8 8) = Done floodedBoard.
Proof.
  apply (Click_twice 100 0 sparseBoard floodedBoard (NewLocation 8 8)).
  - exact sparseBoard_reachable.
  - vm_compute. reflexivity.
Defined.

Lemma Click_uncovers_no_mine_witness :
  MineHit floodedBoard = MineHit sparseBoard
  ∧ ∀ l' c', cellAt sparseBoard l' = Some c' → hasMine c' = true →
             cellAt floodedBoard l' = Some c'.
Proof.
  apply (Click_uncovers_no_mine 100 sparseBoard floodedBoard (NewLocation 8 8)
           (cellOr (cellAt sparseBoard (NewLocation 8 8)))).
  - exact sparseBoard_reachable.
  - vm_compute. reflexivity.
  - vm_compute. reflexivity.
  - vm_compute. reflexivity.
Defined.

Lemma Click_changes_iff_witness :
  floodedBoard ≠ sparseBoard
  ↔ ∃ c, cellAt sparseBoard (NewLocation 8 8) = Some c
         ∧ flagged c = false ∧ revealed c = false.
Proof.
  apply (Click_changes_iff 100 sparseBoard floodedBoard (NewLocation 8 8)).
  - exact sparseBoard_reachable.
  - vm_compute. reflexivity.
Defined.

Lemma Click_numbered_cell_witness :
  ∃ b', Click 0 sparseBoard (NewLocation 0 1) = Done b'
        ∧ MineHit b' = MineHit sparseBoard
        ∧ SafeRemaining b' = SafeRemaining sparseBoard
        ∧ cellAt b' (NewLocation 0 1)
          = Some (set_revealed true
                    (cellOr (cellAt sparseBoard (NewLocation 0 1))))
        ∧ ∀ l', l' ≠ NewLocation 0 1 → cellAt b' l' = cellAt sparseBoard l'.
Proof.
  apply (Click_numbered_cell 0 sparseBoard (NewLocation 0 1)
           (cellOr (cellAt sparseBoard (NewLocation 0 1)))).
  - exact sparseBoard_reachable.
  - vm_compute. reflexivity.
  - vm_compute. reflexivity.
  - vm_compute. reflexivity.
  - vm_compute. reflexivity.
  - vm_compute. discriminate.
Defined.

Lemma RevealAll_reveals_all_witness :
  ∃ b', RevealAll floodedBoard = Done (b', true)
        ∧ set_cells [] b' = set_cells [] floodedBoard
        ∧ (∀ l c, cellAt floodedBoard l = Some c →
                  cellAt b' l = Some (set_revealed true c))
        ∧ unrevealed b' = 0%nat
        ∧ RevealAll b' = Done (b', true).
Proof.
  apply (RevealAll_reveals_all floodedBoard).
  - exact floodedBoard_reachable.
  - vm_compute. reflexivity.
Defined.

Lemma RevealAll_freezes_witness :
  Click 100 revealedBoard (NewLocation 0 0) = Done revealedBoard
  ∧ ToggleFlag revealedBoard (NewLocation 0 0) = Done revealedBoard.
Proof.
  apply (RevealAll_freezes floodedBoard revealedBoard 100 (NewLocation 0 0)).
  - exact floodedBoard_reachable.
  - vm_compute. reflexivity.
Defined.

Lemma step_keeps_parameters_witness :
  difficulty replayedBoard = difficulty explodedBoard
  ∧ rows replayedBoard = rows explodedBoard
  ∧ cols replayedBoard = cols explodedBoard
  ∧ mineCount replayedBoard = mineCount explodedBoard
  ∧ (Initialized explodedBoard = true → Initialized replayedBoard = true)
  ∧ (MineHit explodedBoard = true → MineHit replayedBoard = true).
Proof.
  apply (step_keeps_parameters explodedBoard replayedBoard).
  - exact explodedBoard_reachable.
  - apply (step_Initialize explodedBoard 1 (λ _, 0) (NewLocation 0 0)).
    vm_compute. reflexivity.
Defined.

Lemma reachable_preset_witness :
  presetTable (difficulty floodedBoard)
  = Some (rows floodedBoard, cols floodedBoard, mineCount floodedBoard).
Proof. apply (reachable_preset floodedBoard). exact floodedBoard_reachable. Defined.

Lemma SafeRemaining_constant_witness :
  SafeRemaining floodedBoard
  = (if Initialized floodedBoard
     then rows floodedBoard * cols floodedBoard - mineCount floodedBoard
     else 0)
  ∧ (Initialized floodedBoard = true →
     SafeRemaining floodedBoard = 71 ∨ SafeRemaining floodedBoard = 226
     ∨ SafeRemaining floodedBoard = 408).
Proof.
  apply (SafeRemaining_constant floodedBoard). exact floodedBoard_reachable.
Defined.


Lemma Initialize_fresh_grid_witness :
  Initialized replayedBoard = true
  ∧ ValidLocation replayedBoard (NewLocation 0 0)
    = ValidLocation explodedBoard (NewLocation 0 0)
  ∧ if ValidLocation explodedBoard (NewLocation 0 0)
    then ∃ c, cellAt replayedBoard (NewLocation 0 0) = Some c
              ∧ location c = NewLocation 0 0
              ∧ revealed c = false ∧ flagged c = false
    else cellAt replayedBoard (NewLocation 0 0) = None.
Proof.
  apply (Initialize_fresh_grid 1 (λ _, 0) explodedBoard replayedBoard
           (NewLocation 0 0) (NewLocation 0 0)).
  - exact explodedBoard_reachable.
  - vm_compute. reflexivity.
Defined.

Lemma Initialize_depends_on_draws_witness :
  ((∀ k : nat, 2 ≤ 50) →
   ∀ fuel, Initialize fuel (λ _, 50) explodedBoard (NewLocation 4 4)
           = OutOfFuel)
  ∧ ((∀ k : nat, 50 < 2) →
     ∃ b', Initialize 1 (λ _, 50) explodedBoard (NewLocation 4 4) = Done b').
Proof.
  apply (Initialize_depends_on_draws (λ _, 50) explodedBoard (NewLocation 4 4)).
  exact explodedBoard_reachable.
Defined.

Lemma HasMine_getCell_witness :
  (c ← getCell sparseBoard (NewLocation 0 0); HasMine sparseBoard c)
  = Done (mineAt sparseBoard (NewLocation 0 0))
  ∧ (ValidLocation sparseBoard (NewLocation 0 0) = false →
     mineAt sparseBoard (NewLocation 0 0) = false).
Proof.
  apply (HasMine_getCell sparseBoard (NewLocation 0 0)).
  - exact sparseBoard_reachable.
  - vm_compute. reflexivity.
Defined.

Lemma Render_on_board_witness :
  ∃ g, Render floodedBoard (Some (slotOf (NewLocation 5 6))) = Done g
       ∧ (g = "."%char
          ↔ revealed (cellOr (cellAt floodedBoard (NewLocation 5 6))) = false)
       ∧ (g = "+"%char
          ↔ revealed (cellOr (cellAt floodedBoard (NewLocation 5 6))) = true
            ∧ flagged (cellOr (cellAt floodedBoard (NewLocation 5 6))) = true)
       ∧ (g = "*"%char ↔
          revealed (cellOr (cellAt floodedBoard (NewLocation 5 6))) = true
          ∧ flagged (cellOr (cellAt floodedBoard (NewLocation 5 6))) = false
          ∧ hasMine (cellOr (cellAt floodedBoard (NewLocation 5 6))) = true)
       ∧ (revealed (cellOr (cellAt floodedBoard (NewLocation 5 6))) = true →
          flagged (cellOr (cellAt floodedBoard (NewLocation 5 6))) = false →
          hasMine (cellOr (cellAt floodedBoard (NewLocation 5 6))) = false →
          scoreRunes !! Z.to_nat (mooreMines floodedBoard (NewLocation 5 6))
          = Some g).
Proof.
  apply (Render_on_board floodedBoard (NewLocation 5 6)
           (cellOr (cellAt floodedBoard (NewLocation 5 6)))).
  - exact floodedBoard_reachable.
  - vm_compute. reflexivity.
Defined.

Lemma ConsoleRender_text_witness :
  ConsoleRender floodedBoard ""
  = if Initialized floodedBoard
    then Done ("" +:+ unlines (headingFor (Z.to_nat (cols floodedBoard))
                                 :: rowLines 0 (cells floodedBoard)), true)
    else Done ("", false).
Proof. apply (ConsoleRender_text floodedBoard ""). exact floodedBoard_reachable. Defined.

Lemma ConsoleRender_layout_witness :
  ∃ heading lines line g,
    ConsoleRender floodedBoard ""
    = Done ("" +:+ unlines (heading :: lines), true)
    ∧ length lines = Z.to_nat (rows floodedBoard)
    ∧ lines !! Z.to_nat (row (NewLocation 5 6)) = Some line
    ∧ String.length line = String.length heading
    ∧ (∃ rest, line = Sprintf2d (row (NewLocation 5 6) + 1) +:+ rest)
    ∧ String.get (4 + 3 * Z.to_nat (col (NewLocation 5 6))) heading
      = Some (ascii_of_nat (65 + Z.to_nat (col (NewLocation 5 6))))
    ∧ Render floodedBoard (Some (slotOf (NewLocation 5 6))) = Done g
    ∧ String.get (4 + 3 * Z.to_nat (col (NewLocation 5 6))) line = Some g.
Proof.
  apply (ConsoleRender_layout floodedBoard "" (NewLocation 5 6)
           (cellOr (cellAt floodedBoard (NewLocation 5 6)))).
  - exact floodedBoard_reachable.
  - vm_compute. reflexivity.
Defined.

Lemma readOneCharacter_blank_panics_witness :
  readOneCharacter ["  "; "e"] = Panic.
Proof.
  apply (readOneCharacter_blank_panics "  " ["e"]). repeat constructor.
Defined.


Lemma readNextMove_reads_label_witness :
  readNextMove (String (ascii_of_nat (65 + Z.to_nat (col (NewLocation 8 7))))
                       (pretty (row (NewLocation 8 7) + 1)) :: ["q"])
  = ("s", NewLocation 8 7, true, ["q"])
  ∧ readNextMove (String (ascii_of_nat (97 + Z.to_nat (col (NewLocation 8 7))))
                         (pretty (row (NewLocation 8 7) + 1)) :: ["q"])
    = ("s", NewLocation 8 7, true, ["q"])
  ∧ readNextMove ((Sprintf2d (row (NewLocation 8 7) + 1)
                   +:+ String (ascii_of_nat
                                 (65 + Z.to_nat (col (NewLocation 8 7)))) "")
                  :: ["q"])
    = ("s", NewLocation 8 7, true, ["q"]).
Proof.
  apply (readNextMove_reads_label sparseBoard (NewLocation 8 7) ["q"]).
  - exact sparseBoard_reachable.
  - vm_compute. reflexivity.
Defined.

Lemma readNextMove_without_digits_witness :
  ∃ c, readNextMove ["flag b"; "q"]
       = ("s", NewLocation (-2) c, false, ["q"]).
Proof.
  apply (readNextMove_without_digits "flag b" ["q"]).
  repeat constructor.
Defined.

Lemma Click_commute_witness : floodedNumberedBoard = numberedFloodedBoard.
Proof.
  apply (Click_commute 100 0 0 100 sparseBoard floodedBoard
           floodedNumberedBoard numberedBoard numberedFloodedBoard
           (NewLocation 8 8) (NewLocation 0 1)).
  - exact sparseBoard_reachable.
  - vm_compute. reflexivity.
  - vm_compute. reflexivity.
  - vm_compute. reflexivity.
  - vm_compute. reflexivity.
Defined.

Lemma revealed_cell_is_final_witness :
  cellAt floodedNumberedBoard (NewLocation 8 8)
  = Some (cellOr (cellAt floodedBoard (NewLocation 8 8))).
Proof.
  apply (revealed_cell_is_final floodedBoard floodedNumberedBoard
           (NewLocation 8 8) (cellOr (cellAt floodedBoard (NewLocation 8 8)))).
  - exact floodedBoard_reachable.
  - left. exists 0%nat, (NewLocation 0 1). vm_compute. reflexivity.
  - vm_compute. reflexivity.
  - vm_compute. reflexivity.
Defined.

Lemma Click_returns_witness :
  ∃ b', Click (unrevealed sparseBoard) sparseBoard (NewLocation 8 8) = Done b'
        ∧ ∀ fuel, Click fuel sparseBoard (NewLocation 8 8) = Done b'
                  ∨ Click fuel sparseBoard (NewLocation 8 8) = OutOfFuel.
Proof.
  apply (Click_returns sparseBoard (NewLocation 8 8)).
  - exact sparseBoard_reachable.
  - vm_compute. reflexivity.
Defined.

